(** * textp2srt: pairing manual subtitle blocks with timeline clips

    A shallow embedding of the pairing / filtering / emission core of
    [src/textp2srt.py] and the properties its specification states.

    Conventions of the embedding
    - a Python [str] is the list of its Unicode code points ([pystr]);
      a string literal of the source is written [py "..."], the UTF-8
      decoding of the literal's bytes;
    - a Python [float] is an IEEE-754 binary64 value, represented by
      [spec_float] with the operations of the Standard Library's
      [SpecFloat] at precision 53 and [emax = 1024];
    - a Python [int] is a [Z];
    - a function that can raise returns a [result]; a function that prints
      or writes a file threads a [world]. *)

From Stdlib Require Import ZArith NArith Lia Bool.
From Stdlib.Strings Require Import Ascii String Byte.
From Stdlib Require Import SpecFloat.
From stdpp Require Import base option list sorting.

Set Default Proof Using "Type".
Local Open Scope Z_scope.

(* ================================================================== *)
(** * Exceptions *)
(* ================================================================== *)

(** The Python exceptions the modelled functions can let escape. *)
Inductive exn : Set :=
  | OSError            (* open() failed: file not found, permissions, ... *)
  | UnicodeDecodeError (* the file's bytes are not valid UTF-8 *)
  | ValueError
  | OverflowError
  | ZeroDivisionError
  | IndexError.

Inductive result (A : Type) : Type :=
  | Ok (a : A)
  | Raise (e : exn).
Arguments Ok {A} a.
Arguments Raise {A} e.

#[global] Instance result_ret : MRet result := fun _ a => Ok a.
#[global] Instance result_bind : MBind result := fun _ _ f m =>
  match m with
  | Ok a => f a
  | Raise e => Raise e
  end.
#[global] Instance result_fmap : FMap result := fun _ _ f m =>
  match m with
  | Ok a => Ok (f a)
  | Raise e => Raise e
  end.

Definition is_Ok {A} (r : result A) : bool :=
  match r with Ok _ => true | Raise _ => false end.

(* ================================================================== *)
(** * Python strings *)
(* ================================================================== *)

Abbreviation pystr := (list N).

(** Strict UTF-8 decoding, as [bytes.decode('utf-8')] and a text file
    opened with [encoding='utf-8'] perform it: overlong forms, surrogates
    and code points above U+10FFFF are rejected. *)
Definition is_cont (b : N) : bool := ((0x80 <=? b) && (b <=? 0xBF))%N.
Definition in_range (lo hi b : N) : bool := ((lo <=? b) && (b <=? hi))%N.

Fixpoint utf8_decode (bs : list N) : option pystr :=
  match bs with
  | [] => Some []
  | b0 :: r0 =>
      if (b0 <? 0x80)%N then cons b0 <$> utf8_decode r0
      else if in_range 0xC2 0xDF b0 then
        match r0 with
        | b1 :: r1 =>
            if is_cont b1
            then cons ((b0 - 0xC0) * 64 + (b1 - 0x80))%N <$> utf8_decode r1
            else None
        | _ => None
        end
      else if in_range 0xE0 0xEF b0 then
        match r0 with
        | b1 :: b2 :: r2 =>
            let lo := if (b0 =? 0xE0)%N then 0xA0%N else 0x80%N in
            let hi := if (b0 =? 0xED)%N then 0x9F%N else 0xBF%N in
            if in_range lo hi b1 && is_cont b2
            then cons ((b0 - 0xE0) * 4096 + (b1 - 0x80) * 64 + (b2 - 0x80))%N
                   <$> utf8_decode r2
            else None
        | _ => None
        end
      else if in_range 0xF0 0xF4 b0 then
        match r0 with
        | b1 :: b2 :: b3 :: r3 =>
            let lo := if (b0 =? 0xF0)%N then 0x90%N else 0x80%N in
            let hi := if (b0 =? 0xF4)%N then 0x8F%N else 0xBF%N in
            if in_range lo hi b1 && is_cont b2 && is_cont b3
            then cons ((b0 - 0xF0) * 262144 + (b1 - 0x80) * 4096
                       + (b2 - 0x80) * 64 + (b3 - 0x80))%N
                   <$> utf8_decode r3
            else None
        | _ => None
        end
      else None
  end.

Definition decode_bytes (bs : list byte) : option pystr :=
  utf8_decode (Byte.to_N <$> bs).

(** A string literal of the source. *)
Definition py (s : string) : pystr :=
  default [] (decode_bytes (list_byte_of_string s)).

Definition pystr_eqb (a b : pystr) : bool := bool_decide (a = b).

(** [str.isspace] for one character: the characters [str.strip],
    [str.lstrip] and [str.rstrip] remove when called without argument. *)
Definition isspace (c : N) : bool :=
  (in_range 0x09 0x0D c || in_range 0x1C 0x20 c
   || (c =? 0x85) || (c =? 0xA0) || (c =? 0x1680)
   || in_range 0x2000 0x200A c || (c =? 0x2028) || (c =? 0x2029)
   || (c =? 0x202F) || (c =? 0x205F) || (c =? 0x3000))%N.

Fixpoint lstrip_with (p : N -> bool) (s : pystr) : pystr :=
  match s with
  | c :: s' => if p c then lstrip_with p s' else s
  | [] => []
  end.
Definition rstrip_with (p : N -> bool) (s : pystr) : pystr :=
  reverse (lstrip_with p (reverse s)).

Definition lstrip (s : pystr) : pystr := lstrip_with isspace s.
Definition rstrip (s : pystr) : pystr := rstrip_with isspace s.
Definition strip (s : pystr) : pystr := rstrip (lstrip s).

Definition NL : N := 10%N.
Definition CR : N := 13%N.
Definition GT : N := 62%N.

(** [s.rstrip('\n')] *)
Definition rstrip_nl (s : pystr) : pystr := rstrip_with (N.eqb NL) s.

(** [s.startswith(p)] *)
Fixpoint startswith (s p : pystr) : bool :=
  match p, s with
  | [], _ => true
  | c :: p', d :: s' => (c =? d)%N && startswith s' p'
  | _ :: _, [] => false
  end.

(** [p in s] for strings: [p] occurs in [s] as a contiguous run. *)
Fixpoint contains (s p : pystr) : bool :=
  startswith s p ||
  match s with
  | [] => false
  | _ :: s' => contains s' p
  end.

(** [sep.join(parts)] *)
Fixpoint join (sep : pystr) (parts : list pystr) : pystr :=
  match parts with
  | [] => []
  | [p] => p
  | p :: ps => p ++ sep ++ join sep ps
  end.

(** [len(set(s))]: the number of distinct characters of [s]. *)
Definition distinct_chars (s : pystr) : nat := length (remove_dups s).

(** Decimal digits of a non-negative integer, most significant first. *)
Fixpoint digits_fuel (fuel : nat) (n : N) : pystr :=
  match fuel with
  | O => [(48 + n mod 10)%N]
  | S f =>
      if (n <? 10)%N then [(48 + n)%N]
      else digits_fuel f (n / 10) ++ [(48 + n mod 10)%N]
  end.
Definition digits (n : N) : pystr := digits_fuel (N.to_nat (N.log2 n)) n.

Definition MINUS : N := 45%N.
Definition ZERO : N := 48%N.

(** [str(z)] and the [{z}] of an f-string. *)
Definition str_of_int (z : Z) : pystr :=
  if z <? 0 then MINUS :: digits (Z.abs_N z) else digits (Z.abs_N z).

(** [{z:0wd}]: sign-aware zero padding to a minimal width [w]. *)
Definition zfill (w : nat) (s : pystr) : pystr :=
  replicate (w - length s) ZERO ++ s.
Definition format_0d (w : nat) (z : Z) : pystr :=
  if z <? 0 then MINUS :: zfill (w - 1) (digits (Z.abs_N z))
  else zfill w (digits (Z.abs_N z)).

(* ================================================================== *)
(** * Python floats and ints *)
(* ================================================================== *)

Abbreviation float := spec_float.

Definition prec : Z := 53.
Definition emax : Z := 1024.

Definition fmul : float -> float -> float := SFmul prec emax.
Definition fsub : float -> float -> float := SFsub prec emax.
Definition flt : float -> float -> bool := SFltb.
Definition fle : float -> float -> bool := SFleb.
Definition feq : float -> float -> bool := SFeqb.

(** The double nearest to an integer (ties to even). *)
Definition float_const (z : Z) : float := binary_normalize prec emax z 0 false.

(** [float(z)] and the implicit conversion of an int operand. *)
Definition float_of_int (z : Z) : result float :=
  match float_const z with
  | S754_infinity _ => Raise OverflowError
  | x => Ok x
  end.

(** [x / y] on floats. *)
Definition float_div (x y : float) : result float :=
  match y with
  | S754_zero _ => Raise ZeroDivisionError
  | _ => Ok (SFdiv prec emax x y)
  end.

(** [a / b] on ints: the correctly rounded quotient. *)
Definition int_truediv (a b : Z) : result float :=
  if b =? 0 then Raise ZeroDivisionError
  else if a =? 0 then Ok (S754_zero (b <? 0))
  else
    let '(q, e, l) := SFdiv_core_binary prec emax (Z.abs a) 0 (Z.abs b) 0 in
    match binary_round_aux prec emax (xorb (a <? 0) (b <? 0)) q e l with
    | S754_infinity _ => Raise OverflowError
    | x => Ok x
    end.

(** A decimal literal [n / 10^k] of the source, such as [0.6]. *)
Definition float_lit (n : Z) (k : nat) : float :=
  match int_truediv n (10 ^ Z.of_nat k) with
  | Ok x => x
  | Raise _ => S754_nan
  end.

(** [int(x)]: truncation towards zero. *)
Definition int_of_float (x : float) : result Z :=
  match x with
  | S754_zero _ => Ok 0
  | S754_finite s m e => Ok (cond_Zopp s (Z.shiftl (Zpos m) e))
  | S754_infinity _ => Raise OverflowError
  | S754_nan => Raise ValueError
  end.

(** [round(x)]: the nearest int, ties to even. *)
Definition round_half_even (x : float) : result Z :=
  match x with
  | S754_zero _ => Ok 0
  | S754_finite s m e =>
      if 0 <=? e then Ok (cond_Zopp s (Zpos m * 2 ^ e))
      else
        let d := 2 ^ (- e) in
        let q := Zpos m / d in
        let r := Zpos m mod d in
        Ok (cond_Zopp s
              match 2 * r ?= d with
              | Lt => q
              | Gt => q + 1
              | Eq => if Z.even q then q else q + 1
              end)
  | S754_infinity _ => Raise OverflowError
  | S754_nan => Raise ValueError
  end.

(** ** [datetime.timedelta]

    The part of the standard library's [timedelta] that [_fmt_time] uses,
    after the reference implementation: the float is split by
    [math.modf], the fraction is scaled to microseconds in floating point
    and rounded half-even, the fields are normalised and the day count is
    range-checked. *)
Record timedelta : Set := { days : Z; seconds : Z; microseconds : Z }.

Definition timedelta_of_seconds (sec : float) : result timedelta :=
  whole ← int_of_float sec;
  wholef ← float_of_int whole;
  let secondsfrac := fsub sec wholef in
  let d0 := whole / (24 * 3600) in
  let s0 := whole mod (24 * 3600) in
  let usdouble := fmul secondsfrac (float_const 1000000) in
  us0 ← round_half_even usdouble;
  let s1 := s0 + us0 / 1000000 in
  let us := us0 mod 1000000 in
  let d := d0 + s1 / (24 * 3600) in
  let s := s1 mod (24 * 3600) in
  if 999999999 <? Z.abs d then Raise OverflowError
  else Ok {| days := d; seconds := s; microseconds := us |}.

Definition total_seconds (td : timedelta) : result float :=
  int_truediv ((days td * 86400 + seconds td) * 10 ^ 6 + microseconds td)
              (10 ^ 6).

(* ================================================================== *)
(** * The time formatter *)
(* ================================================================== *)

Definition total_ms_of (sec : float) : result Z :=
  td ← timedelta_of_seconds sec;
  ts ← total_seconds td;
  k ← float_of_int 1000;
  int_of_float (fmul ts k).

Definition fmt_ms (total_ms : Z) : pystr :=
  let h := total_ms / 3600000 in
  let m := (total_ms / 60000) mod 60 in
  let s := (total_ms / 1000) mod 60 in
  let ms := total_ms mod 1000 in
  format_0d 2 h ++ py ":" ++ format_0d 2 m ++ py ":" ++ format_0d 2 s
    ++ py "," ++ format_0d 3 ms.

Definition _fmt_time (sec : float) : result pystr :=
  total_ms ← total_ms_of sec;
  Ok (fmt_ms total_ms).

(* ================================================================== *)
(** * Printing and writing: the world *)
(* ================================================================== *)

(** What a command leaves behind: the lines printed on standard output and
    the text written to each output file. *)
Record world : Type := {
  stdout : list pystr;
  written : pystr -> option pystr
}.

Definition io (A : Type) : Type := world -> result (A * world).

#[global] Instance io_ret : MRet io := fun _ a w => Ok (a, w).
#[global] Instance io_bind : MBind io := fun _ _ f m w =>
  match m w with
  | Ok (a, w') => f a w'
  | Raise e => Raise e
  end.

Definition lift {A} (r : result A) : io A := fun w =>
  match r with
  | Ok a => Ok (a, w)
  | Raise e => Raise e
  end.

(** [print(line)] *)
Definition print (line : pystr) : io unit := fun w =>
  Ok (tt, {| stdout := stdout w ++ [line]; written := written w |}).

(** [open(path, 'w', encoding='utf-8')]: the file is created or emptied. *)
Definition open_w (path : pystr) : io unit := fun w =>
  Ok (tt, {| stdout := stdout w;
             written := fun p => if bool_decide (p = path) then Some []
                                 else written w p |}).

(** [w.write(text)] on the file opened at [path]. *)
Definition write (path text : pystr) : io unit := fun w =>
  Ok (tt, {| stdout := stdout w;
             written := fun p => if bool_decide (p = path)
                                 then Some (default [] (written w p) ++ text)
                                 else written w p |}).

Definition when (b : bool) (m : io unit) : io unit :=
  if b then m else mret tt.

(** [for x in l: body(x)] *)
Fixpoint for_each {A} (l : list A) (body : A -> io unit) : io unit :=
  match l with
  | [] => mret tt
  | x :: l' => _ ← body x; for_each l' body
  end.

(** [l[i]] *)
Definition getitem {A} (l : list A) (i : nat) : result A :=
  match l !! i with
  | Some x => Ok x
  | None => Raise IndexError
  end.

(* ================================================================== *)
(** * The manual block parser *)
(* ================================================================== *)

(** The files that can be read: the bytes at a path, [None] when [open]
    fails (no such file, no permission, ...). *)
Definition filesystem : Type := pystr -> option (list byte).

(** Universal newlines, the default of a file opened in text mode: on
    input [\r\n] and a lone [\r] become [\n]. *)
Fixpoint universal_newlines (s : pystr) : pystr :=
  match s with
  | [] => []
  | c :: s' =>
      if (c =? CR)%N then
        NL :: match s' with
              | d :: s'' => if (d =? NL)%N then universal_newlines s''
                            else universal_newlines s'
              | [] => []
              end
      else c :: universal_newlines s'
  end.

(** [for raw in f]: the lines of the text, each with its terminator. *)
Fixpoint readlines (s : pystr) : list pystr :=
  match s with
  | [] => []
  | c :: s' =>
      if (c =? NL)%N then [c] :: readlines s'
      else match readlines s' with
           | [] => [[c]]
           | l :: ls => (c :: l) :: ls
           end
  end.

Definition is_empty {A} (l : list A) : bool :=
  match l with [] => true | _ => false end.

(** The state of the loop of [parse_manual]: [blocks] and [cur]. *)
Definition flush (blocks cur : list pystr) : list pystr :=
  if is_empty cur then blocks else blocks ++ [strip (join [NL] cur)].

Definition parse_step (st : list pystr * list pystr) (raw : pystr)
  : list pystr * list pystr :=
  let '(blocks, cur) := st in
  let line := rstrip_nl raw in
  if startswith line [GT] then
    (flush blocks cur, [lstrip (drop 1 line)])
  else if is_empty cur then (blocks, cur)
  else (blocks, cur ++ [line]).

Definition parse_lines (lines : list pystr) : list pystr :=
  let '(blocks, cur) := foldl parse_step ([], []) lines in
  filter (fun b => b <> []) (flush blocks cur).

(** The blocks of a text as [parse_manual] reads it from a file. *)
Definition parse_text (text : pystr) : list pystr :=
  parse_lines (readlines (universal_newlines text)).

(** [path] is [None] for Python's [None]. *)
Definition parse_manual (fs : filesystem) (path : option pystr)
  : result (list pystr) :=
  match path with
  | None | Some [] => Ok []
  | Some p =>
      match fs p with
      | None => Raise OSError
      | Some bytes =>
          match decode_bytes bytes with
          | None => Raise UnicodeDecodeError
          | Some text => Ok (parse_text text)
          end
      end
  end.

(* ================================================================== *)
(** * The ignore heuristic *)
(* ================================================================== *)

Definition DEFAULT_IGNORE_NAMES : list pystr :=
  [ py "カラーディップ"; py "クロスディゾルブ"; py "ディゾルブ"; py "ディップ";
    py "Transition"; py "Dip"; py "Dissolve"; py "Cross Dissolve" ].

(** [str.lower] on a string whose characters are ASCII or caseless, which
    covers the built-in patterns; elsewhere the functions below take
    [str.lower] as the parameter [lower]. *)
Definition lower_ascii (s : pystr) : pystr :=
  (fun c => if in_range 65 90 c then (c + 32)%N else c) <$> s.

Section Heuristic.
Variable lower : pystr -> pystr.

  (** The loop [for p in patterns: if p and p in lname: return True]. *)
Fixpoint any_pattern (lname : pystr) (patterns : list pystr) : bool :=
    match patterns with
    | [] => false
    | p :: ps =>
        if negb (is_empty p) && contains lname p then true
        else any_pattern lname ps
    end.

Definition _should_ignore (name : pystr) (duration : float)
      (ignore_effects : bool) (extra : list pystr) : bool :=
    if negb ignore_effects then false
    else
      let lname := lower name in
      let patterns := (lower <$> DEFAULT_IGNORE_NAMES) ++ (lower <$> extra) in
      if any_pattern lname patterns then true
      else if fle duration (float_lit 6 1) then
        if (distinct_chars lname <? 6)%nat then true else false
      else false.
End Heuristic.

(* ================================================================== *)
(** * The host timeline *)
(* ================================================================== *)

(** The outcome of a call into the host API made under [try/except]. *)
Inductive api (A : Type) : Type :=
  | Returns (a : A)
  | Throws.
Arguments Returns {A} a.
Arguments Throws {A}.

(** A Fusion tool: [GetInput('StyledText')] and [GetData()['StyledText']];
    the value is [None] for Python's [None]. *)
Record tool : Type := {
  GetInput_StyledText : api (option pystr);
  GetData_StyledText : api (option pystr)
}.

Record fusion_comp : Type := {
  FindToolByID : pystr -> api (option tool)
}.

(** A timeline item; [GetStart] and [GetEnd] are frame numbers. *)
Record item : Type := {
  GetStart : Z;
  GetEnd : Z;
  GetName : api (option pystr);
  GetFusionCompByIndex : api (option fusion_comp)
}.

(** A video track: [GetTrackName] and [GetItemListInTrack], which may
    return [None]. *)
Record track : Type := {
  GetTrackName : pystr;
  GetItemListInTrack : option (list item)
}.

(** The current timeline: its video tracks, index 1 first, and
    [float(GetSetting('timelineFrameRate'))], [None] when the conversion
    raises. *)
Record timeline_t : Type := {
  video_tracks : list track;
  timelineFrameRate : option float
}.

Definition get_fps (tl : timeline_t) : result float :=
  match timelineFrameRate tl with
  | Some f => Ok f
  | None => Raise ValueError
  end.

(** [frames / fps] for an int and a float. *)
Definition frames_div (frames : Z) (fps : float) : result float :=
  f ← float_of_int frames;
  float_div f fps.

(** [try: x = it.GetFusionCompByIndex(1) except Exception: x = None] *)
Definition try_fusion_comp (it : item) : option fusion_comp :=
  match GetFusionCompByIndex it with
  | Returns c => c
  | Throws => None
  end.

(** [try: nm = it.GetName() or '' except Exception: nm = ''] *)
Definition try_name (it : item) : pystr :=
  match GetName it with
  | Returns (Some s) => s
  | Returns None | Throws => []
  end.

(** The items of the tracks named [track_name], in track order. *)
Definition items_or_empty (tr : track) : list item :=
  default [] (GetItemListInTrack tr).

Definition matching_tracks (tl : timeline_t) (track_name : pystr) : list track :=
  filter (fun tr => GetTrackName tr = track_name) (video_tracks tl).

Definition raw_items (tl : timeline_t) (track_name : pystr) : list item :=
  matching_tracks tl track_name ≫= items_or_empty.

(** [for x in l: acc = body(acc, x)] with exceptions. *)
Fixpoint foldM {A S} (body : S -> A -> result S) (acc : S) (l : list A)
  : result S :=
  match l with
  | [] => Ok acc
  | x :: l' => acc' ← body acc x; foldM body acc' l'
  end.

(* ================================================================== *)
(** * The element filter *)
(* ================================================================== *)

Inductive reason : Set := text_plus_reason | effect_reason.

(** The dicts the collectors build. *)
Record clip : Type := {
  clip_item : item;
  clip_start : float;
  clip_end : float;
  clip_name : pystr
}.

Record kept_clip : Type := {
  kept_item : item;
  kept_name : pystr;
  kept_start : float;
  kept_end : float;
  kept_dur : float
}.

Record ignored_clip : Type := {
  ign_item : item;
  ign_reason : reason;
  ign_name : pystr;
  ign_start : float;
  ign_end : float;
  ign_dur : float
}.

Section Collect.
Variable lower : pystr -> pystr.

Definition collect_item (fps : float) (exclude_text_plus ignore_effects : bool)
      (extra_ignore : list pystr) (res : list clip) (it : item)
    : result (list clip) :=
    let fusion_comp := try_fusion_comp it in
    if exclude_text_plus && bool_decide (is_Some fusion_comp) then Ok res
    else
      let clip_name := try_name it in
      start ← frames_div (GetStart it) fps;
      end_ ← frames_div (GetEnd it) fps;
      let dur := fsub end_ start in
      if _should_ignore lower clip_name dur ignore_effects extra_ignore
      then Ok res
      else Ok (res ++ [{| clip_item := it; clip_start := start;
                          clip_end := end_; clip_name := clip_name |}]).

Definition collect_track (tl : timeline_t)
      (exclude_text_plus ignore_effects : bool) (extra_ignore : list pystr)
      (res : list clip) (tr : track) : result (list clip) :=
    let items := items_or_empty tr in
    fps ← get_fps tl;
    foldM (collect_item fps exclude_text_plus ignore_effects extra_ignore)
          res items.

Definition collect_clips (timeline : option timeline_t) (track_name : pystr)
      (exclude_text_plus ignore_effects : bool)
      (extra_ignore : option (list pystr)) : result (list clip) :=
    match timeline with
    | None => Ok []
    | Some tl =>
        let extra_ignore := default [] extra_ignore in
        foldM (collect_track tl exclude_text_plus ignore_effects extra_ignore)
              [] (matching_tracks tl track_name)
    end.

Definition collect_item_with_ignored (fps : float)
      (exclude_text_plus ignore_effects : bool) (extra_ignore : list pystr)
      (st : list kept_clip * list ignored_clip) (it : item)
    : result (list kept_clip * list ignored_clip) :=
    let '(kept, ignored_list) := st in
    let fusion_comp := try_fusion_comp it in
    if exclude_text_plus && bool_decide (is_Some fusion_comp) then
      let nm := try_name it in
      start ← frames_div (GetStart it) fps;
      end_ ← frames_div (GetEnd it) fps;
      let dur := fsub end_ start in
      Ok (kept, ignored_list ++
                [{| ign_item := it; ign_reason := text_plus_reason;
                    ign_name := nm; ign_start := start; ign_end := end_;
                    ign_dur := dur |}])
    else
      let clip_name := try_name it in
      start ← frames_div (GetStart it) fps;
      end_ ← frames_div (GetEnd it) fps;
      let dur := fsub end_ start in
      if _should_ignore lower clip_name dur ignore_effects extra_ignore
      then Ok (kept, ignored_list ++
                     [{| ign_item := it; ign_reason := effect_reason;
                         ign_name := clip_name; ign_start := start;
                         ign_end := end_; ign_dur := dur |}])
      else Ok (kept ++ [{| kept_item := it; kept_name := clip_name;
                           kept_start := start; kept_end := end_;
                           kept_dur := dur |}], ignored_list).

Definition collect_track_with_ignored (tl : timeline_t)
      (exclude_text_plus ignore_effects : bool) (extra_ignore : list pystr)
      (st : list kept_clip * list ignored_clip) (tr : track)
    : result (list kept_clip * list ignored_clip) :=
    let items := items_or_empty tr in
    fps ← get_fps tl;
    foldM (collect_item_with_ignored fps exclude_text_plus ignore_effects
             extra_ignore) st items.

Definition collect_clips_with_ignored (timeline : option timeline_t)
      (track_name : pystr) (exclude_text_plus ignore_effects : bool)
      (extra_ignore : option (list pystr))
    : result (list kept_clip * list ignored_clip) :=
    match timeline with
    | None => Ok ([], [])
    | Some tl =>
        let extra_ignore := default [] extra_ignore in
        foldM (collect_track_with_ignored tl exclude_text_plus ignore_effects
                 extra_ignore)
              ([], []) (matching_tracks tl track_name)
    end.
End Collect.

(* ================================================================== *)
(** * The subtitle emitter and the pairing engine *)
(* ================================================================== *)

(** One record of the subtitle file:
    [f"{idx}\n{start} --> {end}\n{text}\n\n"]. *)
Definition srt_record (idx : Z) (start end_ text : pystr) : pystr :=
  str_of_int idx ++ [NL] ++ start ++ py " --> " ++ end_ ++ [NL]
    ++ text ++ [NL; NL].

Definition len {A} (l : list A) : Z := Z.of_nat (length l).

Definition warn_truncating (nblocks nclips count : Z) : pystr :=
  py "[warn] blocks=" ++ str_of_int nblocks ++ py " clips="
    ++ str_of_int nclips ++ py " -> truncating to " ++ str_of_int count.

Definition ok_wrote (count : Z) (out_path : pystr) : pystr :=
  py "[ok] wrote " ++ str_of_int count ++ py " entries -> " ++ out_path.

(** ** Plain mode *)
Definition write_srt (blocks : list pystr) (clips : list clip)
    (out_path : pystr) : io unit :=
  let count := Nat.min (length blocks) (length clips) in
  _ ← when (negb (length blocks =? length clips)%nat)
        (print (warn_truncating (len blocks) (len clips) (Z.of_nat count)));
  _ ← open_w out_path;
  _ ← for_each (seq 0 count) (fun i =>
        b ← lift (getitem blocks i);
        c ← lift (getitem clips i);
        start ← lift (_fmt_time (clip_start c));
        end_ ← lift (_fmt_time (clip_end c));
        write out_path (srt_record (Z.of_nat i + 1) start end_ b));
  print (ok_wrote (Z.of_nat count) out_path).

(** ** Mixed mode *)
Inductive kind : Set := text_plus | text.

#[global] Instance kind_eq_dec : EqDecision kind.
Proof. solve_decision. Defined.

(** The dicts of [items] in [write_srt_mixed]. *)
Record mixed_item : Type := {
  mi_start : float;
  mi_end : float;
  mi_kind : kind;
  mi_api_text : option pystr;
  mi_name : pystr
}.

(** Truth value of an optional string: [None] and [''] are false. *)
Definition truthy (v : option pystr) : bool :=
  match v with
  | Some (_ :: _) => true
  | _ => false
  end.

(** The loop [for tid in ('TextPlus','Text')] that pulls the styled text. *)
Definition pull_tool_text (tl : tool) : option pystr :=
  match GetInput_StyledText tl with
  | Returns v => v
  | Throws =>
      match GetData_StyledText tl with
      | Returns v => v
      | Throws => None
      end
  end.

Fixpoint pull_styled_text (comp : fusion_comp) (tids : list pystr)
    (text_plus_value : option pystr) : option pystr :=
  match tids with
  | [] => text_plus_value
  | tid :: tids' =>
      match FindToolByID comp tid with
      | Returns (Some tl) =>
          let v := pull_tool_text tl in
          if truthy v then v else pull_styled_text comp tids' v
      | Returns None | Throws => pull_styled_text comp tids' text_plus_value
      end
  end.

(** [items.sort(key=lambda d: d['start'])]: a stable sort on the start
    time.  For keys that compare (no NaN) the result of a stable sort is
    unique. *)
Fixpoint insert_by_start (x : mixed_item) (l : list mixed_item)
  : list mixed_item :=
  match l with
  | [] => [x]
  | y :: l' =>
      if flt (mi_start y) (mi_start x) then y :: insert_by_start x l'
      else x :: l
  end.
Definition sort_by_start (l : list mixed_item) : list mixed_item :=
  foldr insert_by_start [] l.

(** The state of the pairing pass: [manual_idx], [used_manual], [entries]. *)
Record pass_state : Type := {
  manual_idx : nat;
  used_manual : nat;
  entries : list (float * float * pystr)
}.

Definition next_manual (manual_blocks : list pystr) (st : pass_state)
  : pystr * nat * nat :=
  if (manual_idx st <? length manual_blocks)%nat then
    (strip (default [] (manual_blocks !! manual_idx st)),
     S (manual_idx st), S (used_manual st))
  else ([], manual_idx st, used_manual st).

Definition pass_step (manual_blocks : list pystr) (st : pass_state)
    (it : mixed_item) : pass_state :=
  let '(txt, idx, used) :=
    match mi_kind it with
    | text_plus =>
        if truthy (mi_api_text it)
        then (strip (default [] (mi_api_text it)),
              manual_idx st, used_manual st)
        else next_manual manual_blocks st
    | text => next_manual manual_blocks st
    end in
  {| manual_idx := idx; used_manual := used;
     entries := entries st ++ [(mi_start it, mi_end it, txt)] |}.

Definition pairing_pass (manual_blocks : list pystr) (items : list mixed_item)
  : pass_state :=
  foldl (pass_step manual_blocks)
        {| manual_idx := 0; used_manual := 0; entries := [] |} items.

(** [sum(1 for e in entries if not e[2])] *)
Definition missing_count (es : list (float * float * pystr)) : nat :=
  length (filter (fun e => e.2 = []) es).

Definition count_text_plus (items : list mixed_item) : nat :=
  length (filter (fun i => mi_kind i = text_plus) items).

Definition warn_unused (n : Z) : pystr :=
  py "[warn] unused manual blocks: " ++ str_of_int n.
Definition warn_empty (n : Z) : pystr :=
  py "[warn] empty subtitle entries: " ++ str_of_int n.
Definition ok_wrote_mixed (n : Z) (out_path : pystr) (used nblocks ntp : Z)
  : pystr :=
  py "[ok] wrote " ++ str_of_int n ++ py " entries -> " ++ out_path
    ++ py " (manual_used=" ++ str_of_int used ++ py "/" ++ str_of_int nblocks
    ++ py " text_plus=" ++ str_of_int ntp ++ py ")".

(** Lines 156-188: sorting, the pairing pass, the warnings and the file. *)
Definition emit_mixed (manual_blocks : list pystr) (items : list mixed_item)
    (out_path : pystr) : io unit :=
  let items := sort_by_start items in
  let st := pairing_pass manual_blocks items in
  _ ← when (manual_idx st <? length manual_blocks)%nat
        (print (warn_unused (len manual_blocks - Z.of_nat (manual_idx st))));
  let missing_plain := missing_count (entries st) in
  _ ← when (negb (missing_plain =? 0)%nat)
        (print (warn_empty (Z.of_nat missing_plain)));
  _ ← open_w out_path;
  _ ← for_each (imap (fun i e => (Z.of_nat i + 1, e)) (entries st))
        (fun '(idx, (s, e, txt)) =>
           fs ← lift (_fmt_time s);
           fe ← lift (_fmt_time e);
           write out_path (srt_record idx fs fe txt));
  print (ok_wrote_mixed (len (entries st)) out_path
           (Z.of_nat (used_manual st)) (len manual_blocks)
           (Z.of_nat (count_text_plus items))).

Section Mixed.
Variable lower : pystr -> pystr.

  (** Lines 116-155: one timeline item becomes at most one of [items]. *)
Definition gather_item (fps : float) (include_text_plus ignore_effects : bool)
      (extra_ignore : list pystr) (items : list mixed_item) (it : item)
    : result (list mixed_item) :=
    start ← frames_div (GetStart it) fps;
    end_ ← frames_div (GetEnd it) fps;
    let dur := fsub end_ start in
    let fusion_comp := try_fusion_comp it in
    let nm := try_name it in
    if _should_ignore lower nm dur ignore_effects extra_ignore then Ok items
    else
      match fusion_comp with
      | Some comp =>
          if negb include_text_plus then Ok items
          else
            let text_plus_value :=
              pull_styled_text comp [py "TextPlus"; py "Text"] None in
            Ok (items ++ [{| mi_start := start; mi_end := end_;
                             mi_kind := text_plus;
                             mi_api_text := text_plus_value;
                             mi_name := nm |}])
      | None =>
          Ok (items ++ [{| mi_start := start; mi_end := end_;
                           mi_kind := text; mi_api_text := None;
                           mi_name := nm |}])
      end.

Definition gather_items (tl : timeline_t) (track_name : pystr)
      (include_text_plus ignore_effects : bool) (extra_ignore : list pystr)
    : result (list mixed_item) :=
    fps ← get_fps tl;
    foldM (fun items tr =>
             foldM (gather_item fps include_text_plus ignore_effects
                      extra_ignore) items (items_or_empty tr))
          [] (matching_tracks tl track_name).

Definition write_srt_mixed (timeline : option timeline_t)
      (manual_blocks : list pystr) (track_name out_path : pystr)
      (include_text_plus ignore_effects : bool)
      (extra_ignore : option (list pystr)) : io unit :=
    match timeline with
    | None => print (py "[error] no timeline")
    | Some tl =>
        let extra_ignore := default [] extra_ignore in
        items ← lift (gather_items tl track_name include_text_plus
                        ignore_effects extra_ignore);
        emit_mixed manual_blocks items out_path
    end.
End Mixed.

(* ================================================================== *)
(** * Properties of the ignore heuristic *)
(* ================================================================== *)

Lemma any_pattern_true lname patterns :
  any_pattern lname patterns = true <->
  exists p, p ∈ patterns /\ p <> [] /\ contains lname p = true.
Proof.
  induction patterns as [|q qs IH]; simpl.
  - split; [discriminate|]. intros (p & Hp & _). inversion Hp.
  - destruct (negb (is_empty q) && contains lname q) eqn:E.
    + split; [intros _|done].
      apply andb_true_iff in E as [E1 E2].
      exists q. split; [left|]. split; [|done].
      intros ->. discriminate.
    + rewrite IH. split.
      * intros (p & Hp & Hne & Hc). exists p. split; [by right|done].
      * intros (p & Hp & Hne & Hc).
        apply elem_of_cons in Hp as [->|Hp]; [|by exists p].
        destruct q; [done|]. simpl in E. congruence.
Qed.

Lemma should_ignore_disabled lower name duration extra :
  _should_ignore lower name duration false extra = false.
Proof. reflexivity. Qed.

Lemma should_ignore_enabled lower name duration extra :
  _should_ignore lower name duration true extra =
    any_pattern (lower name)
      ((lower <$> DEFAULT_IGNORE_NAMES) ++ (lower <$> extra))
    || (fle duration (float_lit 6 1)
        && (distinct_chars (lower name) <? 6)%nat).
Proof.
  unfold _should_ignore. simpl negb. cbv iota.
  destruct (any_pattern _ _); [done|].
  destruct (fle _ _); [|done].
  by destruct (_ <? _)%nat.
Qed.

Lemma lower_ascii_nonempty s : lower_ascii s = [] -> s = [].
Proof. by destruct s. Qed.

(** C4 (as amended).  With the heuristic enabled and no pattern matching
    the name, an element is ignored if and only if its duration is at
    most 0.6 seconds and its lowercased name has fewer than 6 distinct
    characters.  At duration 0.5 the names "AAAAAA" and "AAAAA" both have
    one distinct character and are ignored; "ABCDEF" has six and is
    kept. *)
Theorem C4_short_duration_rule
    (lower : pystr -> pystr) (name : pystr) (duration : float)
    (extra : list pystr)
    (Hnomatch : any_pattern (lower name)
                  ((lower <$> DEFAULT_IGNORE_NAMES) ++ (lower <$> extra))
                = false) :
  (_should_ignore lower name duration true extra = true <->
     fle duration (float_lit 6 1) = true
     /\ (distinct_chars (lower name) < 6)%nat)
  /\ (distinct_chars (lower_ascii (py "AAAAAA")) = 1%nat
      /\ _should_ignore lower_ascii (py "AAAAAA") (float_lit 5 1) true [] = true)
  /\ (distinct_chars (lower_ascii (py "AAAAA")) = 1%nat
      /\ _should_ignore lower_ascii (py "AAAAA") (float_lit 5 1) true [] = true)
  /\ (distinct_chars (lower_ascii (py "ABCDEF")) = 6%nat
      /\ _should_ignore lower_ascii (py "ABCDEF") (float_lit 5 1) true [] = false).
Proof.
  split; [|by vm_compute].
  rewrite should_ignore_enabled, Hnomatch. simpl orb.
  rewrite andb_true_iff, Nat.ltb_lt. done.
Qed.

Lemma C4_short_duration_rule_witness :
  _should_ignore lower_ascii (py "Title") (float_lit 5 1) true [] = true <->
    fle (float_lit 5 1) (float_lit 6 1) = true
    /\ (distinct_chars (lower_ascii (py "Title")) < 6)%nat.
Proof.
  exact (proj1 (C4_short_duration_rule lower_ascii (py "Title")
                  (float_lit 5 1) [] eq_refl)).
Defined.

(** C4 (as stated) fails: the element of duration 0.5 s named "AAAAAA"
    is not kept. *)
Lemma C4_counterexample :
  any_pattern (lower_ascii (py "AAAAAA"))
    ((lower_ascii <$> DEFAULT_IGNORE_NAMES) ++ (lower_ascii <$> [])) = false
  /\ _should_ignore lower_ascii (py "AAAAAA") (float_lit 5 1) true [] <> false.
Proof. split; [by vm_compute|]. by vm_compute. Qed.

(** C6 (as amended).  With the heuristic enabled, an element whose
    lowercased name contains the lowercase of a non-empty built-in or
    caller-supplied pattern is ignored whatever its duration; "Cross
    Dissolve" is ignored for every duration and every list of extra
    patterns.  With the heuristic disabled nothing is ignored. *)
Theorem C6_pattern_rule
    (lower : pystr -> pystr) (name : pystr) (duration : float)
    (extra : list pystr) (p : pystr)
    (Hlower : forall s, lower s = [] -> s = [])
    (Hin : p ∈ DEFAULT_IGNORE_NAMES ++ extra)
    (Hne : p <> [])
    (Hcontains : contains (lower name) (lower p) = true) :
  _should_ignore lower name duration true extra = true
  /\ (forall d extra',
        _should_ignore lower_ascii (py "Cross Dissolve") d true extra' = true)
  /\ (forall name' d extra',
        _should_ignore lower name' d false extra' = false).
Proof.
  split; [|split].
  - rewrite should_ignore_enabled.
    apply orb_true_iff. left. apply any_pattern_true.
    exists (lower p). split; [|split].
    + rewrite <- fmap_app. by apply list_elem_of_fmap_2.
    + intros E. by apply Hne, Hlower.
    + done.
  - intros d extra'. rewrite should_ignore_enabled.
    apply orb_true_iff. left. apply any_pattern_true.
    exists (lower_ascii (py "Dissolve")). split; [|split].
    + apply elem_of_app. left. by vm_compute; repeat constructor.
    + by vm_compute.
    + by vm_compute.
  - intros. apply should_ignore_disabled.
Qed.

Lemma C6_pattern_rule_witness :
  _should_ignore lower_ascii (py "my FADE out") (float_const 100) true
    [py "Fade"] = true.
Proof.
  refine (proj1 (C6_pattern_rule lower_ascii (py "my FADE out")
                   (float_const 100) [py "Fade"] (py "Fade")
                   lower_ascii_nonempty _ _ eq_refl)).
  - apply elem_of_app. right. apply list_elem_of_singleton. reflexivity.
  - discriminate.
Defined.

(** C6 (as stated) fails for the empty pattern: every name contains it,
    and the loop skips it. *)
Lemma C6_counterexample :
  py "" ∈ DEFAULT_IGNORE_NAMES ++ [py ""]
  /\ contains (lower_ascii (py "Subtitle one")) (lower_ascii (py "")) = true
  /\ _should_ignore lower_ascii (py "Subtitle one") (float_const 5) true
       [py ""] = false.
Proof.
  split; [|by vm_compute].
  apply elem_of_app. right. by apply list_elem_of_singleton.
Qed.

(* ================================================================== *)
(** * Properties of the element filter *)
(* ================================================================== *)

Definition raw_of (timeline : option timeline_t) (track_name : pystr)
  : list item :=
  match timeline with
  | None => []
  | Some tl => raw_items tl track_name
  end.

Section FilterStable.
Variable lower : pystr -> pystr.

  (** A loop whose body only appends elements drawn from the element it
      visits yields a subsequence of what it visits. *)
Lemma foldM_appends {A S} (proj : S -> list item) (f : A -> list item)
      (body : S -> A -> result S) :
    (forall acc x acc', body acc x = Ok acc' ->
       exists ys, proj acc' = proj acc ++ ys /\ sublist ys (f x)) ->
    forall l acc acc', foldM body acc l = Ok acc' ->
      exists ys, proj acc' = proj acc ++ ys /\ sublist ys (l ≫= f).
  Proof.
    intros Hbody. induction l as [|x l IH]; intros acc acc' H; simpl in H.
    - injection H as <-. exists []. by rewrite app_nil_r.
    - destruct (body acc x) as [acc1|] eqn:E; [|discriminate].
      simpl in H. destruct (Hbody _ _ _ E) as (ys1 & E1 & S1).
      destruct (IH _ _ H) as (ys2 & E2 & S2).
      exists (ys1 ++ ys2). split.
      + by rewrite E2, E1, app_assoc.
      + simpl. by apply sublist_app.
  Qed.

Lemma collect_item_appends fps ex ig extra res it res' :
    collect_item lower fps ex ig extra res it = Ok res' ->
    exists ys, clip_item <$> res' = (clip_item <$> res) ++ ys
               /\ sublist ys [it].
  Proof.
    unfold collect_item. intros H.
    destruct (ex && _).
    { injection H as <-. exists []. rewrite app_nil_r. split; [done|].
      apply sublist_nil_l. }
    destruct (frames_div (GetStart it) fps) as [s|]; [|discriminate].
    destruct (frames_div (GetEnd it) fps) as [e|]; [|discriminate].
    simpl in H. destruct (_should_ignore _ _ _ _ _); injection H as <-.
    - exists []. rewrite app_nil_r. split; [done|]. apply sublist_nil_l.
    - exists [it]. by rewrite fmap_app.
  Qed.

Lemma collect_item_with_ignored_appends fps ex ig extra st it st' :
    collect_item_with_ignored lower fps ex ig extra st it = Ok st' ->
    exists ys, kept_item <$> st'.1 = (kept_item <$> st.1) ++ ys
               /\ sublist ys [it].
  Proof.
    unfold collect_item_with_ignored. destruct st as [kept ign]. intros H.
    destruct (frames_div (GetStart it) fps) as [s|];
      [|by destruct (ex && _)].
    destruct (frames_div (GetEnd it) fps) as [e|];
      [|by destruct (ex && _)].
    simpl in H.
    destruct (ex && _).
    { injection H as <-. exists []. rewrite app_nil_r. split; [done|].
      apply sublist_nil_l. }
    destruct (_should_ignore _ _ _ _ _); injection H as <-; simpl.
    - exists []. rewrite app_nil_r. split; [done|]. apply sublist_nil_l.
    - exists [it]. by rewrite fmap_app.
  Qed.

Lemma bind_singleton (l : list item) : l ≫= (fun x => [x]) = l.
  Proof. induction l as [|x l IH]; [done|]. simpl. by f_equal. Qed.

Lemma collect_clips_sublist timeline track_name ex ig extra kept :
    collect_clips lower timeline track_name ex ig extra = Ok kept ->
    sublist (clip_item <$> kept) (raw_of timeline track_name).
  Proof.
    destruct timeline as [tl|]; simpl; [|intros [= <-]; constructor].
    intros H.
    apply (foldM_appends (fmap clip_item) items_or_empty) in H
      as (ys & E & S); [by rewrite E|].
    clear. intros acc tr acc' H. unfold collect_track in H.
    destruct (get_fps tl) as [fps|]; [|discriminate]. simpl in H.
    apply (foldM_appends (fmap clip_item) (fun x => [x])) in H
      as (ys & E & S).
    - exists ys. by rewrite bind_singleton in S.
    - intros. by eapply collect_item_appends.
  Qed.

Lemma collect_clips_with_ignored_sublist timeline track_name ex ig extra
      kept ignored :
    collect_clips_with_ignored lower timeline track_name ex ig extra
      = Ok (kept, ignored) ->
    sublist (kept_item <$> kept) (raw_of timeline track_name).
  Proof.
    destruct timeline as [tl|]; simpl; [|intros [= <- <-]; constructor].
    intros H.
    apply (foldM_appends (fun st => kept_item <$> st.1) items_or_empty) in H
      as (ys & E & S); [by simpl in E; rewrite E|].
    clear. intros acc tr acc' H. unfold collect_track_with_ignored in H.
    destruct (get_fps tl) as [fps|]; [|discriminate]. simpl in H.
    apply (foldM_appends (fun st => kept_item <$> st.1) (fun x => [x])) in H
      as (ys & E & S).
    - exists ys. by rewrite bind_singleton in S.
    - intros. by eapply collect_item_with_ignored_appends.
  Qed.

  (** C8.  The kept list of [collect_clips] and of
      [collect_clips_with_ignored] is a subsequence of the raw items of the
      track, in their original relative order. *)
Theorem C8_filter_order_stable
      (timeline : option timeline_t) (track_name : pystr)
      (exclude_text_plus ignore_effects : bool)
      (extra_ignore : option (list pystr)) :
    (forall kept,
       collect_clips lower timeline track_name exclude_text_plus
         ignore_effects extra_ignore = Ok kept ->
       sublist (clip_item <$> kept) (raw_of timeline track_name))
    /\ (forall kept ignored,
          collect_clips_with_ignored lower timeline track_name
            exclude_text_plus ignore_effects extra_ignore
            = Ok (kept, ignored) ->
          sublist (kept_item <$> kept) (raw_of timeline track_name)).
  Proof.
    split; intros.
    - by eapply collect_clips_sublist.
    - by eapply collect_clips_with_ignored_sublist.
  Qed.
End FilterStable.

(** A timeline with a second track named like the first: a plain title, a
    transition, a Text+ item and, on the later track, an unnamed title. *)
Definition demo_title : item :=
  {| GetStart := 0; GetEnd := 48; GetName := Returns (Some (py "Title one"));
     GetFusionCompByIndex := Returns None |}.
Definition demo_dissolve : item :=
  {| GetStart := 48; GetEnd := 60;
     GetName := Returns (Some (py "Cross Dissolve"));
     GetFusionCompByIndex := Returns None |}.
Definition demo_text_plus : item :=
  {| GetStart := 60; GetEnd := 120; GetName := Returns (Some (py "Text+"));
     GetFusionCompByIndex :=
       Returns (Some {| FindToolByID := fun _ => Returns None |}) |}.
Definition demo_unnamed : item :=
  {| GetStart := 120; GetEnd := 240; GetName := Throws;
     GetFusionCompByIndex := Throws |}.
Definition demo_timeline : timeline_t :=
  {| video_tracks :=
       [ {| GetTrackName := py "Video 1"; GetItemListInTrack := Some [demo_title] |};
         {| GetTrackName := py "Subs";
            GetItemListInTrack := Some [demo_title; demo_dissolve; demo_text_plus] |};
         {| GetTrackName := py "Subs"; GetItemListInTrack := None |};
         {| GetTrackName := py "Subs"; GetItemListInTrack := Some [demo_unnamed] |} ];
     timelineFrameRate := Some (float_const 24) |}.

Lemma C8_filter_order_stable_witness :
  sublist [demo_title; demo_unnamed]
          [demo_title; demo_dissolve; demo_text_plus; demo_unnamed].
Proof.
  exact (proj1 (C8_filter_order_stable lower_ascii (Some demo_timeline)
                  (py "Subs") true true None)
           [ {| clip_item := demo_title; clip_start := S754_zero false;
                clip_end := float_const 2; clip_name := py "Title one" |};
             {| clip_item := demo_unnamed; clip_start := float_const 5;
                clip_end := float_const 10; clip_name := [] |} ]
           eq_refl).
Defined.

(* ================================================================== *)
(** * Properties of the manual block parser *)
(* ================================================================== *)

(** A line that starts a block, and one that does not. *)
Definition delimiter (raw : pystr) : Prop := startswith (rstrip_nl raw) [GT] = true.
Definition plain_line (raw : pystr) : Prop := startswith (rstrip_nl raw) [GT] = false.

Definition non_empty (blocks : list pystr) : list pystr :=
  filter (fun b => b <> []) blocks.

Definition finish (st : list pystr * list pystr) : list pystr :=
  non_empty (flush st.1 st.2).

Lemma parse_lines_finish lines :
  parse_lines lines = finish (foldl parse_step ([], []) lines).
Proof. unfold parse_lines, finish. by destruct (foldl _ _ _). Qed.

Lemma flush_app blocks blocks' cur :
  flush (blocks ++ blocks') cur = blocks ++ flush blocks' cur.
Proof. unfold flush. destruct (is_empty cur); [done|]. by rewrite app_assoc. Qed.

Lemma parse_step_app blocks cur raw :
  parse_step (blocks, cur) raw =
    (blocks ++ (parse_step ([], cur) raw).1, (parse_step ([], cur) raw).2).
Proof.
  unfold parse_step. destruct (startswith _ _); simpl.
  - by rewrite <- flush_app, app_nil_r.
  - destruct (is_empty cur); simpl; by rewrite app_nil_r.
Qed.

Lemma run_app lines : forall blocks cur,
  foldl parse_step (blocks, cur) lines =
    (blocks ++ (foldl parse_step ([], cur) lines).1,
     (foldl parse_step ([], cur) lines).2).
Proof.
  induction lines as [|raw lines IH]; intros blocks cur; cbn [foldl].
  - simpl. by rewrite app_nil_r.
  - rewrite parse_step_app.
    destruct (parse_step ([], cur) raw) as [b1 c1]; simpl.
    rewrite (IH (blocks ++ b1)), (IH b1). simpl. by rewrite app_assoc.
Qed.

Lemma finish_run_app blocks cur lines :
  finish (foldl parse_step (blocks, cur) lines) =
    non_empty blocks ++ finish (foldl parse_step ([], cur) lines).
Proof.
  rewrite run_app. unfold finish, non_empty. simpl.
  by rewrite flush_app, filter_app.
Qed.

Lemma run_stray pre : Forall plain_line pre ->
  foldl parse_step ([], []) pre = ([], []).
Proof.
  induction 1 as [|raw pre Hraw _ IH]; [done|]. cbn [foldl].
  unfold parse_step at 2. unfold plain_line in Hraw. by rewrite Hraw.
Qed.

Lemma run_continuation cs : forall cur, Forall plain_line cs -> cur <> [] ->
  foldl parse_step ([], cur) cs = ([], cur ++ (rstrip_nl <$> cs)).
Proof.
  induction cs as [|raw cs IH]; intros cur Hcs Hcur; cbn [foldl fmap list_fmap].
  - by rewrite app_nil_r.
  - apply Forall_cons in Hcs as [Hraw Hcs].
    unfold parse_step at 2. unfold plain_line in Hraw. rewrite Hraw.
    destruct cur as [|c0 cur]; [done|]. simpl is_empty. cbv iota.
    rewrite IH; [|done|by destruct cur]. by rewrite <- app_assoc.
Qed.

Lemma parse_lines_delimiter h rest : delimiter h ->
  parse_lines (h :: rest) =
    finish (foldl parse_step ([], [lstrip (drop 1 (rstrip_nl h))]) rest).
Proof.
  intros Hh. rewrite parse_lines_finish. cbn [foldl].
  unfold parse_step at 2. unfold delimiter in Hh. by rewrite Hh.
Qed.

Lemma parse_lines_block h cs rest :
  delimiter h -> Forall plain_line cs ->
  (rest = [] \/ exists h2 rest', rest = h2 :: rest' /\ delimiter h2) ->
  parse_lines (h :: cs ++ rest) =
    non_empty [strip (join [NL] (lstrip (drop 1 (rstrip_nl h))
                                   :: (rstrip_nl <$> cs)))]
    ++ parse_lines rest.
Proof.
  intros Hh Hcs Hrest. rewrite parse_lines_delimiter by done.
  rewrite foldl_app, run_continuation by done.
  destruct Hrest as [->|(h2 & rest' & -> & Hh2)].
  - cbn [foldl]. by rewrite app_nil_r.
  - rewrite parse_lines_delimiter by done. cbn [foldl].
    unfold parse_step at 2. unfold delimiter in Hh2. rewrite Hh2.
    by rewrite finish_run_app.
Qed.

Lemma parse_lines_stray pre rest : Forall plain_line pre ->
  parse_lines (pre ++ rest) = parse_lines rest.
Proof.
  intros Hpre. rewrite !parse_lines_finish, foldl_app.
  by rewrite run_stray.
Qed.

(** The bytes of a file whose lines are [ls], separated by line feeds. *)
Fixpoint file_bytes (ls : list string) : list byte :=
  match ls with
  | [] => []
  | [l] => list_byte_of_string l
  | l :: ls' => list_byte_of_string l ++ [x0a] ++ file_bytes ls'
  end.

Definition one_file (name : string) (bytes : list byte) : filesystem :=
  fun p => if bool_decide (p = py name) then Some bytes else None.






(* ================================================================== *)
(** * Properties of plain-mode pairing *)
(* ================================================================== *)

(** The timecode of a time that [_fmt_time] accepts. *)
Definition timecode (sec : float) : pystr :=
  match _fmt_time sec with
  | Ok s => s
  | Raise _ => []
  end.

Definition formattable (sec : float) : Prop := is_Ok (_fmt_time sec) = true.

(** Record number [i] (from 0) of plain mode, for the block and clip
    paired at that position. *)
Definition plain_record (i : nat) (bc : pystr * clip) : pystr :=
  srt_record (Z.of_nat i + 1) (timecode (clip_start bc.2))
             (timecode (clip_end bc.2)) bc.1.

Lemma fmt_time_timecode sec : formattable sec -> _fmt_time sec = Ok (timecode sec).
Proof. unfold formattable, timecode. by destruct (_fmt_time sec). Qed.

Section PlainLoop.
Variables (blocks : list pystr) (clips : list clip) (out_path : pystr).

Definition plain_body (i : nat) : io unit :=
    b ← lift (getitem blocks i);
    c ← lift (getitem clips i);
    start ← lift (_fmt_time (clip_start c));
    end_ ← lift (_fmt_time (clip_end c));
    write out_path (srt_record (Z.of_nat i + 1) start end_ b).

Lemma plain_body_ok i b c w :
    blocks !! i = Some b -> clips !! i = Some c ->
    formattable (clip_start c) -> formattable (clip_end c) ->
    plain_body i w =
      Ok (tt, {| stdout := stdout w;
                 written := fun p =>
                   if bool_decide (p = out_path)
                   then Some (default [] (written w p) ++ plain_record i (b, c))
                   else written w p |}).
  Proof.
    intros Hb Hc Hs He. unfold plain_body, getitem, mbind, io_bind, lift.
    rewrite Hb, Hc, (fmt_time_timecode _ Hs), (fmt_time_timecode _ He).
    reflexivity.
  Qed.

Lemma plain_loop_ok (pairs : list (pystr * clip)) : forall k w acc,
    (forall j bc, pairs !! j = Some bc ->
       blocks !! (k + j)%nat = Some bc.1 /\ clips !! (k + j)%nat = Some bc.2
       /\ formattable (clip_start bc.2) /\ formattable (clip_end bc.2)) ->
    written w out_path = Some acc ->
    exists w',
      for_each (seq k (length pairs)) plain_body w = Ok (tt, w')
      /\ stdout w' = stdout w
      /\ (forall p, p <> out_path -> written w' p = written w p)
      /\ written w' out_path =
           Some (acc ++ mjoin (imap (fun j => plain_record (k + j)) pairs)).
  Proof.
    induction pairs as [|[b c] pairs IH]; intros k w acc Hp Hw.
    - exists w. simpl. by rewrite app_nil_r.
    - destruct (Hp 0%nat (b, c) eq_refl) as (Hb & Hc & Hs & He).
      rewrite Nat.add_0_r in Hb, Hc. simpl in Hb, Hc, Hs, He.
      cbn [length seq for_each]. unfold mbind at 1, io_bind at 1.
      rewrite (plain_body_ok _ _ _ _ Hb Hc Hs He).
      edestruct (IH (S k)) as (w' & Hrun & Hout & Hoth & Hfile); cycle 2.
      + exists w'. split; [exact Hrun|]. split; [by rewrite Hout|].
        split.
        * intros p Hne. rewrite (Hoth p Hne). simpl.
          by rewrite bool_decide_eq_false_2.
        * rewrite Hfile. f_equal. simpl.
          rewrite Nat.add_0_r, <- app_assoc. do 3 f_equal.
          apply imap_ext. intros j x _. simpl. f_equal. lia.
      + intros j bc Hj.
        replace (S k + j)%nat with (k + S j)%nat by lia. by apply (Hp (S j)).
      + simpl. rewrite bool_decide_eq_true_2 by done. by rewrite Hw.
  Qed.
End PlainLoop.


Definition empty_world : world := {| stdout := []; written := fun _ => None |}.

Definition demo_clip (it : item) (start end_ : float) : clip :=
  {| clip_item := it; clip_start := start; clip_end := end_; clip_name := [] |}.

Definition demo_clips : list clip :=
  [ demo_clip demo_title (float_const 0) (float_const 2);
    demo_clip demo_unnamed (float_const 2) (float_const 5);
    demo_clip demo_unnamed (float_const 5) (float_lit 55 1) ].

Definition demo_blocks : list pystr :=
  [py "one"; py "two"; py "three"; py "four"; py "five"].


(* ================================================================== *)
(** * Properties of mixed-mode pairing *)
(* ================================================================== *)

(** An element that takes its text from the manual blocks: a plain Text
    clip, or a Text+ clip whose retrieved text is absent or empty. *)
Definition consumes (it : mixed_item) : bool :=
  match mi_kind it with
  | text_plus => negb (truthy (mi_api_text it))
  | text => true
  end.

(** The text and the cursor that one step of the pass produces. *)
Definition step_text (blocks : list pystr) (cur : nat) (it : mixed_item)
  : pystr :=
  if consumes it then
    match blocks !! cur with
    | Some b => strip b
    | None => []
    end
  else strip (default [] (mi_api_text it)).

Definition step_cursor (blocks : list pystr) (cur : nat) (it : mixed_item)
  : nat :=
  if consumes it then
    match blocks !! cur with
    | Some _ => S cur
    | None => cur
    end
  else cur.

(** The pass from a given cursor, without the accumulator. *)
Fixpoint pass_from (blocks : list pystr) (cur : nat) (items : list mixed_item)
  : nat * list (float * float * pystr) :=
  match items with
  | [] => (cur, [])
  | it :: items' =>
      let r := pass_from blocks (step_cursor blocks cur it) items' in
      (r.1, (mi_start it, mi_end it, step_text blocks cur it) :: r.2)
  end.

Lemma next_manual_spec blocks st :
  next_manual blocks st =
    match blocks !! manual_idx st with
    | Some b => (strip b, S (manual_idx st), S (used_manual st))
    | None => ([], manual_idx st, used_manual st)
    end.
Proof.
  unfold next_manual. destruct (Nat.ltb_spec (manual_idx st) (length blocks)) as [H|H].
  - apply lookup_lt_is_Some_2 in H as [b ->]. done.
  - by rewrite lookup_ge_None_2.
Qed.

Lemma pass_step_spec blocks st it :
  pass_step blocks st it =
    {| manual_idx := step_cursor blocks (manual_idx st) it;
       used_manual := used_manual st
                      + (step_cursor blocks (manual_idx st) it - manual_idx st);
       entries := entries st ++
                  [(mi_start it, mi_end it,
                    step_text blocks (manual_idx st) it)] |}.
Proof.
  unfold pass_step, step_cursor, step_text, consumes.
  destruct (mi_kind it); [destruct (truthy (mi_api_text it))|]; simpl;
    rewrite ?next_manual_spec; try destruct (blocks !! manual_idx st);
    f_equal; lia.
Qed.

Lemma foldl_pass_from blocks items : forall st,
  foldl (pass_step blocks) st items =
    let r := pass_from blocks (manual_idx st) items in
    {| manual_idx := r.1;
       used_manual := used_manual st + (r.1 - manual_idx st);
       entries := entries st ++ r.2 |}.
Proof.
  induction items as [|it items IH]; intros st; cbn [foldl pass_from].
  - destruct st. simpl. f_equal; [lia|by rewrite app_nil_r].
  - rewrite IH, pass_step_spec. cbn. f_equal.
    + assert (manual_idx st <= step_cursor blocks (manual_idx st) it)%nat.
      { unfold step_cursor. destruct (consumes it); [|lia].
        destruct (blocks !! _); lia. }
      assert (Hmono : forall l c, (c <= (pass_from blocks c l).1)%nat).
      { clear. induction l as [|x l IHl]; intros c; simpl; [lia|].
        etrans; [|apply IHl]. unfold step_cursor.
        destruct (consumes x); [|lia]. destruct (blocks !! _); lia. }
      specialize (Hmono items (step_cursor blocks (manual_idx st) it)). lia.
    + by rewrite <- app_assoc.
Qed.

Lemma pairing_pass_spec blocks items :
  pairing_pass blocks items =
    {| manual_idx := (pass_from blocks 0 items).1;
       used_manual := (pass_from blocks 0 items).1;
       entries := (pass_from blocks 0 items).2 |}.
Proof.
  unfold pairing_pass. rewrite foldl_pass_from. simpl. f_equal. lia.
Qed.

Lemma pass_from_app blocks l1 : forall cur l2,
  pass_from blocks cur (l1 ++ l2) =
    ((pass_from blocks (pass_from blocks cur l1).1 l2).1,
     (pass_from blocks cur l1).2 ++
     (pass_from blocks (pass_from blocks cur l1).1 l2).2).
Proof.
  induction l1 as [|x l1 IH]; intros cur l2; simpl.
  - by destruct (pass_from blocks cur l2).
  - by rewrite IH.
Qed.

Lemma pass_from_length blocks items : forall cur,
  length (pass_from blocks cur items).2 = length items.
Proof. induction items as [|x l IH]; intros cur; simpl; [done|]. by rewrite IH. Qed.

Lemma pass_from_cursor blocks items : forall cur, (cur <= length blocks)%nat ->
  (pass_from blocks cur items).1 =
    Nat.min (length blocks) (cur + length (filter (fun it => consumes it = true) items)).
Proof.
  induction items as [|x l IH]; intros cur Hcur; simpl.
  - lia.
  - unfold step_cursor. rewrite filter_cons.
    destruct (consumes x) eqn:E.
    + rewrite decide_True by done. simpl.
      destruct (blocks !! cur) eqn:Eb.
      * apply lookup_lt_Some in Eb. rewrite IH by lia. lia.
      * apply lookup_ge_None in Eb. rewrite IH by lia. lia.
    + rewrite decide_False by done. by rewrite IH.
Qed.

Lemma pass_from_lookup blocks l1 it l2 :
  (pass_from blocks 0 (l1 ++ it :: l2)).2 !! length l1 =
    Some (mi_start it, mi_end it, step_text blocks (pass_from blocks 0 l1).1 it).
Proof.
  rewrite pass_from_app. cbn [fst snd pass_from].
  rewrite lookup_app_r; rewrite pass_from_length; [|lia].
  by rewrite Nat.sub_diag.
Qed.

Lemma insert_by_start_perm x l : insert_by_start x l ≡ₚ x :: l.
Proof.
  induction l as [|y l IH]; simpl; [done|].
  destruct (flt _ _); [|done]. rewrite IH. apply Permutation_swap.
Qed.

Lemma sort_by_start_perm items : sort_by_start items ≡ₚ items.
Proof.
  induction items as [|x l IH]; simpl; [done|].
  by rewrite insert_by_start_perm, IH.
Qed.


Definition demo_mixed (start : Z) (k : kind) (api_text : option pystr)
  : mixed_item :=
  {| mi_start := float_const start; mi_end := float_const (start + 1);
     mi_kind := k; mi_api_text := api_text; mi_name := [] |}.


Lemma lstrip_all_space t :
  Forall (fun c => isspace c = true) t -> lstrip t = [].
Proof.
  unfold lstrip. induction 1 as [|c t Hc _ IH]; simpl; [done|].
  by rewrite Hc.
Qed.

Lemma strip_all_space t :
  Forall (fun c => isspace c = true) t -> strip t = [].
Proof. intros H. unfold strip. by rewrite lstrip_all_space. Qed.

Lemma missing_count_app es1 es2 :
  missing_count (es1 ++ es2) = (missing_count es1 + missing_count es2)%nat.
Proof. unfold missing_count. by rewrite filter_app, length_app. Qed.

Lemma for_each_stdout {A} (body : A -> io unit) (l : list A) :
  (forall x w w', body x w = Ok (tt, w') -> stdout w' = stdout w) ->
  forall w w', for_each l body w = Ok (tt, w') -> stdout w' = stdout w.
Proof.
  intros Hbody. induction l as [|x l IH]; intros w w' H; simpl in H.
  - by injection H as <-.
  - unfold mbind, io_bind in H.
    destruct (body x w) as [[[] w1]|] eqn:E; [|discriminate].
    rewrite (IH _ _ H). exact (Hbody _ _ _ E).
Qed.

Lemma emit_mixed_stdout manual_blocks items out_path w w' :
  emit_mixed manual_blocks items out_path w = Ok (tt, w') ->
  let st := pairing_pass manual_blocks (sort_by_start items) in
  stdout w' =
    stdout w
    ++ (if (manual_idx st <? length manual_blocks)%nat
        then [warn_unused (len manual_blocks - Z.of_nat (manual_idx st))]
        else [])
    ++ (if (missing_count (entries st) =? 0)%nat then []
        else [warn_empty (Z.of_nat (missing_count (entries st)))])
    ++ [ok_wrote_mixed (len (entries st)) out_path
          (Z.of_nat (used_manual st)) (len manual_blocks)
          (Z.of_nat (count_text_plus (sort_by_start items)))].
Proof.
  intros H st. unfold emit_mixed in H. fold st in H.
  unfold mbind at 1 2 3 4, io_bind at 1 2 3 4 in H.
  set (w1 := when (manual_idx st <? length manual_blocks)%nat _ w) in H.
  assert (exists wa, w1 = Ok (tt, wa) /\
            stdout wa = stdout w ++
              (if (manual_idx st <? length manual_blocks)%nat
               then [warn_unused (len manual_blocks - Z.of_nat (manual_idx st))]
               else [])) as (wa & -> & Ha).
  { unfold w1, when. destruct (_ <? _)%nat; eexists; (split; [reflexivity|]);
      simpl; by rewrite ?app_nil_r. }
  set (w2 := when _ _ wa) in H.
  assert (exists wb, w2 = Ok (tt, wb) /\
            stdout wb = stdout wa ++
              (if (missing_count (entries st) =? 0)%nat then []
               else [warn_empty (Z.of_nat (missing_count (entries st)))]))
    as (wb & -> & Hb).
  { unfold w2, when. destruct (_ =? _)%nat; eexists; (split; [reflexivity|]);
      simpl; by rewrite ?app_nil_r. }
  cbn [open_w] in H.
  match type of H with
  | match for_each ?l ?body ?w0 with _ => _ end = _ =>
      destruct (for_each l body w0) as [[[] wc]|] eqn:E; [|discriminate];
      apply (for_each_stdout body l) in E
  end.
  - injection H as <-. simpl. rewrite E. simpl. rewrite Hb, Ha.
    by rewrite <- !app_assoc.
  - intros [idx [[s e] txt]] x0 x1 Hx. unfold mbind, io_bind, lift in Hx.
    destruct (_fmt_time s); [|discriminate].
    destruct (_fmt_time e); [|discriminate].
    by injection Hx as <-.
Qed.



(* ================================================================== *)
(** * Properties of the time formatter: the timecode *)
(* ================================================================== *)

Definition is_digit (c : N) : Prop := (48 <= c <= 57)%N.

(** The number a string of decimal digits denotes. *)
Fixpoint decimal_value (s : pystr) : N :=
  match s with
  | [] => 0
  | c :: s' => ((c - 48) * 10 ^ N.of_nat (length s') + decimal_value s')%N
  end.

(** [a <= b] on strings: lexicographic order on code points. *)
Fixpoint str_le (a b : pystr) : bool :=
  match a, b with
  | [], _ => true
  | _ :: _, [] => false
  | x :: a', y :: b' => (x <? y)%N || ((x =? y)%N && str_le a' b')
  end.

Lemma decimal_value_snoc s c :
  decimal_value (s ++ [c]) = (10 * decimal_value s + (c - 48))%N.
Proof.
  induction s as [|x s IH]; [simpl; lia|].
  cbn [decimal_value app]. rewrite IH, length_app. cbn [length].
  replace (N.of_nat (length s + 1)) with (N.succ (N.of_nat (length s))) by lia.
  rewrite N.pow_succ_r'. lia.
Qed.

Lemma decimal_value_bound s :
  Forall is_digit s -> (decimal_value s < 10 ^ N.of_nat (length s))%N.
Proof.
  induction 1 as [|c s Hc _ IH]; [simpl; lia|].
  cbn [decimal_value length]. rewrite Nat2N.inj_succ, N.pow_succ_r'.
  unfold is_digit in Hc. nia.
Qed.

Lemma digits_fuel_spec f : forall n, (n < 10 ^ N.of_nat (S f))%N ->
  Forall is_digit (digits_fuel f n) /\ decimal_value (digits_fuel f n) = n.
Proof.
  induction f as [|f IH]; intros n Hn.
  - simpl in *. assert (n mod 10 = n)%N as -> by (apply N.mod_small; lia).
    split; [constructor; [unfold is_digit; lia|constructor]|lia].
  - cbn [digits_fuel]. destruct (N.ltb_spec n 10) as [H|H].
    + split; [constructor; [unfold is_digit; lia|constructor]|simpl; lia].
    + destruct (IH (n / 10)%N) as [IH1 IH2].
      { apply N.Div0.div_lt_upper_bound.
        replace (N.of_nat (S (S f))) with (N.succ (N.of_nat (S f))) in Hn by lia.
        by rewrite N.pow_succ_r' in Hn. }
      assert (Hmod : (n mod 10 < 10)%N) by (apply N.mod_lt; lia).
      pose proof (N.div_mod n 10 ltac:(lia)) as Hdm.
      rewrite decimal_value_snoc, IH2. split.
      * apply Forall_app. split; [done|].
        constructor; [|constructor]. unfold is_digit.
        revert Hmod. generalize (n mod 10)%N. lia.
      * revert Hmod Hdm. generalize (n mod 10)%N (n / 10)%N. lia.
Qed.

Lemma digits_fuel_length f : forall n k, (n < 10 ^ N.of_nat (S k))%N ->
  (1 <= length (digits_fuel f n) <= S k)%nat.
Proof.
  induction f as [|f IH]; intros n k Hn; [simpl; lia|].
  cbn [digits_fuel]. destruct (N.ltb_spec n 10) as [H|H]; [simpl; lia|].
  rewrite length_app. simpl. destruct k as [|k]; [simpl in Hn; lia|].
  destruct (IH (n / 10)%N k); [|lia].
  apply N.Div0.div_lt_upper_bound.
  replace (N.of_nat (S (S k))) with (N.succ (N.of_nat (S k))) in Hn by lia.
  by rewrite N.pow_succ_r' in Hn.
Qed.

Lemma digits_fuel_enough n : (n < 10 ^ N.of_nat (S (N.to_nat (N.log2 n))))%N.
Proof.
  replace (N.of_nat (S (N.to_nat (N.log2 n)))) with (N.succ (N.log2 n)) by lia.
  destruct (N.eq_dec n 0%N) as [->|Hn]; [simpl; lia|].
  pose proof (N.log2_spec n ltac:(lia)) as [_ H].
  eapply N.lt_le_trans; [exact H|].
  apply N.pow_le_mono_l. lia.
Qed.

Lemma digits_spec n :
  Forall is_digit (digits n) /\ decimal_value (digits n) = n.
Proof. apply digits_fuel_spec, digits_fuel_enough. Qed.

Lemma digits_length n k : (n < 10 ^ N.of_nat (S k))%N ->
  (1 <= length (digits n) <= S k)%nat.
Proof. apply digits_fuel_length. Qed.

Lemma decimal_value_zeros k s :
  decimal_value (replicate k ZERO ++ s) = decimal_value s.
Proof. induction k as [|k IH]; simpl; [done|]. rewrite IH. unfold ZERO. lia. Qed.

Lemma zfill_spec w n :
  let s := zfill w (digits n) in
  Forall is_digit s /\ decimal_value s = n
  /\ length s = Nat.max w (length (digits n)).
Proof.
  destruct (digits_spec n) as [Hd Hv]. unfold zfill. split; [|split].
  - apply Forall_app. split; [|done].
    apply Forall_replicate. unfold is_digit, ZERO. lia.
  - by rewrite decimal_value_zeros.
  - rewrite length_app, length_replicate. lia.
Qed.

Lemma format_0d_spec w z : 0 <= z ->
  let s := format_0d w z in
  Forall is_digit s /\ Z.of_N (decimal_value s) = z
  /\ (w <= length s)%nat
  /\ (z < 10 ^ Z.of_nat w -> (0 < w)%nat -> length s = w).
Proof.
  intros Hz. unfold format_0d.
  destruct (Z.ltb_spec z 0) as [?|_]; [lia|].
  destruct (zfill_spec w (Z.abs_N z)) as (H1 & H2 & H3).
  split; [done|]. split; [rewrite H2; lia|]. split; [lia|].
  intros Hlt Hw. rewrite H3. destruct w as [|k]; [lia|].
  destruct (digits_length (Z.abs_N z) k); [|lia].
  apply N2Z.inj_lt. rewrite N2Z.inj_pow, N2Z.inj_abs_N, nat_N_Z. simpl Z.of_N. lia.
Qed.

Lemma str_le_digits a : forall b r1 r2,
  Forall is_digit a -> Forall is_digit b -> length a = length b ->
  (decimal_value a <= decimal_value b)%N ->
  (decimal_value a = decimal_value b -> str_le r1 r2 = true) ->
  str_le (a ++ r1) (b ++ r2) = true.
Proof.
  induction a as [|x a IH]; intros [|y b] r1 r2 Ha Hb Hlen Hle Hr;
    try discriminate.
  - by apply Hr.
  - apply Forall_cons in Ha as [Hx Ha]. apply Forall_cons in Hb as [Hy Hb].
    injection Hlen as Hlen. cbn [decimal_value] in Hle, Hr.
    rewrite Hlen in Hle, Hr.
    pose proof (decimal_value_bound a Ha) as Ba.
    pose proof (decimal_value_bound b Hb) as Bb.
    rewrite Hlen in Ba. unfold is_digit in Hx, Hy.
    revert Hle Hr Ba Bb. generalize (10 ^ N.of_nat (length b))%N.
    intros P Hle Hr Ba Bb.
    cbn [app str_le]. destruct (N.ltb_spec x y) as [?|Hxy]; [done|]. simpl.
    assert (x = y) as -> by nia.
    rewrite N.eqb_refl. simpl. apply IH; try done; [nia|].
    intros E. apply Hr. by rewrite E.
Qed.

(** The fields of a timecode: decimal digits, the hours on two characters
    or more, the minutes and seconds on two, the milliseconds on three,
    with the values the integer divisions give. *)
Definition timecode_fields (total_ms : Z) (H M S MS : pystr) : Prop :=
  (Forall is_digit H /\ Forall is_digit M /\ Forall is_digit S
   /\ Forall is_digit MS)
  /\ ((2 <= length H)%nat /\ length M = 2%nat /\ length S = 2%nat
      /\ length MS = 3%nat)
  /\ Z.of_N (decimal_value H) = total_ms / 3600000
  /\ Z.of_N (decimal_value M) = (total_ms / 60000) mod 60
  /\ Z.of_N (decimal_value S) = (total_ms / 1000) mod 60
  /\ Z.of_N (decimal_value MS) = total_ms mod 1000.

Lemma fmt_ms_fields total_ms : 0 <= total_ms ->
  timecode_fields total_ms
    (format_0d 2 (total_ms / 3600000))
    (format_0d 2 ((total_ms / 60000) mod 60))
    (format_0d 2 ((total_ms / 1000) mod 60))
    (format_0d 3 (total_ms mod 1000)).
Proof.
  intros Hnn.
  assert (H1 : 0 <= total_ms / 3600000) by (apply Z.div_pos; lia).
  pose proof (Z.mod_pos_bound (total_ms / 60000) 60 ltac:(lia)) as H2.
  pose proof (Z.mod_pos_bound (total_ms / 1000) 60 ltac:(lia)) as H3.
  pose proof (Z.mod_pos_bound total_ms 1000 ltac:(lia)) as H4.
  destruct (format_0d_spec 2 _ H1) as (A1 & A2 & A3 & _).
  destruct (format_0d_spec 2 _ (proj1 H2)) as (B1 & B2 & _ & B3).
  destruct (format_0d_spec 2 _ (proj1 H3)) as (C1 & C2 & _ & C3).
  destruct (format_0d_spec 3 _ (proj1 H4)) as (D1 & D2 & _ & D3).
  specialize (B3 ltac:(simpl; lia) ltac:(lia)).
  specialize (C3 ltac:(simpl; lia) ltac:(lia)).
  specialize (D3 ltac:(simpl; lia) ltac:(lia)).
  by repeat split.
Qed.

Lemma fmt_ms_mono t1 t2 :
  0 <= t1 <= t2 -> length (fmt_ms t1) = length (fmt_ms t2) ->
  str_le (fmt_ms t1) (fmt_ms t2) = true.
Proof.
  intros Ht Hlen.
  destruct (fmt_ms_fields t1 ltac:(lia))
    as ((A1 & A2 & A3 & A4) & (_ & L2 & L3 & L4) & V1 & V2 & V3 & V4).
  destruct (fmt_ms_fields t2 ltac:(lia))
    as ((B1 & B2 & B3 & B4) & (_ & M2 & M3 & M4) & W1 & W2 & W3 & W4).
  unfold fmt_ms in *. cbv zeta in *.
  change (py ":") with [58%N] in *. change (py ",") with [44%N] in *.
  rewrite !length_app in Hlen. cbn [length] in Hlen.
  revert Hlen A1 A2 A3 A4 L2 L3 L4 V1 V2 V3 V4 B1 B2 B3 B4 M2 M3 M4 W1 W2 W3 W4.
  generalize (format_0d 2 (t1 / 3600000)) (format_0d 2 ((t1 / 60000) mod 60))
    (format_0d 2 ((t1 / 1000) mod 60)) (format_0d 3 (t1 mod 1000))
    (format_0d 2 (t2 / 3600000)) (format_0d 2 ((t2 / 60000) mod 60))
    (format_0d 2 ((t2 / 1000) mod 60)) (format_0d 3 (t2 mod 1000)).
  intros h1 m1 s1 ms1 h2 m2 s2 ms2. intros.
  apply str_le_digits; try done; [lia| |].
  { apply N2Z.inj_le. rewrite V1, W1. apply Z.div_le_mono; lia. }
  intros E1. cbn [app str_le]. rewrite N.ltb_irrefl, N.eqb_refl. cbn [orb andb].
  apply str_le_digits; try done; [lia| |].
  { apply N2Z.inj_le. rewrite V2, W2.
    assert (t1 / 3600000 = t2 / 3600000) by lia.
    Z.to_euclidean_division_equations. lia. }
  intros E2. cbn [app str_le]. rewrite N.ltb_irrefl, N.eqb_refl. cbn [orb andb].
  apply str_le_digits; try done; [lia| |].
  { apply N2Z.inj_le. rewrite V3, W3.
    assert (t1 / 3600000 = t2 / 3600000) by lia.
    assert ((t1 / 60000) mod 60 = (t2 / 60000) mod 60) by lia.
    Z.to_euclidean_division_equations. lia. }
  intros E3. cbn [app str_le]. rewrite N.ltb_irrefl, N.eqb_refl. cbn [orb andb].
  rewrite <- (app_nil_r ms1), <- (app_nil_r ms2).
  apply str_le_digits; try done; [lia|].
  apply N2Z.inj_le. rewrite V4, W4.
  assert (t1 / 3600000 = t2 / 3600000) by lia.
  assert ((t1 / 60000) mod 60 = (t2 / 60000) mod 60) by lia.
  assert ((t1 / 1000) mod 60 = (t2 / 1000) mod 60) by lia.
  Z.to_euclidean_division_equations. lia.
Qed.

(* ================================================================== *)
(** * Properties of the time formatter: rounding is monotone *)
(* ================================================================== *)

(** ** Sticky codes

    A non-negative real [x] is seen at an exponent [e] through the code
    [2 * floor (2 x / 2^e) + (1 if 2 x / 2^e is not an integer)]: the
    mantissa [floor (x / 2^e)] followed by the round bit and the sticky
    bit, that is, by the [location] of [x] between two multiples of
    [2^e]. *)
Definition emin : Z := -1074.

Definition fexp (k : Z) : Z := Z.max (k - 53) emin.

Lemma fexp_eq k : SpecFloat.fexp prec emax k = fexp k.
Proof. reflexivity. Qed.

Definition sticky (N D : Z) : Z := 2 * (N / D) + (if N mod D =? 0 then 0 else 1).

Definition sticky_shift (t : Z) : Z := 2 * (t / 4) + (if t mod 4 =? 0 then 0 else 1).

Definition tcode (u v e : Z) : Z :=
  sticky (u * 2 ^ Z.max 0 (1 - e)) (v * 2 ^ Z.max 0 (e - 1)).

(** Round to nearest, ties to even, on a code. *)
Definition rne (t : Z) : Z :=
  let m := t / 4 in
  let c := t mod 4 in
  if c <? 2 then m
  else if c =? 2 then (if Z.even m then m else m + 1)
  else m + 1.

Definition loc_code (l : location) : Z :=
  match l with
  | loc_Exact => 0
  | loc_Inexact Lt => 1
  | loc_Inexact Eq => 2
  | loc_Inexact Gt => 3
  end.

Definition rec_code (mrs : shr_record) : Z :=
  4 * shr_m mrs + 2 * Z.b2z (shr_r mrs) + Z.b2z (shr_s mrs).

Lemma sticky_double N D : 0 < D -> sticky N (2 * D) = sticky_shift (sticky N D).
Proof.
  intros HD. unfold sticky, sticky_shift.
  destruct (Z.eqb_spec (N mod D) 0) as [E|E];
    destruct (Z.eqb_spec (N mod (2 * D)) 0) as [E2|E2];
    match goal with
    | |- context [(?t mod 4 =? 0)] => destruct (Z.eqb_spec (t mod 4) 0)
    end;
    Z.to_euclidean_division_equations; nia.
Qed.

Lemma sticky_scale N D : 0 < D -> sticky (2 * N) (2 * D) = sticky N D.
Proof.
  intros HD. unfold sticky.
  rewrite Z.div_mul_cancel_l, Z.mul_mod_distr_l by lia.
  destruct (Z.eqb_spec (N mod D) 0) as [->|E]; [done|].
  destruct (Z.eqb_spec (2 * (N mod D)) 0); [lia|done].
Qed.

Lemma sticky_mono N1 D1 N2 D2 :
  0 < D1 -> 0 < D2 -> 0 <= N1 -> N1 * D2 <= N2 * D1 ->
  sticky N1 D1 <= sticky N2 D2.
Proof.
  intros H1 H2 H0 H. unfold sticky.
  pose proof (Z.div_mod N1 D1 ltac:(lia)) as E1.
  pose proof (Z.div_mod N2 D2 ltac:(lia)) as E2.
  pose proof (Z.mod_pos_bound N1 D1 H1) as B1.
  pose proof (Z.mod_pos_bound N2 D2 H2) as B2.
  revert E1 E2 B1 B2.
  generalize (N1 / D1) (N1 mod D1) (N2 / D2) (N2 mod D2).
  intros q1 r1 q2 r2 E1 E2 B1 B2. subst N1 N2.
  assert (Hq : q1 <= q2).
  { apply Z.lt_succ_r. apply (Z.mul_lt_mono_pos_l (D1 * D2)); [nia|]. nia. }
  destruct (Z.eq_dec q1 q2) as [->|Hne].
  - assert (r1 * D2 <= r2 * D1) by nia.
    destruct (Z.eqb_spec r1 0); destruct (Z.eqb_spec r2 0); lia.
  - destruct (Z.eqb_spec r1 0); destruct (Z.eqb_spec r2 0); lia.
Qed.

Lemma sticky_nonneg N D : 0 < D -> 0 <= N -> 0 <= sticky N D.
Proof.
  intros. unfold sticky. pose proof (Z.div_pos N D). 
  destruct (_ =? _); lia.
Qed.

Lemma sticky_exact m D : 0 < D -> sticky (2 * m * D) D = 4 * m.
Proof.
  intros. unfold sticky. rewrite Z.div_mul, Z.mod_mul by lia. simpl. lia.
Qed.

Lemma sticky_shift_le t : 0 <= t -> sticky_shift t <= t.
Proof.
  intros. unfold sticky_shift. destruct (Z.eqb_spec (t mod 4) 0);
    Z.to_euclidean_division_equations; lia.
Qed.

Lemma sticky_shift_mantissa t : sticky_shift t / 4 = t / 4 / 2.
Proof.
  unfold sticky_shift. destruct (Z.eqb_spec (t mod 4) 0);
    Z.to_euclidean_division_equations; lia.
Qed.

Lemma sticky_shift_mono t1 t2 : t1 <= t2 -> sticky_shift t1 <= sticky_shift t2.
Proof.
  intros. unfold sticky_shift.
  destruct (Z.eqb_spec (t1 mod 4) 0); destruct (Z.eqb_spec (t2 mod 4) 0);
    Z.to_euclidean_division_equations; lia.
Qed.

Lemma rne_mono t1 t2 : t1 <= t2 -> rne t1 <= rne t2.
Proof.
  intros H. unfold rne.
  destruct (Z.ltb_spec (t1 mod 4) 2); destruct (Z.ltb_spec (t2 mod 4) 2);
    destruct (Z.eqb_spec (t1 mod 4) 2); destruct (Z.eqb_spec (t2 mod 4) 2);
    try lia;
    try (destruct (Z.even (t1 / 4)) eqn:E1);
    try (destruct (Z.even (t2 / 4)) eqn:E2);
    try (apply Z.even_spec in E1 as [k1 E1]);
    try (apply Z.even_spec in E2 as [k2 E2]);
    try (apply (f_equal negb) in E1; rewrite Z.negb_even in E1;
         apply Z.odd_spec in E1 as [k1 E1]);
    try (apply (f_equal negb) in E2; rewrite Z.negb_even in E2;
         apply Z.odd_spec in E2 as [k2 E2]);
    Z.to_euclidean_division_equations; lia.
Qed.

Lemma rne_bounds t : t / 4 <= rne t <= t / 4 + 1.
Proof.
  unfold rne. destruct (_ <? _); [lia|].
  destruct (_ =? _); [destruct (Z.even _)|]; lia.
Qed.

Lemma rne_exact m : rne (4 * m) = m.
Proof.
  unfold rne. rewrite (Z.mul_comm 4), Z.mod_mul, Z.div_mul by lia. done.
Qed.

Lemma tcode_succ u v e :
  0 <= u -> 0 < v -> tcode u v (e + 1) = sticky_shift (tcode u v e).
Proof.
  intros Hu Hv. unfold tcode. destruct (Z_le_gt_dec e 0) as [He|He].
  - replace (Z.max 0 (1 - (e + 1))) with (- e) by lia.
    replace (Z.max 0 (e + 1 - 1)) with 0 by lia.
    replace (Z.max 0 (1 - e)) with (- e + 1) by lia.
    replace (Z.max 0 (e - 1)) with 0 by lia.
    rewrite Z.pow_add_r, Z.pow_1_r, Z.pow_0_r, Z.mul_1_r by lia.
    rewrite <- sticky_double by lia.
    replace (u * (2 ^ (- e) * 2)) with (2 * (u * 2 ^ (- e))) by ring.
    by rewrite sticky_scale by lia.
  - replace (Z.max 0 (1 - (e + 1))) with 0 by lia.
    replace (Z.max 0 (e + 1 - 1)) with (e - 1 + 1) by lia.
    replace (Z.max 0 (1 - e)) with 0 by lia.
    replace (Z.max 0 (e - 1)) with (e - 1) by lia.
    rewrite Z.pow_add_r, Z.pow_1_r by lia.
    replace (v * (2 ^ (e - 1) * 2)) with (2 * (v * 2 ^ (e - 1))) by ring.
    apply sticky_double. pose proof (Z.pow_pos_nonneg 2 (e - 1)). nia.
Qed.

Lemma tcode_nonneg u v e : 0 <= u -> 0 < v -> 0 <= tcode u v e.
Proof.
  intros. unfold tcode.
  pose proof (Z.pow_pos_nonneg 2 (Z.max 0 (1 - e)) ltac:(lia) ltac:(lia)).
  pose proof (Z.pow_pos_nonneg 2 (Z.max 0 (e - 1)) ltac:(lia) ltac:(lia)).
  apply sticky_nonneg; nia.
Qed.

Lemma tcode_mono u1 v1 u2 v2 e :
  0 <= u1 -> 0 < v1 -> 0 < v2 -> u1 * v2 <= u2 * v1 ->
  tcode u1 v1 e <= tcode u2 v2 e.
Proof.
  intros. unfold tcode.
  pose proof (Z.pow_pos_nonneg 2 (Z.max 0 (1 - e)) ltac:(lia) ltac:(lia)).
  pose proof (Z.pow_pos_nonneg 2 (Z.max 0 (e - 1)) ltac:(lia) ltac:(lia)).
  revert H3 H4. generalize (2 ^ Z.max 0 (1 - e)) (2 ^ Z.max 0 (e - 1)).
  intros P Q HP HQ. apply sticky_mono; try nia.
  replace (u1 * P * (v2 * Q)) with (u1 * v2 * (P * Q)) by ring.
  replace (u2 * P * (v1 * Q)) with (u2 * v1 * (P * Q)) by ring.
  apply Z.mul_le_mono_nonneg_r; nia.
Qed.

Lemma tcode_plus u v e (k : nat) : 0 <= u -> 0 < v ->
  tcode u v (e + Z.of_nat k) <= tcode u v e
  /\ tcode u v (e + Z.of_nat k) / 4 = tcode u v e / 4 / 2 ^ Z.of_nat k.
Proof.
  intros Hu Hv. induction k as [|k [IH1 IH2]].
  - rewrite Z.add_0_r. simpl. by rewrite Z.div_1_r.
  - replace (e + Z.of_nat (S k)) with (e + Z.of_nat k + 1) by lia.
    rewrite tcode_succ by done. split.
    + etrans; [apply sticky_shift_le, tcode_nonneg; done|done].
    + rewrite sticky_shift_mantissa, IH2, Z.div_div by lia.
      f_equal. rewrite Nat2Z.inj_succ, Z.pow_succ_r by lia. ring.
Qed.

Lemma tcode_antitone u v e e' : 0 <= u -> 0 < v -> e <= e' ->
  tcode u v e' <= tcode u v e.
Proof.
  intros Hu Hv He. replace e' with (e + Z.of_nat (Z.to_nat (e' - e))) by lia.
  by apply tcode_plus.
Qed.

Lemma tcode_mantissa u v e e' : 0 <= u -> 0 < v -> e <= e' ->
  tcode u v e' / 4 = tcode u v e / 4 / 2 ^ (e' - e).
Proof.
  intros Hu Hv He.
  replace e' with (e + Z.of_nat (Z.to_nat (e' - e))) at 1 by lia.
  replace (e' - e) with (Z.of_nat (Z.to_nat (e' - e))) at 2 by lia.
  by apply tcode_plus.
Qed.

(** [u / v = m * 2^e] *)
Definition is_dyadic (u v m e : Z) : Prop :=
  u * 2 ^ Z.max 0 (- e) = m * 2 ^ Z.max 0 e * v.

Lemma tcode_dyadic u v m e : 0 < v -> is_dyadic u v m e -> tcode u v e = 4 * m.
Proof.
  unfold is_dyadic, tcode. intros Hv H.
  destruct (Z_le_gt_dec e 0) as [He|He].
  - replace (Z.max 0 (- e)) with (- e) in H by lia.
    replace (Z.max 0 e) with 0 in H by lia.
    replace (Z.max 0 (1 - e)) with (- e + 1) by lia.
    replace (Z.max 0 (e - 1)) with 0 by lia.
    rewrite Z.pow_add_r, Z.pow_1_r, Z.pow_0_r, Z.mul_1_r by lia.
    rewrite Z.pow_0_r, Z.mul_1_r in H.
    replace (u * (2 ^ (- e) * 2)) with (2 * m * v) by lia.
    by apply sticky_exact.
  - replace (Z.max 0 (- e)) with 0 in H by lia.
    replace (Z.max 0 e) with (e - 1 + 1) in H by lia.
    replace (Z.max 0 (1 - e)) with 0 by lia.
    replace (Z.max 0 (e - 1)) with (e - 1) by lia.
    rewrite Z.pow_add_r, Z.pow_1_r in H by lia.
    rewrite Z.pow_0_r, Z.mul_1_r in *.
    pose proof (Z.pow_pos_nonneg 2 (e - 1) ltac:(lia) ltac:(lia)).
    replace u with (2 * m * (v * 2 ^ (e - 1))) by lia.
    apply sticky_exact. nia.
Qed.

Lemma is_dyadic_shift u v m e k : 0 <= k -> 0 < v ->
  is_dyadic u v m e -> is_dyadic u v (m * 2 ^ k) (e - k).
Proof.
  unfold is_dyadic. intros Hk Hv H.
  assert (Hpow : forall a b, 0 <= a -> 0 <= b -> 2 ^ (a + b) = 2 ^ a * 2 ^ b)
    by (intros; by apply Z.pow_add_r).
  destruct (Z_le_gt_dec e 0) as [He|He].
  - replace (Z.max 0 (- e)) with (- e) in H by lia.
    replace (Z.max 0 e) with 0 in H by lia.
    replace (Z.max 0 (- (e - k))) with (- e + k) by lia.
    replace (Z.max 0 (e - k)) with 0 by lia.
    rewrite Hpow by lia. rewrite Z.pow_0_r in *. nia.
  - replace (Z.max 0 (- e)) with 0 in H by lia.
    replace (Z.max 0 e) with e in H by lia.
    rewrite Z.pow_0_r, Z.mul_1_r in H. subst u.
    destruct (Z_le_gt_dec k e) as [Hke|Hke].
    + replace (Z.max 0 (- (e - k))) with 0 by lia.
      replace (Z.max 0 (e - k)) with (e - k) by lia.
      replace e with (e - k + k) at 1 by lia.
      rewrite Hpow by lia. rewrite Z.pow_0_r. ring.
    + replace (Z.max 0 (- (e - k))) with (k - e) by lia.
      replace (Z.max 0 (e - k)) with 0 by lia.
      replace k with (e + (k - e)) at 2 by lia.
      rewrite Hpow by lia. rewrite Z.pow_0_r. ring.
Qed.

(** ** Binary digits *)
Lemma digits2_pos_bounds p :
  2 ^ (Zpos (digits2_pos p) - 1) <= Zpos p < 2 ^ Zpos (digits2_pos p).
Proof.
  induction p as [p IH|p IH|]; cbn [digits2_pos]; [| |simpl; lia].
  - rewrite Pos2Z.inj_succ.
    replace (Z.succ (Z.pos (digits2_pos p)) - 1)
      with (Z.succ (Z.pos (digits2_pos p) - 1)) by lia.
    rewrite !Z.pow_succ_r by lia. lia.
  - rewrite Pos2Z.inj_succ.
    replace (Z.succ (Z.pos (digits2_pos p)) - 1)
      with (Z.succ (Z.pos (digits2_pos p) - 1)) by lia.
    rewrite !Z.pow_succ_r by lia. lia.
Qed.

Lemma Zdigits2_bounds m : 0 < m ->
  1 <= Zdigits2 m /\ 2 ^ (Zdigits2 m - 1) <= m < 2 ^ Zdigits2 m.
Proof.
  destruct m as [|p|p]; try lia. intros _. simpl.
  split; [lia|apply digits2_pos_bounds].
Qed.

Lemma Zdigits2_unique m d : 2 ^ (d - 1) <= m < 2 ^ d -> 0 < m -> Zdigits2 m = d.
Proof.
  intros [H1 H2] Hm. destruct (Zdigits2_bounds m Hm) as (Hd & B1 & B2).
  assert (0 < d).
  { destruct (Z_lt_le_dec 0 d); [done|].
    destruct (Z.eq_dec d 0) as [->|]; [simpl in H2; lia|].
    rewrite Z.pow_neg_r in H2 by lia. lia. }
  destruct (Z.lt_trichotomy (Zdigits2 m) d) as [Hlt|[->|Hgt]]; [|done|].
  - assert (2 ^ Zdigits2 m <= 2 ^ (d - 1)) by (apply Z.pow_le_mono_r; lia). lia.
  - assert (2 ^ d <= 2 ^ (Zdigits2 m - 1)) by (apply Z.pow_le_mono_r; lia). lia.
Qed.

(** ** The shift-and-round of [SpecFloat] on codes *)
Lemma rec_code_of_loc m l : rec_code (shr_record_of_loc m l) = 4 * m + loc_code l.
Proof. destruct l as [|[]]; unfold rec_code; simpl; lia. Qed.

Lemma code_div_mod m c : 0 <= c < 4 -> (4 * m + c) / 4 = m /\ (4 * m + c) mod 4 = c.
Proof. intros. Z.to_euclidean_division_equations. lia. Qed.

Lemma rne_of_rec mrs :
  round_nearest_even (shr_m mrs) (loc_of_shr_record mrs) = rne (rec_code mrs).
Proof.
  destruct mrs as [m r s]. unfold rne, rec_code. cbn [shr_m shr_r shr_s].
  destruct r, s; cbn [Z.b2z loc_of_shr_record round_nearest_even].
  - destruct (code_div_mod m 3 ltac:(lia)) as [E1 E2].
    replace (4 * m + 2 * 1 + 1) with (4 * m + 3) by lia. by rewrite E1, E2.
  - destruct (code_div_mod m 2 ltac:(lia)) as [E1 E2].
    replace (4 * m + 2 * 1 + 0) with (4 * m + 2) by lia. by rewrite E1, E2.
  - destruct (code_div_mod m 1 ltac:(lia)) as [E1 E2].
    replace (4 * m + 2 * 0 + 1) with (4 * m + 1) by lia. by rewrite E1, E2.
  - destruct (code_div_mod m 0 ltac:(lia)) as [E1 E2].
    replace (4 * m + 2 * 0 + 0) with (4 * m + 0) by lia. by rewrite E1, E2.
Qed.

Lemma sticky_shift_code m c : 0 <= c < 4 ->
  sticky_shift (4 * m + c) = 2 * m + (if c =? 0 then 0 else 1).
Proof.
  intros Hc. unfold sticky_shift.
  destruct (code_div_mod m c Hc) as [-> ->]. done.
Qed.

Lemma shr_1_code mrs : 0 <= shr_m mrs ->
  0 <= shr_m (shr_1 mrs) /\ rec_code (shr_1 mrs) = sticky_shift (rec_code mrs).
Proof.
  destruct mrs as [m r s]. cbn [shr_m]. intros Hm.
  assert (Hcode : rec_code {| shr_m := m; shr_r := r; shr_s := s |}
                  = 4 * m + (2 * Z.b2z r + Z.b2z s)).
  { unfold rec_code. cbn [shr_m shr_r shr_s]. lia. }
  rewrite Hcode, sticky_shift_code by (destruct r, s; simpl; lia).
  destruct m as [|p|p]; [| |exfalso; lia].
  - cbn [shr_1 shr_m]. split; [lia|]. unfold rec_code. cbn [shr_m shr_r shr_s].
    by destruct r, s.
  - destruct p as [p|p|]; cbn [shr_1 shr_m]; (split; [apply Pos2Z.is_nonneg || done|]);
      unfold rec_code; cbn [shr_m shr_r shr_s].
    + change (Z.pos p~1) with (2 * Z.pos p + 1). generalize (Z.pos p). intros z.
      destruct r, s; simpl; lia.
    + change (Z.pos p~0) with (2 * Z.pos p). generalize (Z.pos p). intros z.
      destruct r, s; simpl; lia.
    + by destruct r, s.
Qed.

Lemma iter_shr_code u v p : 0 <= u -> 0 < v -> forall mrs e,
  0 <= shr_m mrs -> rec_code mrs = tcode u v e ->
  0 <= shr_m (SpecFloat.iter_pos shr_1 p mrs)
  /\ rec_code (SpecFloat.iter_pos shr_1 p mrs) = tcode u v (e + Zpos p).
Proof.
  intros Hu Hv. induction p as [p IH|p IH|]; intros mrs e Hm Hc; cbn [SpecFloat.iter_pos].
  - destruct (shr_1_code mrs Hm) as [H1 H2].
    rewrite Hc, <- tcode_succ in H2 by done.
    destruct (IH _ _ H1 H2) as [H3 H4]. destruct (IH _ _ H3 H4) as [H5 H6].
    split; [done|]. rewrite H6. f_equal. lia.
  - destruct (IH _ _ Hm Hc) as [H3 H4]. destruct (IH _ _ H3 H4) as [H5 H6].
    split; [done|]. rewrite H6. f_equal. lia.
  - destruct (shr_1_code mrs Hm) as [H1 H2].
    by rewrite Hc, <- tcode_succ in H2.
Qed.

Lemma shr_fexp_spec m e l u v :
  0 <= m -> 0 <= u -> 0 < v ->
  4 * m + loc_code l = tcode u v e ->
  e <= fexp (Zdigits2 m + e) ->
  exists mrs,
    shr_fexp prec emax m e l = (mrs, fexp (Zdigits2 m + e))
    /\ 0 <= shr_m mrs
    /\ rec_code mrs = tcode u v (fexp (Zdigits2 m + e)).
Proof.
  intros Hm Hu Hv Hc He. unfold shr_fexp. rewrite fexp_eq.
  set (E := fexp (Zdigits2 m + e)) in *.
  assert (H0 : 0 <= shr_m (shr_record_of_loc m l)) by by destruct l as [|[]].
  pose proof (rec_code_of_loc m l) as H1. rewrite Hc in H1.
  destruct (E - e) as [|p|p] eqn:En; try lia.
  - exists (shr_record_of_loc m l). assert (E = e) as -> by lia. done.
  - destruct (iter_shr_code u v p Hu Hv _ _ H0 H1) as [H2 H3].
    exists (SpecFloat.iter_pos shr_1 p (shr_record_of_loc m l)).
    unfold shr. rewrite H3. replace (e + Z.pos p) with E by lia. done.
Qed.

(** ** The result of rounding

    [stage1 u v t E]: [E] is the exponent at which [u / v] is rounded and
    [t] its code there. *)
Definition stage1 (u v t E : Z) : Prop :=
  t = tcode u v E /\ emin <= E /\ t / 4 < 2 ^ 53 /\ (emin < E -> 2 ^ 52 <= t / 4).

Definition pack (m E : Z) : float :=
  match m with
  | Z0 => S754_zero false
  | Zpos p =>
      if m =? 2 ^ 53 then
        if E + 1 <=? 971 then S754_finite false (Z.to_pos (2 ^ 52)) (E + 1)
        else S754_infinity false
      else if E <=? 971 then S754_finite false p E
      else S754_infinity false
  | Zneg _ => S754_nan
  end.

Lemma fexp_ge_emin k : emin <= fexp k.
Proof. unfold fexp. lia. Qed.

Lemma shr_fexp_stage1 m e u v :
  0 <= m -> 0 <= u -> 0 < v -> tcode u v e / 4 = m ->
  e <= fexp (Zdigits2 m + e) ->
  stage1 u v (tcode u v (fexp (Zdigits2 m + e))) (fexp (Zdigits2 m + e)).
Proof.
  intros Hm Hu Hv Hc He. set (E := fexp (Zdigits2 m + e)) in *.
  split; [done|]. split; [apply fexp_ge_emin|].
  rewrite (tcode_mantissa u v e E), Hc by done.
  destruct (Z.eq_dec m 0) as [->|Hm0].
  { rewrite Z.div_0_l by (apply Z.pow_nonzero; lia). split; [lia|].
    simpl in E. unfold fexp in E. lia. }
  destruct (Zdigits2_bounds m ltac:(lia)) as (Hd & B1 & B2).
  set (d := Zdigits2 m) in *.
  assert (Hsplit : 2 ^ d = 2 ^ (d - (E - e)) * 2 ^ (E - e) \/ d < E - e).
  { destruct (Z_lt_le_dec d (E - e)); [by right|left].
    rewrite <- Z.pow_add_r by lia. f_equal. lia. }
  pose proof (Z.pow_pos_nonneg 2 (E - e) ltac:(lia) ltac:(lia)) as Hp.
  split.
  - apply Z.div_lt_upper_bound; [lia|].
    destruct Hsplit as [Hs|Hs].
    + assert (2 ^ (d - (E - e)) <= 2 ^ 53).
      { apply Z.pow_le_mono_r; [lia|]. unfold E, fexp. lia. }
      nia.
    + assert (2 ^ d <= 2 ^ (E - e)) by (apply Z.pow_le_mono_r; lia). nia.
  - intros HE. assert (E = d + e - 53) by (unfold E, fexp in *; lia).
    replace (E - e) with (d - 53) in * by lia.
    apply Z.div_le_lower_bound; [lia|].
    rewrite <- Z.pow_add_r by lia. by replace (d - 53 + 52) with (d - 1) by lia.
Qed.

Lemma stage1_bounds u v t E : 0 <= u -> 0 < v -> stage1 u v t E ->
  0 <= t /\ 0 <= rne t <= 2 ^ 53 /\ (emin < E -> 2 ^ 52 <= rne t).
Proof.
  intros Hu Hv (-> & HE & Hlt & Hge).
  pose proof (tcode_nonneg u v E Hu Hv) as H0.
  pose proof (rne_bounds (tcode u v E)) as [R1 R2].
  pose proof (Z.div_pos (tcode u v E) 4 H0 ltac:(lia)).
  split; [done|]. split; [lia|]. intros HE'. specialize (Hge HE'). lia.
Qed.

Lemma binary_round_aux_spec mx ex lx u v :
  0 <= mx -> 0 <= u -> 0 < v ->
  4 * mx + loc_code lx = tcode u v ex ->
  ex <= fexp (Zdigits2 mx + ex) ->
  exists t E,
    stage1 u v t E
    /\ binary_round_aux prec emax false mx ex lx = pack (rne t) E.
Proof.
  intros Hm Hu Hv Hc He.
  destruct (shr_fexp_spec mx ex lx u v Hm Hu Hv Hc He) as (mrs & Hs & Hm' & Hc').
  assert (St : stage1 u v (tcode u v (fexp (Zdigits2 mx + ex)))
                 (fexp (Zdigits2 mx + ex))).
  { apply shr_fexp_stage1; try done. rewrite <- Hc.
    apply code_div_mod. destruct lx as [|[]]; simpl; lia. }
  revert Hs Hc' St. generalize (fexp (Zdigits2 mx + ex)). intros E Hs Hc' St.
  exists (tcode u v E), E. split; [done|].
  unfold binary_round_aux. rewrite Hs, rne_of_rec, Hc'.
  destruct (stage1_bounds _ _ _ _ Hu Hv St) as (_ & [R1 R2] & R3).
  destruct St as (_ & HE & _ & _).
  revert R1 R2 R3. generalize (rne (tcode u v E)). intros m1 R1 R2 R3.
  unfold shr_fexp. rewrite fexp_eq. cbn [shr_record_of_loc].
  destruct (Z.eq_dec m1 (2 ^ 53)) as [->|Hne].
  - replace (fexp (Zdigits2 (2 ^ 53) + E) - E) with 1
      by (change (Zdigits2 (2 ^ 53)) with 54; unfold fexp; lia).
    cbn - [Z.leb]. reflexivity.
  - destruct m1 as [|p|p]; [| |lia].
    + cbn [Zdigits2]. unfold shr.
      destruct (fexp (0 + E) - E) as [|q|q] eqn:En; [done| |done].
      unfold fexp in En. lia.
    + destruct (Zdigits2_bounds (Z.pos p) ltac:(lia)) as (Hd & B1 & B2).
      assert (Zdigits2 (Z.pos p) <= 53).
      { destruct (Z_le_gt_dec (Zdigits2 (Z.pos p)) 53); [done|].
        assert (2 ^ 53 <= 2 ^ (Zdigits2 (Z.pos p) - 1))
          by (apply Z.pow_le_mono_r; lia). lia. }
      unfold shr.
      destruct (fexp (Zdigits2 (Z.pos p) + E) - E) as [|q|q] eqn:En.
      * cbn [shr_m pack]. destruct (Z.eqb_spec (Z.pos p) (2 ^ 53)); [done|].
        reflexivity.
      * unfold fexp in En. lia.
      * cbn [shr_m pack]. destruct (Z.eqb_spec (Z.pos p) (2 ^ 53)); [done|].
        reflexivity.
Qed.

(** ** Non-negative finite floats and their order *)

(** The value of a finite float in units of [2^emin]. *)
Definition ord (x : float) : Z :=
  match x with
  | S754_finite _ m e => Z.pos m * 2 ^ (e - emin)
  | _ => 0
  end.

(** Zero or a positive finite float in canonical form. *)
Definition good (x : float) : Prop :=
  match x with
  | S754_zero _ => True
  | S754_finite false m e => bounded prec emax m e = true
  | _ => False
  end.

Lemma good_finite m e : good (S754_finite false m e) <->
  fexp (Zdigits2 (Z.pos m) + e) = e /\ e <= 971.
Proof.
  cbn [good]. unfold bounded, canonical_mantissa. rewrite fexp_eq.
  rewrite andb_true_iff, Z.eqb_eq, Z.leb_le. done.
Qed.

Lemma good_facts m e : good (S754_finite false m e) ->
  emin <= e <= 971 /\ Z.pos m < 2 ^ 53 /\ (emin < e -> 2 ^ 52 <= Z.pos m).
Proof.
  intros [Hc He]%good_finite.
  destruct (Zdigits2_bounds (Z.pos m) ltac:(lia)) as (Hd & B1 & B2).
  revert Hc Hd B1 B2. generalize (Zdigits2 (Z.pos m)). intros d Hc Hd B1 B2.
  unfold fexp in Hc. split; [lia|]. split.
  - assert (2 ^ d <= 2 ^ 53) by (apply Z.pow_le_mono_r; lia). lia.
  - intros H. assert (d = 53) as -> by lia. simpl in B1. lia.
Qed.

Lemma pow2_split a b : 0 <= a -> 0 <= b -> 2 ^ (a + b) = 2 ^ a * 2 ^ b.
Proof. intros. by apply Z.pow_add_r. Qed.

Lemma pow2_pos a : 0 <= a -> 0 < 2 ^ a.
Proof. intros. by apply Z.pow_pos_nonneg. Qed.

Lemma ord_lt_exp m1 e1 m2 e2 :
  good (S754_finite false m1 e1) -> good (S754_finite false m2 e2) ->
  e1 < e2 -> Z.pos m1 * 2 ^ (e1 - emin) < Z.pos m2 * 2 ^ (e2 - emin).
Proof.
  intros (H1 & L1 & _)%good_facts (H2 & _ & G2)%good_facts He.
  specialize (G2 ltac:(lia)).
  replace (e2 - emin) with ((e2 - e1 - 1) + 1 + (e1 - emin)) by lia.
  rewrite !pow2_split by lia.
  pose proof (pow2_pos (e1 - emin) ltac:(lia)) as HP.
  pose proof (pow2_pos (e2 - e1 - 1) ltac:(lia)) as HQ.
  change (2 ^ 1) with 2. change (2 ^ 53) with (2 * 2 ^ 52) in L1.
  assert (HK : 0 < 2 ^ 52) by lia.
  revert L1 G2 HP HQ HK.
  generalize (2 ^ 52) (2 ^ (e1 - emin)) (2 ^ (e2 - e1 - 1)) (Z.pos m1) (Z.pos m2).
  intros K P Q a b L1 G2 HP HQ HK.
  assert (a * P < 2 * K * P) by nia.
  assert (K * 1 <= b * Q) by (apply Z.mul_le_mono_nonneg; lia).
  nia.
Qed.

Lemma ord_compare x y : good x -> good y ->
  SFcompare x y = Some (ord x ?= ord y).
Proof.
  destruct x as [sx| | |[] mx ex], y as [sy| | |[] my ey]; try done;
    intros Hx Hy; cbn [SFcompare ord].
  - pose proof (good_facts _ _ Hy) as (? & _ & _).
    pose proof (pow2_pos (ey - emin) ltac:(lia)).
    symmetry. f_equal. apply Z.compare_lt_iff. nia.
  - pose proof (good_facts _ _ Hx) as (? & _ & _).
    pose proof (pow2_pos (ex - emin) ltac:(lia)).
    symmetry. f_equal. apply Z.compare_gt_iff. nia.
  - f_equal. destruct (Z.compare_spec ex ey) as [->|Hlt|Hgt].
    + pose proof (good_facts _ _ Hy) as (? & _ & _).
      pose proof (pow2_pos (ey - emin) ltac:(lia)).
      rewrite Pos.compare_cont_spec. cbn [Pos.switch_Eq].
      change (mx ?= my)%positive with (Z.pos mx ?= Z.pos my).
      destruct (Z.compare_spec (Z.pos mx) (Z.pos my)) as [->|?|?]; symmetry.
      * apply Z.compare_refl.
      * apply Z.compare_lt_iff. nia.
      * apply Z.compare_gt_iff. nia.
    + symmetry. apply Z.compare_lt_iff. by apply ord_lt_exp.
    + symmetry. apply Z.compare_gt_iff. by apply ord_lt_exp.
Qed.

Lemma flt_ord x y : good x -> good y -> (flt x y = true <-> ord x < ord y).
Proof.
  intros Hx Hy. unfold flt, SFltb. rewrite (ord_compare x y Hx Hy).
  destruct (Z.compare_spec (ord x) (ord y)); split; try done; lia.
Qed.

Lemma fle_ord x y : good x -> good y -> (fle x y = true <-> ord x <= ord y).
Proof.
  intros Hx Hy. unfold fle, SFleb. rewrite (ord_compare x y Hx Hy).
  destruct (Z.compare_spec (ord x) (ord y)); split; try done; lia.
Qed.

Lemma ord_inj x y : good x -> good y -> ord x = ord y -> 0 < ord x -> x = y.
Proof.
  destruct x as [sx| | |[] mx ex], y as [sy| | |[] my ey]; try done;
    intros Hx Hy; cbn [ord]; intros E Hpos; try lia.
  destruct (Z.lt_trichotomy ex ey) as [Hlt|[->|Hgt]].
  - pose proof (ord_lt_exp _ _ _ _ Hx Hy Hlt). lia.
  - pose proof (good_facts _ _ Hy) as (? & _ & _).
    pose proof (pow2_pos (ey - emin) ltac:(lia)).
    assert (Z.pos mx = Z.pos my) by nia. congruence.
  - pose proof (ord_lt_exp _ _ _ _ Hy Hx Hgt). lia.
Qed.

Lemma pack_spec u v t E : 0 <= u -> 0 < v -> stage1 u v t E ->
  match pack (rne t) E with
  | S754_infinity _ => True
  | x => good x /\ ord x = rne t * 2 ^ (E - emin)
  end.
Proof.
  intros Hu Hv St.
  destruct (stage1_bounds _ _ _ _ Hu Hv St) as (_ & [R1 R2] & R3).
  destruct St as (_ & HE & _ & _).
  revert R1 R2 R3. generalize (rne t). intros m R1 R2 R3.
  destruct m as [|p|p]; [done| |lia]. cbn [pack].
  destruct (Z.eqb_spec (Z.pos p) (2 ^ 53)) as [Hp|Hp].
  - destruct (Z.leb_spec (E + 1) 971); [|done]. split.
    + apply good_finite. split; [|done].
      change (Zdigits2 (Z.pos (Z.to_pos (2 ^ 52)))) with 53. unfold fexp. lia.
    + cbn [ord]. rewrite Hp. change (Z.pos (Z.to_pos (2 ^ 52))) with (2 ^ 52).
      replace (E + 1 - emin) with (1 + (E - emin)) by lia.
      rewrite pow2_split by lia. change (2 ^ 53) with (2 ^ 52 * 2 ^ 1). ring.
  - destruct (Z.leb_spec E 971); [|done]. split; [|done].
    apply good_finite. split; [|done].
    destruct (Zdigits2_bounds (Z.pos p) ltac:(lia)) as (Hd & B1 & B2).
    destruct (Z.eq_dec E emin) as [->|HE'].
    + assert (Zdigits2 (Z.pos p) <= 53).
      { destruct (Z_le_gt_dec (Zdigits2 (Z.pos p)) 53); [done|].
        assert (2 ^ 53 <= 2 ^ (Zdigits2 (Z.pos p) - 1))
          by (apply Z.pow_le_mono_r; lia). lia. }
      unfold fexp. lia.
    + rewrite (Zdigits2_unique (Z.pos p) 53); [unfold fexp; lia| |lia].
      specialize (R3 ltac:(lia)). simpl. lia.
Qed.

Lemma stage1_exp_mono u1 v1 t1 E1 u2 v2 t2 E2 :
  0 <= u1 -> 0 < v1 -> 0 <= u2 -> 0 < v2 ->
  stage1 u1 v1 t1 E1 -> stage1 u2 v2 t2 E2 ->
  u1 * v2 <= u2 * v1 -> E1 <= E2.
Proof.
  intros Hu1 Hv1 Hu2 Hv2 (-> & HE1 & L1 & G1) (-> & HE2 & L2 & G2) Hle.
  destruct (Z_le_gt_dec E1 E2) as [|Hgt]; [done|exfalso].
  specialize (G1 ltac:(lia)).
  pose proof (tcode_mono u1 v1 u2 v2 E1 Hu1 Hv1 Hv2 Hle) as Hm.
  apply (Z.div_le_mono _ _ 4) in Hm; [|lia].
  rewrite (tcode_mantissa u2 v2 E2 E1) in Hm by lia.
  assert (tcode u2 v2 E2 / 4 / 2 ^ (E1 - E2) < 2 ^ 52); [|lia].
  apply Z.div_lt_upper_bound; [apply pow2_pos; lia|].
  replace (E1 - E2) with (1 + (E1 - E2 - 1)) by lia.
  rewrite pow2_split by lia.
  pose proof (pow2_pos (E1 - E2 - 1) ltac:(lia)).
  change (2 ^ 1) with 2. change (2 ^ 53) with (2 * 2 ^ 52) in L2. nia.
Qed.

Lemma stage1_mono u1 v1 t1 E1 u2 v2 t2 E2 :
  0 <= u1 -> 0 < v1 -> 0 <= u2 -> 0 < v2 ->
  stage1 u1 v1 t1 E1 -> stage1 u2 v2 t2 E2 ->
  u1 * v2 <= u2 * v1 ->
  rne t1 * 2 ^ (E1 - emin) <= rne t2 * 2 ^ (E2 - emin).
Proof.
  intros Hu1 Hv1 Hu2 Hv2 S1 S2 Hle.
  pose proof (stage1_exp_mono _ _ _ _ _ _ _ _ Hu1 Hv1 Hu2 Hv2 S1 S2 Hle) as HE.
  destruct (stage1_bounds _ _ _ _ Hu1 Hv1 S1) as (_ & [A1 A2] & A3).
  destruct (stage1_bounds _ _ _ _ Hu2 Hv2 S2) as (_ & [B1 B2] & B3).
  destruct S1 as (-> & HE1 & _ & _). destruct S2 as (-> & HE2 & _ & _).
  destruct (Z.eq_dec E1 E2) as [->|Hne].
  - apply Z.mul_le_mono_nonneg_r; [apply Z.lt_le_incl, pow2_pos; lia|].
    by apply rne_mono, tcode_mono.
  - specialize (B3 ltac:(lia)).
    replace (E2 - emin) with ((E2 - E1 - 1) + 1 + (E1 - emin)) by lia.
    rewrite !pow2_split by lia.
    pose proof (pow2_pos (E1 - emin) ltac:(lia)) as HP.
    pose proof (pow2_pos (E2 - E1 - 1) ltac:(lia)) as HQ.
    change (2 ^ 1) with 2. change (2 ^ 53) with (2 * 2 ^ 52) in A2.
    assert (HK : 0 < 2 ^ 52) by lia.
    revert A1 A2 B3 HP HQ HK.
    generalize (2 ^ 52) (2 ^ (E1 - emin)) (2 ^ (E2 - E1 - 1))
      (rne (tcode u1 v1 E1)) (rne (tcode u2 v2 E2)).
    intros K P Q a b A1 A2 B3 HP HQ HK.
    assert (a * P <= 2 * K * P) by nia.
    assert (K * 1 <= b * Q) by (apply Z.mul_le_mono_nonneg; lia).
    nia.
Qed.

(** The value of a float as the fraction [ord x / 2^1074]. *)
Definition den : Z := 2 ^ 1074.

Lemma den_pos : 0 < den.
Proof. unfold den. by apply pow2_pos. Qed.

Lemma is_dyadic_ord m e : emin <= e -> is_dyadic (m * 2 ^ (e - emin)) den m e.
Proof.
  intros He. unfold is_dyadic, den. unfold emin in *.
  destruct (Z_le_gt_dec e 0).
  - replace (Z.max 0 (- e)) with (- e) by lia.
    replace (Z.max 0 e) with 0 by lia.
    assert (2 ^ 1074 = 2 ^ (e - -1074) * 2 ^ (- e)) as ->.
    { rewrite <- pow2_split by lia. f_equal; lia. }
    rewrite Z.pow_0_r. ring.
  - replace (Z.max 0 (- e)) with 0 by lia.
    replace (Z.max 0 e) with e by lia.
    assert (2 ^ (e - -1074) = 2 ^ e * 2 ^ 1074) as ->.
    { rewrite <- pow2_split by lia. f_equal; lia. }
    rewrite Z.pow_0_r. ring.
Qed.

Lemma good_stage1 m e : good (S754_finite false m e) ->
  stage1 (Z.pos m * 2 ^ (e - emin)) den (4 * Z.pos m) e.
Proof.
  intros Hg. destruct (good_facts _ _ Hg) as ([H1 H2] & H3 & H4).
  split; [|split; [done|]].
  - symmetry. apply tcode_dyadic; [apply den_pos|by apply is_dyadic_ord].
  - destruct (code_div_mod (Z.pos m) 0 ltac:(lia)) as [E _].
    rewrite Z.add_0_r in E. by rewrite E.
Qed.

Lemma stage1_exact u v t E m e :
  0 <= u -> 0 < v -> stage1 u v t E -> is_dyadic u v m e ->
  0 <= m < 2 ^ 53 -> emin <= e ->
  rne t * 2 ^ (E - emin) = m * 2 ^ (e - emin).
Proof.
  intros Hu Hv (-> & HE & L & G) Hd Hm He.
  assert (HEe : E <= e).
  { destruct (Z_le_gt_dec E e) as [|Hgt]; [done|exfalso].
    specialize (G ltac:(lia)).
    rewrite (tcode_mantissa u v e E), (tcode_dyadic u v m e) in G by (done || lia).
    destruct (code_div_mod m 0 ltac:(lia)) as [E0 _].
    rewrite Z.add_0_r in E0. rewrite E0 in G.
    assert (m / 2 ^ (E - e) < 2 ^ 52); [|lia].
    apply Z.div_lt_upper_bound; [apply pow2_pos; lia|].
    replace (E - e) with (1 + (E - e - 1)) by lia. rewrite pow2_split by lia.
    pose proof (pow2_pos (E - e - 1) ltac:(lia)).
    change (2 ^ 1) with 2. change (2 ^ 53) with (2 * 2 ^ 52) in Hm. nia. }
  pose proof (is_dyadic_shift u v m e (e - E) ltac:(lia) Hv Hd) as Hd'.
  replace (e - (e - E)) with E in Hd' by lia.
  rewrite (tcode_dyadic _ _ _ _ Hv Hd'), rne_exact.
  replace (e - emin) with ((e - E) + (E - emin)) by lia.
  rewrite pow2_split by lia. ring.
Qed.

(** ** Rounded results

    [rounds u v r]: the float [r] is the rounding of [u / v]. *)
Definition rounds (u v : Z) (r : float) : Prop :=
  (u = 0 /\ exists s, r = S754_zero s)
  \/ (exists t E, stage1 u v t E /\ r = pack (rne t) E).

Definition is_finite (x : float) : bool :=
  match x with
  | S754_zero _ | S754_finite _ _ _ => true
  | _ => false
  end.

Lemma tcode_zero v e : 0 < v -> tcode 0 v e = 0.
Proof.
  intros Hv. unfold tcode, sticky. rewrite Z.mul_0_l.
  pose proof (pow2_pos (Z.max 0 (e - 1)) ltac:(lia)).
  rewrite Z.div_0_l, Z.mod_0_l by nia. done.
Qed.

Lemma rounds_good u v r : 0 <= u -> 0 < v ->
  rounds u v r -> is_finite r = true -> good r.
Proof.
  intros Hu Hv [[_ [s ->]]|(t & E & St & ->)] Hf; [done|].
  pose proof (pack_spec u v t E Hu Hv St) as H.
  destruct (pack (rne t) E); try done; by destruct H.
Qed.

Lemma rounds_ord u v r : 0 <= u -> 0 < v ->
  rounds u v r -> is_finite r = true ->
  (u = 0 /\ ord r = 0)
  \/ (exists t E, stage1 u v t E /\ ord r = rne t * 2 ^ (E - emin)).
Proof.
  intros Hu Hv [[-> [s ->]]|(t & E & St & ->)] Hf; [by left|right].
  exists t, E. split; [done|].
  pose proof (pack_spec u v t E Hu Hv St) as H.
  destruct (pack (rne t) E); try done; by destruct H.
Qed.

Lemma rounds_mono u1 v1 r1 u2 v2 r2 :
  0 <= u1 -> 0 < v1 -> 0 <= u2 -> 0 < v2 ->
  rounds u1 v1 r1 -> rounds u2 v2 r2 ->
  is_finite r1 = true -> is_finite r2 = true ->
  u1 * v2 <= u2 * v1 -> ord r1 <= ord r2.
Proof.
  intros Hu1 Hv1 Hu2 Hv2 R1 R2 F1 F2 Hle.
  destruct (rounds_ord _ _ _ Hu1 Hv1 R1 F1) as [[-> ->]|(t1 & E1 & S1 & ->)].
  - destruct (rounds_ord _ _ _ Hu2 Hv2 R2 F2) as [[_ ->]|(t2 & E2 & S2 & ->)];
      [done|].
    destruct (stage1_bounds _ _ _ _ Hu2 Hv2 S2) as (_ & [B _] & _).
    destruct S2 as (_ & HE & _). pose proof (pow2_pos (E2 - emin) ltac:(lia)).
    nia.
  - destruct (rounds_ord _ _ _ Hu2 Hv2 R2 F2) as [[-> ->]|(t2 & E2 & S2 & ->)].
    + assert (u1 = 0) as -> by nia.
      destruct S1 as (-> & HE & _). rewrite tcode_zero by done.
      change (rne 0) with 0. lia.
    + exact (stage1_mono _ _ _ _ _ _ _ _ Hu1 Hv1 Hu2 Hv2 S1 S2 Hle).
Qed.

Lemma rounds_exact u v r m e : 0 <= u -> 0 < v ->
  rounds u v r -> is_finite r = true ->
  is_dyadic u v m e -> 0 <= m < 2 ^ 53 -> emin <= e ->
  ord r = m * 2 ^ (e - emin).
Proof.
  intros Hu Hv R F Hd Hm He.
  destruct (rounds_ord _ _ _ Hu Hv R F) as [[-> ->]|(t & E & St & ->)].
  - unfold is_dyadic in Hd. rewrite Z.mul_0_l in Hd.
    pose proof (pow2_pos (Z.max 0 e) ltac:(lia)).
    assert (m = 0) as -> by nia. lia.
  - exact (stage1_exact _ _ _ _ _ _ Hu Hv St Hd Hm He).
Qed.

Lemma pack_good_float m e : good (S754_finite false m e) ->
  pack (rne (4 * Z.pos m)) e = S754_finite false m e.
Proof.
  intros Hg. destruct (good_facts _ _ Hg) as ([H1 H2] & H3 & H4).
  rewrite rne_exact. cbn [pack].
  destruct (Z.eqb_spec (Z.pos m) (2 ^ 53)); [lia|].
  by destruct (Z.leb_spec e 971); [|lia].
Qed.

Lemma good_rounds x : good x -> rounds (ord x) den x.
Proof.
  destruct x as [s| | |[] m e]; try done; intros Hg.
  - left. split; [done|by exists s].
  - right. exists (4 * Z.pos m), e. split; [by apply good_stage1|].
    by rewrite pack_good_float.
Qed.

Lemma good_ord_nonneg x : 0 <= ord x.
Proof. destruct x; simpl; lia. Qed.

(** ** [int(x)] *)
Lemma int_of_float_good x : good x -> int_of_float x = Ok (ord x / den).
Proof.
  destruct x as [s| | |[] m e]; try done; intros Hg; cbn [int_of_float ord].
  destruct (good_facts _ _ Hg) as ([H1 H2] & _). unfold cond_Zopp, den.
  f_equal. unfold emin in *. destruct (Z_le_gt_dec 0 e).
  - rewrite Z.shiftl_mul_pow2 by lia.
    replace (e - -1074) with (e + 1074) by lia.
    rewrite pow2_split, Z.mul_assoc, Z.div_mul by lia. done.
  - rewrite Z.shiftl_div_pow2 by lia.
    assert (2 ^ 1074 = 2 ^ (- e) * 2 ^ (e - -1074)) as ->.
    { rewrite <- pow2_split by lia. f_equal; lia. }
    rewrite Z.div_mul_cancel_r; [done| |]; apply Z.pow_nonzero; lia.
Qed.

(** ** Multiplication *)
Lemma is_dyadic_scaled m e k : 0 <= k -> - k <= e ->
  is_dyadic (m * 2 ^ (e + k)) (2 ^ k) m e.
Proof.
  intros Hk He. unfold is_dyadic. destruct (Z_le_gt_dec e 0).
  - replace (Z.max 0 (- e)) with (- e) by lia.
    replace (Z.max 0 e) with 0 by lia.
    assert (2 ^ k = 2 ^ (e + k) * 2 ^ (- e)) as ->.
    { rewrite <- pow2_split by lia. f_equal; lia. }
    rewrite Z.pow_0_r. ring.
  - replace (Z.max 0 (- e)) with 0 by lia.
    replace (Z.max 0 e) with e by lia.
    rewrite pow2_split by lia. rewrite Z.pow_0_r. ring.
Qed.

Lemma Zdigits2_ge m k : 0 <= k -> 2 ^ k <= m -> k + 1 <= Zdigits2 m.
Proof.
  intros Hk Hm. pose proof (pow2_pos k Hk).
  destruct (Zdigits2_bounds m ltac:(lia)) as (Hd & _ & B).
  destruct (Z_le_gt_dec (k + 1) (Zdigits2 m)); [done|].
  assert (2 ^ Zdigits2 m <= 2 ^ k) by (apply Z.pow_le_mono_r; lia). lia.
Qed.

Lemma fmul_rounds x mc ec :
  good x -> good (S754_finite false mc ec) -> 2 ^ 52 <= Z.pos mc ->
  rounds (ord x * ord (S754_finite false mc ec)) (den * den)
         (fmul x (S754_finite false mc ec)).
Proof.
  intros Hx Hc Hmc. destruct x as [s| | |[] mx ex]; try done.
  - left. split; [done|]. by eexists.
  - right. unfold fmul, SFmul. cbn [xorb ord].
    destruct (good_facts _ _ Hx) as ([Hex _] & _).
    destruct (good_facts _ _ Hc) as ([Hec _] & _).
    pose proof den_pos.
    assert (Hu : 0 <= Z.pos mx * 2 ^ (ex - emin) * (Z.pos mc * 2 ^ (ec - emin))).
    { pose proof (pow2_pos (ex - emin) ltac:(lia)).
      pose proof (pow2_pos (ec - emin) ltac:(lia)). nia. }
    assert (Hv : 0 < den * den) by nia.
    apply binary_round_aux_spec; [lia|exact Hu|exact Hv| |].
    + cbn [loc_code]. rewrite Z.add_0_r. symmetry.
      apply tcode_dyadic; [lia|].
      replace (Z.pos mx * 2 ^ (ex - emin) * (Z.pos mc * 2 ^ (ec - emin)))
        with (Z.pos (mx * mc) * 2 ^ (ex + ec + 2148)).
      * change (den * den) with (2 ^ 2148).
        apply is_dyadic_scaled; unfold emin in *; lia.
      * replace (ex + ec + 2148) with ((ex - emin) + (ec - emin))
          by (unfold emin; lia).
        rewrite pow2_split, Pos2Z.inj_mul by lia. ring.
    + assert (53 <= Zdigits2 (Z.pos (mx * mc))).
      { apply (Zdigits2_ge _ 52); [lia|]. rewrite Pos2Z.inj_mul. nia. }
      unfold fexp. lia.
Qed.

(** ** Conversion from integers and normalisation *)
Lemma iter_xO m d : Z.pos (Pos.iter xO m d) = Z.pos m * 2 ^ Z.pos d.
Proof.
  rewrite (Pos.iter_swap_gen _ _ Z.pos xO (Z.mul 2)) by done.
  change (Pos.iter (Z.mul 2) (Z.pos m) d) with (Z.shiftl (Z.pos m) (Z.pos d)).
  by rewrite Z.shiftl_mul_pow2.
Qed.

Lemma Zdigits2_shift m k : 0 < m -> 0 <= k ->
  Zdigits2 (m * 2 ^ k) = Zdigits2 m + k.
Proof.
  intros Hm Hk. destruct (Zdigits2_bounds m Hm) as (Hd & B1 & B2).
  pose proof (pow2_pos k Hk).
  apply Zdigits2_unique; [|nia].
  replace (Zdigits2 m + k - 1) with (Zdigits2 m - 1 + k) by lia.
  rewrite !pow2_split by lia. nia.
Qed.

Lemma binary_round_rounds m e u v :
  0 <= u -> 0 < v -> is_dyadic u v (Z.pos m) e ->
  rounds u v (binary_round prec emax false m e).
Proof.
  intros Hu Hv Hd. right. unfold binary_round, shl_align. rewrite fexp_eq.
  change (Z.pos (digits2_pos m)) with (Zdigits2 (Z.pos m)).
  destruct (fexp (Zdigits2 (Z.pos m) + e) - e) as [|d|d] eqn:En.
  - apply binary_round_aux_spec; try done.
    + cbn [loc_code]. rewrite Z.add_0_r. symmetry. by apply tcode_dyadic.
    + lia.
  - apply binary_round_aux_spec; try done.
    + cbn [loc_code]. rewrite Z.add_0_r. symmetry. by apply tcode_dyadic.
    + lia.
  - apply binary_round_aux_spec; try done.
    + cbn [loc_code]. rewrite Z.add_0_r. symmetry. apply tcode_dyadic; [done|].
      rewrite iter_xO.
      replace (fexp (Zdigits2 (Z.pos m) + e)) with (e - Z.pos d) by lia.
      by apply is_dyadic_shift.
    + rewrite iter_xO, Zdigits2_shift by lia.
      replace (Zdigits2 (Z.pos m) + Z.pos d + fexp (Zdigits2 (Z.pos m) + e))
        with (Zdigits2 (Z.pos m) + e) by lia.
      lia.
Qed.

Lemma float_const_rounds z : 0 <= z -> rounds z 1 (float_const z).
Proof.
  intros Hz. destruct z as [|m|m]; [| |lia].
  - left. split; [done|]. by exists false.
  - apply binary_round_rounds; [lia|lia|]. unfold is_dyadic.
    change (Z.max 0 (- 0)) with 0. change (Z.max 0 0) with 0.
    rewrite Z.pow_0_r. lia.
Qed.

Lemma float_of_int_ok z x : 0 <= z -> float_of_int z = Ok x ->
  rounds z 1 x /\ is_finite x = true.
Proof.
  intros Hz H. unfold float_of_int in H.
  pose proof (float_const_rounds z Hz) as R.
  destruct (float_const z) eqn:E; try done; injection H as <-; split; try done.
  destruct R as [[_ [s ?]]|(t & E' & St & Hp)]; [done|].
  pose proof (pack_spec z 1 t E' Hz ltac:(lia) St) as Hps.
  rewrite <- Hp in Hps. by destruct Hps.
Qed.

(** ** Subtraction *)
Lemma shl_align_fst m e e' : e' <= e ->
  Z.pos (fst (shl_align m e e')) = Z.pos m * 2 ^ (e - e').
Proof.
  intros He. unfold shl_align. destruct (e' - e) as [|d|d] eqn:En; [|lia|].
  - replace (e - e') with 0 by lia. cbn [fst]. lia.
  - cbn [fst]. rewrite iter_xO. f_equal. f_equal. lia.
Qed.

Lemma ord_finite_pos s m e : emin <= e -> 0 < ord (S754_finite s m e).
Proof. intros. cbn [ord]. pose proof (pow2_pos (e - emin) ltac:(lia)). nia. Qed.

Lemma fsub_rounds x y : good x -> good y -> ord y <= ord x ->
  rounds (ord x - ord y) den (fsub x y).
Proof.
  intros Hx Hy Hle.
  destruct x as [sx| | |[] mx ex], y as [sy| | |[] my ey]; try done.
  - left. split; [done|]. unfold fsub, SFsub. destruct sx, sy; by eexists.
  - destruct (good_facts _ _ Hy) as ([He _] & _).
    pose proof (ord_finite_pos false my ey He). cbn [ord] in *. lia.
  - unfold fsub, SFsub. cbn [ord]. rewrite Z.sub_0_r.
    by apply (good_rounds (S754_finite false mx ex)).
  - destruct (good_facts _ _ Hx) as ([Hex _] & _).
    destruct (good_facts _ _ Hy) as ([Hey _] & _).
    unfold fsub, SFsub. cbn [cond_Zopp].
    rewrite !shl_align_fst by lia. cbn [ord] in *.
    set (ez := Z.min ex ey) in *.
    assert (E : Z.pos mx * 2 ^ (ex - emin) - Z.pos my * 2 ^ (ey - emin)
                = (Z.pos mx * 2 ^ (ex - ez) - Z.pos my * 2 ^ (ey - ez))
                  * 2 ^ (ez - emin)).
    { replace (ex - emin) with ((ex - ez) + (ez - emin)) by lia.
      replace (ey - emin) with ((ey - ez) + (ez - emin)) by lia.
      rewrite !pow2_split by lia. ring. }
    rewrite E in *. pose proof (pow2_pos (ez - emin) ltac:(lia)) as HP.
    destruct (Z.pos mx * 2 ^ (ex - ez) - Z.pos my * 2 ^ (ey - ez))
      as [|p|p]; cbn [binary_normalize].
    + left. split; [lia|]. by eexists.
    + apply binary_round_rounds; [lia|apply den_pos|].
      apply is_dyadic_ord. lia.
    + exfalso. nia.
Qed.

(** ** Halves: the code at the unit exponent *)
Lemma sticky_scale_r N D K : 0 < D -> 0 < K ->
  sticky (N * K) (D * K) = sticky N D.
Proof.
  intros HD HK. unfold sticky.
  rewrite Z.div_mul_cancel_r, Z.mul_mod_distr_r by lia.
  destruct (Z.eqb_spec (N mod D) 0) as [->|E]; [done|].
  destruct (Z.eqb_spec (N mod D * K) 0); [nia|done].
Qed.

Definition half_code (r d : Z) : Z :=
  match 2 * r ?= d with
  | Lt => if r =? 0 then 0 else 1
  | Eq => 2
  | Gt => 3
  end.

Lemma sticky_half m d : 0 <= m -> 0 < d ->
  sticky (2 * m) d = 4 * (m / d) + half_code (m mod d) d.
Proof.
  intros Hm Hd. unfold sticky, half_code.
  pose proof (Z.div_mod m d ltac:(lia)) as E.
  pose proof (Z.mod_pos_bound m d Hd) as B.
  revert E B. generalize (m / d) (m mod d). intros q r E B. subst m.
  destruct (Z.compare_spec (2 * r) d) as [H|H|H].
  - rewrite <- (Z.div_unique (2 * (d * q + r)) d (2 * q + 1) 0) by lia.
    rewrite <- (Z.mod_unique (2 * (d * q + r)) d (2 * q + 1) 0) by lia.
    simpl. lia.
  - rewrite <- (Z.div_unique (2 * (d * q + r)) d (2 * q) (2 * r)) by lia.
    rewrite <- (Z.mod_unique (2 * (d * q + r)) d (2 * q) (2 * r)) by lia.
    destruct (Z.eqb_spec r 0) as [->|?]; [simpl; lia|].
    destruct (Z.eqb_spec (2 * r) 0); lia.
  - rewrite <- (Z.div_unique (2 * (d * q + r)) d (2 * q + 1) (2 * r - d)) by lia.
    rewrite <- (Z.mod_unique (2 * (d * q + r)) d (2 * q + 1) (2 * r - d)) by lia.
    destruct (Z.eqb_spec (2 * r - d) 0); lia.
Qed.

Lemma half_code_range r d : 0 <= half_code r d < 4.
Proof.
  unfold half_code. destruct (_ ?= _); [lia| |lia]. destruct (_ =? _); lia.
Qed.

(** ** [round(x)] *)
Lemma round_half_even_good x : good x ->
  round_half_even x = Ok (rne (sticky (2 * ord x) den)).
Proof.
  destruct x as [s| | |[] m e]; try done; intros Hg.
  destruct (good_facts _ _ Hg) as ([H1 H2] & _).
  cbn [round_half_even ord cond_Zopp]. unfold den, emin in *.
  destruct (Z.leb_spec 0 e) as [He|He].
  - f_equal. replace (e - -1074) with (e + 1074) by lia.
    rewrite pow2_split by lia.
    replace (2 * (Z.pos m * (2 ^ e * 2 ^ 1074)))
      with (2 * (Z.pos m * 2 ^ e) * 2 ^ 1074) by ring.
    rewrite sticky_exact by lia. by rewrite rne_exact.
  - f_equal.
    assert (2 ^ 1074 = 2 ^ (- e) * 2 ^ (e - -1074)) as ->.
    { rewrite <- pow2_split by lia. f_equal; lia. }
    rewrite Z.mul_assoc.
    pose proof (pow2_pos (- e) ltac:(lia)).
    pose proof (pow2_pos (e - -1074) ltac:(lia)).
    rewrite sticky_scale_r, sticky_half by lia.
    unfold rne.
    destruct (code_div_mod (Z.pos m / 2 ^ (- e))
                (half_code (Z.pos m mod 2 ^ (- e)) (2 ^ (- e)))
                (half_code_range _ _)) as [-> ->].
    unfold half_code.
    destruct (2 * (Z.pos m mod 2 ^ (- e)) ?= 2 ^ (- e)); try done.
    by destruct (_ =? 0).
Qed.

(** ** Division of integers *)
Lemma new_location_code v r : 0 < v -> 0 <= r < v ->
  loc_code (new_location v r) = half_code r v.
Proof.
  intros Hv Hr. unfold new_location, new_location_even, new_location_odd, half_code.
  destruct (Z.even v) eqn:Ev.
  - destruct (Z.eqb_spec r 0) as [->|Hr0].
    + simpl. by destruct v.
    + by destruct (Z.compare_spec (2 * r) v).
  - apply (f_equal negb) in Ev. rewrite Z.negb_even in Ev.
    apply Z.odd_spec in Ev as [k ->].
    destruct (Z.eqb_spec r 0) as [->|Hr0].
    + simpl. by destruct k.
    + destruct (Z.compare_spec (2 * r + 1) (2 * k + 1));
        destruct (Z.compare_spec (2 * r) (2 * k + 1)); simpl; lia.
Qed.

Lemma fexp_mono a b : a <= b -> fexp a <= fexp b.
Proof. unfold fexp. lia. Qed.

Lemma div_core_spec u v : 0 < u -> 0 < v ->
  exists q e l,
    SFdiv_core_binary prec emax u 0 v 0 = (q, e, l)
    /\ 0 <= q /\ 4 * q + loc_code l = tcode u v e
    /\ e <= fexp (Zdigits2 q + e).
Proof.
  intros Hu Hv. unfold SFdiv_core_binary. rewrite fexp_eq.
  rewrite !Z.add_0_r. change (0 - 0) with 0.
  destruct (Zdigits2_bounds u Hu) as (Hd1 & B1 & B1').
  destruct (Zdigits2_bounds v Hv) as (Hd2 & B2 & B2').
  revert Hd1 B1 B1' Hd2 B2 B2'. generalize (Zdigits2 u) (Zdigits2 v).
  intros d1 d2 Hd1 B1 B1' Hd2 B2 B2'.
  set (e := Z.min (fexp (d1 - d2)) 0).
  assert (He : e <= 0) by lia.
  assert (Hm : match 0 - e with
               | 0 => u
               | Z.pos _ => Z.shiftl u (0 - e)
               | Z.neg _ => 0
               end = u * 2 ^ (- e)).
  { replace (0 - e) with (- e) by lia.
    destruct (- e) as [|p|p] eqn:E; [lia| |lia].
    by rewrite Z.shiftl_mul_pow2. }
  rewrite Hm. pose proof (pow2_pos (- e) ltac:(lia)) as HP.
  set (m := u * 2 ^ (- e)) in *.
  assert (Hm0 : 0 <= m) by (unfold m; nia).
  pose proof (Z.div_mod m v ltac:(lia)) as Edm.
  pose proof (Z.mod_pos_bound m v Hv) as Bm.
  assert (Hde : Z.div_eucl m v = (m / v, m mod v)).
  { unfold Z.div, Z.modulo. by destruct (Z.div_eucl m v). }
  rewrite Hde. exists (m / v), e, (new_location v (m mod v)).
  split; [done|]. split; [by apply Z.div_pos|]. split.
  - rewrite new_location_code by done. unfold tcode.
    replace (Z.max 0 (1 - e)) with (1 + - e) by lia.
    replace (Z.max 0 (e - 1)) with 0 by lia.
    rewrite pow2_split, Z.pow_0_r, Z.mul_1_r by lia. change (2 ^ 1) with 2.
    replace (u * (2 * 2 ^ (- e))) with (2 * m) by (unfold m; ring).
    by rewrite sticky_half.
  - etrans; [apply Z.le_min_l|]. fold e. apply fexp_mono.
    destruct (Z_le_gt_dec (d1 - d2 - e) 0) as [Hk|Hk].
    + assert (0 <= Zdigits2 (m / v)); [|lia].
      destruct (m / v) as [|p|p] eqn:E; simpl; try lia.
    + assert (d1 - d2 - e <= Zdigits2 (m / v)); [|lia].
      replace (d1 - d2 - e) with ((d1 - d2 - e - 1) + 1) by lia.
      apply Zdigits2_ge; [lia|].
      apply Z.div_le_lower_bound; [lia|].
      assert (2 ^ (d1 - 1) * 2 ^ (- e) = 2 ^ (d1 - d2 - e - 1) * 2 ^ d2).
      { rewrite <- !pow2_split by lia. f_equal; lia. }
      pose proof (pow2_pos (d1 - d2 - e - 1) ltac:(lia)).
      unfold m. nia.
Qed.

Lemma int_truediv_rounds u v r : 0 < u -> 0 < v ->
  int_truediv u v = Ok r -> rounds u v r /\ is_finite r = true.
Proof.
  intros Hu Hv H. unfold int_truediv in H.
  destruct (Z.eqb_spec v 0); [lia|]. destruct (Z.eqb_spec u 0); [lia|].
  rewrite !Z.abs_eq in H by lia.
  destruct (div_core_spec u v Hu Hv) as (q & e & l & Hcore & Hq & Hc & He).
  rewrite Hcore in H.
  destruct (Z.ltb_spec u 0); [lia|]. destruct (Z.ltb_spec v 0); [lia|].
  cbn [xorb] in H.
  destruct (binary_round_aux_spec q e l u v Hq ltac:(lia) Hv Hc He)
    as (t & E & St & Hp).
  rewrite Hp in H.
  pose proof (pack_spec u v t E ltac:(lia) Hv St) as Hps.
  destruct (pack (rne t) E) as [s| | |s m e0] eqn:Ep.
  - injection H as <-. split; [|done]. right. exists t, E. by rewrite Ep.
  - done.
  - by destruct Hps.
  - injection H as <-. split; [|done]. right. exists t, E. by rewrite Ep.
Qed.

Lemma int_truediv_zero v r : 0 < v -> int_truediv 0 v = Ok r -> r = S754_zero false.
Proof.
  intros Hv H. unfold int_truediv in H.
  destruct (Z.eqb_spec v 0); [lia|]. simpl in H.
  destruct (Z.ltb_spec v 0); [lia|]. congruence.
Qed.

(** ** Finiteness is downward closed *)
Lemma rounds_finite_le u1 v1 r1 u2 v2 r2 :
  0 <= u1 -> 0 < v1 -> 0 <= u2 -> 0 < v2 ->
  rounds u1 v1 r1 -> rounds u2 v2 r2 ->
  u1 * v2 <= u2 * v1 -> is_finite r2 = true -> is_finite r1 = true.
Proof.
  intros Hu1 Hv1 Hu2 Hv2 [[_ [s ->]]|(t1 & E1 & S1 & ->)] R2 Hle F2; [done|].
  destruct R2 as [[-> _]|(t2 & E2 & S2 & ->)].
  - assert (u1 = 0) as -> by nia. destruct S1 as (-> & _).
    by rewrite tcode_zero.
  - pose proof (stage1_exp_mono _ _ _ _ _ _ _ _ Hu1 Hv1 Hu2 Hv2 S1 S2 Hle) as HE.
    pose proof (stage1_mono _ _ _ _ _ _ _ _ Hu1 Hv1 Hu2 Hv2 S1 S2 Hle) as Hm.
    destruct (stage1_bounds _ _ _ _ Hu1 Hv1 S1) as (_ & [A1 A2] & _).
    destruct (stage1_bounds _ _ _ _ Hu2 Hv2 S2) as (_ & [B1 B2] & _).
    destruct S1 as (_ & HE1 & _). destruct S2 as (_ & HE2 & _).
    revert Hm A1 A2 B1 B2 F2. generalize (rne t1) (rne t2).
    intros m1 m2 Hm A1 A2 B1 B2 F2.
    assert (HE2' : E2 <= 971 /\ (m2 = 2 ^ 53 -> E2 + 1 <= 971) \/ m2 = 0).
    { destruct m2 as [|p|p]; [by right| |lia]. left. cbn [pack] in F2.
      destruct (Z.eqb_spec (Z.pos p) (2 ^ 53)).
      - destruct (Z.leb_spec (E2 + 1) 971); [lia|done].
      - destruct (Z.leb_spec E2 971); [lia|done]. }
    destruct m1 as [|p|p]; [done| |lia]. cbn [pack].
    pose proof (pow2_pos (E1 - emin) ltac:(lia)) as HP.
    destruct HE2' as [[HE2a HE2b]| ->]; [|nia].
    destruct (Z.eqb_spec (Z.pos p) (2 ^ 53)) as [Hp|Hp].
    + destruct (Z.leb_spec (E1 + 1) 971) as [|Hgt]; [done|exfalso].
      assert (E1 = E2) as -> by lia.
      assert (m2 = 2 ^ 53) by nia. lia.
    + destruct (Z.leb_spec E1 971); [done|lia].
Qed.

(** ** The integral and fractional parts *)
Lemma whole_exact sec wholef : good sec ->
  float_of_int (ord sec / den) = Ok wholef ->
  good wholef /\ ord wholef = ord sec / den * den.
Proof.
  intros Hg H.
  assert (Hw : 0 <= ord sec / den)
    by (apply Z.div_pos; [apply good_ord_nonneg|apply den_pos]).
  destruct (float_of_int_ok _ _ Hw H) as [R F].
  split; [apply (rounds_good (ord sec / den) 1); [done|lia|done|done]|].
  pose proof (int_of_float_good sec Hg) as Hi.
  destruct sec as [s| | |[] m e]; try done.
  - cbn [ord] in *. rewrite Z.div_0_l in * by (pose proof den_pos; lia).
    destruct R as [[_ [s' ->]]|(t & E & St & ->)]; [done|].
    destruct St as (-> & _). by rewrite tcode_zero.
  - destruct (good_facts _ _ Hg) as ([H1 H2] & H3 & _).
    cbn [int_of_float cond_Zopp] in Hi. injection Hi as Hi.
    cbn [ord] in H, Hw, R |- *. rewrite <- Hi in *.
    destruct (Z_le_gt_dec 0 e) as [He|He].
    + rewrite Z.shiftl_mul_pow2 in * by lia.
      assert (Hdy : is_dyadic (Z.pos m * 2 ^ e) 1 (Z.pos m) e).
      { unfold is_dyadic. replace (Z.max 0 (- e)) with 0 by lia.
        replace (Z.max 0 e) with e by lia. rewrite Z.pow_0_r. ring. }
      rewrite (rounds_exact _ 1 _ (Z.pos m) e Hw ltac:(lia) R F Hdy
                 ltac:(lia) ltac:(lia)).
      unfold den, emin. replace (e - -1074) with (e + 1074) by lia.
      rewrite pow2_split by lia. ring.
    + rewrite Z.shiftl_div_pow2 in * by lia.
      pose proof (pow2_pos (- e) ltac:(lia)).
      assert (Z.pos m / 2 ^ (- e) <= Z.pos m).
      { apply Z.div_le_upper_bound; [lia|]. nia. }
      assert (Hdy : is_dyadic (Z.pos m / 2 ^ (- e)) 1 (Z.pos m / 2 ^ (- e)) 0).
      { unfold is_dyadic. change (Z.max 0 (- 0)) with 0.
        change (Z.max 0 0) with 0. rewrite Z.pow_0_r. ring. }
      rewrite (rounds_exact _ 1 _ (Z.pos m / 2 ^ (- e)) 0 Hw ltac:(lia) R F Hdy
                 ltac:(lia) ltac:(unfold emin; lia)).
      reflexivity.
Qed.

Lemma frac_rounds sec wholef : good sec ->
  float_of_int (ord sec / den) = Ok wholef ->
  let frac := fsub sec wholef in
  rounds (ord sec mod den) den frac /\ is_finite frac = true /\ good frac.
Proof.
  intros Hg H frac. destruct (whole_exact _ _ Hg H) as [Hgw Hw].
  pose proof den_pos as Hd.
  pose proof (good_ord_nonneg sec) as H0.
  pose proof (Z.div_mod (ord sec) den ltac:(lia)) as Edm.
  pose proof (Z.mod_pos_bound (ord sec) den Hd) as Bm.
  assert (Hle : ord wholef <= ord sec) by lia.
  pose proof (fsub_rounds sec wholef Hg Hgw Hle) as R.
  replace (ord sec - ord wholef) with (ord sec mod den) in R by lia.
  assert (F : is_finite frac = true).
  { apply (rounds_finite_le (ord sec mod den) den frac (ord sec) den sec);
      try lia; try done.
    - by apply good_rounds.
    - pose proof (Z.div_pos (ord sec) den H0 Hd).
      apply Z.mul_le_mono_nonneg_r; [lia|]. nia.
    - by destruct sec as [| | |[]]. }
  split; [done|]. split; [done|]. apply (rounds_good (ord sec mod den) den); [lia|done..].
Qed.

(** ** The microseconds of [timedelta] and the milliseconds of [_fmt_time] *)
Definition micros (sec : float) : result Z :=
  whole ← int_of_float sec;
  wholef ← float_of_int whole;
  us0 ← round_half_even (fmul (fsub sec wholef) (float_const 1000000));
  Ok (whole * 1000000 + us0).

Lemma timedelta_micros sec td : timedelta_of_seconds sec = Ok td ->
  micros sec =
    Ok ((days td * 86400 + seconds td) * 10 ^ 6 + microseconds td).
Proof.
  unfold timedelta_of_seconds, micros. intros H.
  destruct (int_of_float sec) as [whole|]; [|done]. cbn [mbind result_bind] in *.
  destruct (float_of_int whole) as [wholef|]; [|done]. cbn [mbind result_bind] in *.
  destruct (round_half_even _) as [us0|]; [|done]. cbn [mbind result_bind] in *.
  destruct (_ <? _); [done|]. injection H as <-. cbn [days seconds microseconds].
  f_equal. change (10 ^ 6) with 1000000. change (24 * 3600) with 86400.
  Z.to_euclidean_division_equations. lia.
Qed.

Lemma float_const_1e6 :
  float_const 1000000 = S754_finite false 8589934592000000 (-33).
Proof. reflexivity. Qed.

Lemma float_of_int_1000 :
  float_of_int 1000 = Ok (S754_finite false 8796093022208000 (-43)).
Proof. reflexivity. Qed.

Lemma is_finite_of_round x n : round_half_even x = Ok n -> is_finite x = true.
Proof. by destruct x. Qed.

Lemma is_finite_of_int x n : int_of_float x = Ok n -> is_finite x = true.
Proof. by destruct x. Qed.

Lemma rne_sticky_nonneg N D : 0 <= N -> 0 < D -> 0 <= rne (sticky N D).
Proof.
  intros. pose proof (sticky_nonneg N D ltac:(lia) ltac:(lia)).
  pose proof (rne_bounds (sticky N D)).
  pose proof (Z.div_pos (sticky N D) 4 ltac:(lia) ltac:(lia)). lia.
Qed.

(** What [micros] computes, for a non-negative finite float. *)
Lemma micros_spec sec u : good sec -> micros sec = Ok u ->
  exists frac usd,
    rounds (ord sec mod den) den frac /\ good frac
    /\ rounds (ord frac * ord (float_const 1000000)) (den * den) usd
    /\ good usd
    /\ u = ord sec / den * 1000000 + rne (sticky (2 * ord usd) den).
Proof.
  intros Hg H. unfold micros in H. rewrite (int_of_float_good sec Hg) in H.
  cbn [mbind result_bind] in H.
  destruct (float_of_int (ord sec / den)) as [wholef|] eqn:Ew; [|done].
  cbn [mbind result_bind] in H.
  destruct (frac_rounds sec wholef Hg Ew) as (Rf & Ff & Gf).
  set (frac := fsub sec wholef) in *.
  destruct (round_half_even _) as [us0|] eqn:Er; [|done].
  cbn [mbind result_bind] in H. injection H as <-.
  pose proof (is_finite_of_round _ _ Er) as Fu.
  assert (Ru : rounds (ord frac * ord (float_const 1000000)) (den * den)
                 (fmul frac (float_const 1000000))).
  { rewrite float_const_1e6. apply fmul_rounds; [done|by vm_compute|by vm_compute]. }
  pose proof den_pos as Hd.
  assert (Gu : good (fmul frac (float_const 1000000))).
  { eapply rounds_good; [| |exact Ru|exact Fu]; [|nia].
    apply Z.mul_nonneg_nonneg; apply good_ord_nonneg. }
  exists frac, (fmul frac (float_const 1000000)).
  repeat (split; [done|]).
  rewrite (round_half_even_good _ Gu) in Er. by injection Er as <-.
Qed.

Lemma ord_1e6 : ord (float_const 1000000) = 1000000 * den.
Proof. by vm_compute. Qed.

Lemma ord_one : ord (float_const 1) = den.
Proof. by vm_compute. Qed.

Lemma micros_mono a b ua ub :
  good a -> good b -> ord a <= ord b ->
  micros a = Ok ua -> micros b = Ok ub -> 0 <= ua <= ub.
Proof.
  intros Ga Gb Hle Ha Hb.
  destruct (micros_spec a ua Ga Ha) as (fa & usa & Rfa & Gfa & Rua & Gua & ->).
  destruct (micros_spec b ub Gb Hb) as (fb & usb & Rfb & Gfb & Rub & Gub & ->).
  pose proof den_pos as Hd.
  pose proof (good_ord_nonneg a) as Ha0. pose proof (good_ord_nonneg b) as Hb0.
  pose proof (Z.div_pos (ord a) den Ha0 Hd) as Wa0.
  pose proof (Z.div_le_mono (ord a) (ord b) den Hd Hle) as HW.
  pose proof (Z.div_mod (ord a) den ltac:(lia)) as Ea.
  pose proof (Z.div_mod (ord b) den ltac:(lia)) as Eb.
  pose proof (Z.mod_pos_bound (ord a) den Hd) as Ba.
  pose proof (Z.mod_pos_bound (ord b) den Hd) as Bb.
  pose proof (good_ord_nonneg fa) as Hfa0. pose proof (good_ord_nonneg fb) as Hfb0.
  pose proof (good_ord_nonneg usa) as Hua0. pose proof (good_ord_nonneg usb) as Hub0.
  pose proof (rne_sticky_nonneg (2 * ord usa) den ltac:(lia) Hd) as Na.
  pose proof (rne_sticky_nonneg (2 * ord usb) den ltac:(lia) Hd) as Nb.
  assert (Fin : forall x, good x -> is_finite x = true)
    by (by intros [| | |[]]).
  split; [lia|].
  destruct (Z.eq_dec (ord a / den) (ord b / den)) as [EW|NW].
  - rewrite EW. apply Z.add_le_mono_l.
    assert (Hf : ord fa <= ord fb).
    { apply (rounds_mono (ord a mod den) den fa (ord b mod den) den fb);
        try lia; try done; try by apply Fin. nia. }
    assert (Hu : ord usa <= ord usb).
    { rewrite ord_1e6 in *.
      apply (rounds_mono (ord fa * (1000000 * den)) (den * den) usa
                         (ord fb * (1000000 * den)) (den * den) usb);
        try nia; try done; try by apply Fin.
      apply Z.mul_le_mono_nonneg_r; nia. }
    apply rne_mono, sticky_mono; try lia. nia.
  - assert (Hf : ord fa <= den).
    { rewrite <- ord_one.
      apply (rounds_mono (ord a mod den) den fa 1 1 (float_const 1));
        try lia; try done; try by apply Fin.
      by apply float_const_rounds. }
    assert (Hu : ord usa <= 1000000 * den).
    { assert (R1 : rounds (ord (float_const 1) * ord (float_const 1000000))
                     (den * den) (float_const 1000000)).
      { change (float_const 1000000) with
          (fmul (float_const 1) (float_const 1000000)) at 2.
        rewrite float_const_1e6.
        apply fmul_rounds; by vm_compute. }
      rewrite ord_one in R1. rewrite <- ord_1e6.
      rewrite ord_1e6 in Rua, R1.
      apply (rounds_mono (ord fa * (1000000 * den)) (den * den) usa
                         (den * (1000000 * den)) (den * den)
                         (float_const 1000000));
        first [done | by apply Fin | nia]. }
    assert (Hr : rne (sticky (2 * ord usa) den) <= 1000000).
    { rewrite <- (rne_exact 1000000), <- (sticky_exact 1000000 den Hd).
      apply rne_mono, sticky_mono; try lia. nia. }
    nia.
Qed.

Lemma good_finite_true x : good x -> is_finite x = true.
Proof. by destruct x as [| | |[]]. Qed.

Lemma truediv_good u ts : 0 <= u -> int_truediv u (10 ^ 6) = Ok ts ->
  rounds u (10 ^ 6) ts /\ good ts.
Proof.
  intros Hu H. destruct (Z.eq_dec u 0) as [->|Hne].
  - apply int_truediv_zero in H; [|done]. subst ts.
    split; [|done]. left. split; [done|]. by eexists.
  - destruct (int_truediv_rounds u (10 ^ 6) ts ltac:(lia) ltac:(done) H)
      as [R F].
    split; [done|]. by apply (rounds_good u (10 ^ 6)).
Qed.

Lemma ms_spec ts m : good ts ->
  int_of_float (fmul ts (S754_finite false 8796093022208000 (-43))) = Ok m ->
  exists p,
    rounds (ord ts * ord (S754_finite false 8796093022208000 (-43)))
           (den * den) p
    /\ good p /\ m = ord p / den.
Proof.
  intros Hg H. set (c := S754_finite false 8796093022208000 (-43)) in *.
  assert (R : rounds (ord ts * ord c) (den * den) (fmul ts c)).
  { apply fmul_rounds; [done|by vm_compute|by vm_compute]. }
  pose proof den_pos as Hd.
  assert (G : good (fmul ts c)).
  { eapply rounds_good; [| |exact R|exact (is_finite_of_int _ _ H)]; [|nia].
    apply Z.mul_nonneg_nonneg; apply good_ord_nonneg. }
  exists (fmul ts c). split; [done|]. split; [done|].
  rewrite (int_of_float_good _ G) in H. by injection H.
Qed.

Lemma total_ms_of_spec sec t : total_ms_of sec = Ok t ->
  exists u ts,
    micros sec = Ok u /\ int_truediv u (10 ^ 6) = Ok ts
    /\ int_of_float (fmul ts (S754_finite false 8796093022208000 (-43))) = Ok t.
Proof.
  unfold total_ms_of. intros H.
  destruct (timedelta_of_seconds sec) as [td|] eqn:Etd; [|done].
  cbn [mbind result_bind] in H. unfold total_seconds in H.
  destruct (int_truediv _ _) as [ts|] eqn:Ets; [|done].
  rewrite float_of_int_1000 in H. cbn [mbind result_bind] in H.
  eexists _, ts. split; [by apply timedelta_micros|]. done.
Qed.

(** The milliseconds are a non-decreasing function of the seconds. *)
Lemma total_ms_mono a b ta tb :
  good a -> good b -> ord a <= ord b ->
  total_ms_of a = Ok ta -> total_ms_of b = Ok tb -> 0 <= ta <= tb.
Proof.
  intros Ga Gb Hle Ha Hb.
  destruct (total_ms_of_spec a ta Ha) as (ua & tsa & Hua & Htsa & Hma).
  destruct (total_ms_of_spec b tb Hb) as (ub & tsb & Hub & Htsb & Hmb).
  destruct (micros_mono a b ua ub Ga Gb Hle Hua Hub) as [Hu0 Hu].
  destruct (truediv_good ua tsa Hu0 Htsa) as [Rta Gta].
  destruct (truediv_good ub tsb ltac:(lia) Htsb) as [Rtb Gtb].
  assert (Hts : ord tsa <= ord tsb).
  { apply (rounds_mono ua (10 ^ 6) tsa ub (10 ^ 6) tsb);
      first [done | lia | by apply good_finite_true | nia]. }
  destruct (ms_spec tsa ta Gta Hma) as (pa & Rpa & Gpa & ->).
  destruct (ms_spec tsb tb Gtb Hmb) as (pb & Rpb & Gpb & ->).
  pose proof den_pos as Hd.
  pose proof (good_ord_nonneg tsa). pose proof (good_ord_nonneg tsb).
  pose proof (good_ord_nonneg pa).
  assert (Hc : 0 < ord (S754_finite false 8796093022208000 (-43)))
    by (by vm_compute).
  assert (Hp : ord pa <= ord pb).
  { revert Rpa Rpb Hc. generalize (ord (S754_finite false 8796093022208000 (-43))).
    intros c Rpa Rpb Hc.
    apply (rounds_mono (ord tsa * c) (den * den) pa (ord tsb * c) (den * den) pb);
      first [done | by apply good_finite_true | nia | idtac].
    apply Z.mul_le_mono_nonneg_r; nia. }
  split; [by apply Z.div_pos|]. by apply Z.div_le_mono.
Qed.

(* ================================================================== *)
(** * Properties of the time formatter: when it returns *)
(* ================================================================== *)

Lemma float_of_int_le z x : 0 <= z -> good x -> z * den <= ord x ->
  float_of_int z = Ok (float_const z) /\ is_finite (float_const z) = true.
Proof.
  intros Hz Hg Hle. pose proof (float_const_rounds z Hz) as R.
  pose proof den_pos as Hd.
  assert (F : is_finite (float_const z) = true).
  { apply (rounds_finite_le z 1 _ (ord x) den x);
      first [done | lia | apply good_ord_nonneg | by apply good_rounds
            | by apply good_finite_true]. }
  split; [|done]. unfold float_of_int. by destruct (float_const z).
Qed.

(** [timedelta] finds the microseconds of every non-negative finite float:
    between the whole seconds and one second more. *)
Lemma micros_defined sec : good sec ->
  exists u, micros sec = Ok u
    /\ ord sec / den * 1000000 <= u <= ord sec / den * 1000000 + 1000000.
Proof.
  intros Hg. pose proof den_pos as Hd. pose proof (good_ord_nonneg sec) as H0.
  assert (Hw : 0 <= ord sec / den) by (apply Z.div_pos; lia).
  pose proof (Z.mod_pos_bound (ord sec) den Hd) as Bm.
  destruct (float_of_int_le (ord sec / den) sec Hw Hg) as [Ew Fw].
  { pose proof (Z.mul_div_le (ord sec) den Hd). lia. }
  destruct (frac_rounds sec _ Hg Ew) as (Rf & Ff & Gf).
  unfold micros. rewrite (int_of_float_good sec Hg). cbn [mbind result_bind].
  rewrite Ew. cbn [mbind result_bind].
  set (frac := fsub sec (float_const (ord sec / den))) in *.
  pose proof (good_ord_nonneg frac) as Hf0.
  assert (Ru : rounds (ord frac * ord (float_const 1000000)) (den * den)
                 (fmul frac (float_const 1000000))).
  { rewrite float_const_1e6. apply fmul_rounds; [done|by vm_compute|by vm_compute]. }
  assert (Hf1 : ord frac <= den).
  { rewrite <- ord_one.
    apply (rounds_mono (ord sec mod den) den frac 1 1 (float_const 1));
      try lia; try done. by apply float_const_rounds. }
  assert (R1 : rounds (ord (float_const 1) * ord (float_const 1000000))
                 (den * den) (float_const 1000000)).
  { change (float_const 1000000) with
      (fmul (float_const 1) (float_const 1000000)) at 2.
    rewrite float_const_1e6. apply fmul_rounds; by vm_compute. }
  rewrite ord_one in R1. rewrite ord_1e6 in Ru, R1.
  assert (Fu : is_finite (fmul frac (float_const 1000000)) = true).
  { apply (rounds_finite_le (ord frac * (1000000 * den)) (den * den) _
             (den * (1000000 * den)) (den * den) (float_const 1000000));
      first [done | nia]. }
  assert (Gu : good (fmul frac (float_const 1000000))).
  { eapply rounds_good; [| |exact Ru|exact Fu]; nia. }
  rewrite (round_half_even_good _ Gu). cbn [mbind result_bind].
  eexists. split; [done|].
  assert (Hu : ord (fmul frac (float_const 1000000)) <= 1000000 * den).
  { rewrite <- ord_1e6.
    apply (rounds_mono (ord frac * (1000000 * den)) (den * den) _
                       (den * (1000000 * den)) (den * den)
                       (float_const 1000000));
      first [done | nia]. }
  revert Hu. generalize (fmul frac (float_const 1000000)). intros usd Hu.
  pose proof (good_ord_nonneg usd) as Hu0.
  pose proof (rne_sticky_nonneg (2 * ord usd) den ltac:(lia) Hd) as Nn.
  assert (Hr : rne (sticky (2 * ord usd) den) <= 1000000).
  { rewrite <- (rne_exact 1000000), <- (sticky_exact 1000000 den Hd).
    apply rne_mono, sticky_mono; try lia.
    pose proof (Z.mul_le_mono_nonneg_r _ _ den ltac:(lia) Hu). lia. }
  lia.
Qed.

(** The range check of [timedelta]: at most 999999999 days. *)
Lemma timedelta_of_micros sec u : micros sec = Ok u ->
  timedelta_of_seconds sec =
    if 999999999 <? Z.abs (u / 1000000 / 86400) then Raise OverflowError
    else Ok {| days := u / 1000000 / 86400;
               seconds := (u / 1000000) mod 86400;
               microseconds := u mod 1000000 |}.
Proof.
  unfold timedelta_of_seconds, micros. intros H.
  destruct (int_of_float sec) as [whole|]; [|done]. cbn [mbind result_bind] in *.
  destruct (float_of_int whole) as [wholef|]; [|done]. cbn [mbind result_bind] in *.
  destruct (round_half_even _) as [us0|]; [|done]. cbn [mbind result_bind] in *.
  injection H as <-. change (24 * 3600) with 86400.
  assert (E1 : whole / 86400 + (whole mod 86400 + us0 / 1000000) / 86400
               = (whole * 1000000 + us0) / 1000000 / 86400)
    by (Z.to_euclidean_division_equations; lia).
  assert (E2 : (whole mod 86400 + us0 / 1000000) mod 86400
               = ((whole * 1000000 + us0) / 1000000) mod 86400)
    by (Z.to_euclidean_division_equations; lia).
  assert (E3 : us0 mod 1000000 = (whole * 1000000 + us0) mod 1000000)
    by (Z.to_euclidean_division_equations; lia).
  by rewrite E1, E2, E3.
Qed.

Lemma int_truediv_defined u v x :
  0 <= u -> 0 < v -> good x -> u * den <= ord x * v ->
  exists r, int_truediv u v = Ok r /\ rounds u v r /\ good r.
Proof.
  intros Hu Hv Hg Hle. pose proof den_pos as Hd.
  destruct (Z.eq_dec u 0) as [->|Hne].
  - exists (S754_zero false). split; [|split; [|done]].
    + unfold int_truediv. destruct (Z.eqb_spec v 0); [lia|].
      cbn [Z.eqb]. by destruct (Z.ltb_spec v 0); [lia|].
    + left. split; [done|]. by eexists.
  - unfold int_truediv.
    destruct (Z.eqb_spec v 0); [lia|]. destruct (Z.eqb_spec u 0); [lia|].
    rewrite !Z.abs_eq by lia.
    destruct (div_core_spec u v ltac:(lia) Hv) as (q & e & l & Hcore & Hq & Hc & He).
    rewrite Hcore.
    destruct (Z.ltb_spec u 0); [lia|]. destruct (Z.ltb_spec v 0); [lia|].
    cbn [xorb].
    destruct (binary_round_aux_spec q e l u v Hq ltac:(lia) Hv Hc He)
      as (t & E & St & Hp).
    rewrite Hp.
    assert (R : rounds u v (pack (rne t) E)) by (right; by exists t, E).
    assert (F : is_finite (pack (rne t) E) = true).
    { apply (rounds_finite_le u v _ (ord x) den x);
        first [done | lia | apply good_ord_nonneg | by apply good_rounds
              | by apply good_finite_true]. }
    exists (pack (rne t) E). split; [by destruct (pack (rne t) E)|].
    split; [done|]. by apply (rounds_good u v).
Qed.

Lemma ms_defined ts x : good ts -> good x -> ord ts <= ord x ->
  is_finite (fmul x (S754_finite false 8796093022208000 (-43))) = true ->
  exists m,
    int_of_float (fmul ts (S754_finite false 8796093022208000 (-43))) = Ok m.
Proof.
  intros Gt Gx Hle Fx. set (c := S754_finite false 8796093022208000 (-43)) in *.
  assert (Gc : good c) by (by vm_compute).
  assert (Hc : 2 ^ 52 <= 8796093022208000) by (by vm_compute).
  pose proof (fmul_rounds ts _ _ Gt Gc Hc) as Rt.
  pose proof (fmul_rounds x _ _ Gx Gc Hc) as Rx.
  pose proof den_pos as Hd.
  pose proof (good_ord_nonneg ts). pose proof (good_ord_nonneg x).
  pose proof (good_ord_nonneg c).
  fold c in Rt, Rx.
  assert (F : is_finite (fmul ts c) = true).
  { apply (rounds_finite_le (ord ts * ord c) (den * den) (fmul ts c)
             (ord x * ord c) (den * den) (fmul x c));
      first [done | nia | idtac].
    apply Z.mul_le_mono_nonneg_r; [nia|].
    apply Z.mul_le_mono_nonneg_r; lia. }
  assert (G : good (fmul ts c)).
  { eapply rounds_good; [| |exact Rt|exact F]; nia. }
  eexists. by apply int_of_float_good.
Qed.

(** [_fmt_time] finds the milliseconds of every non-negative finite float
    whose whole seconds stay below the last second of day 999999999. *)
Lemma total_ms_defined sec : good sec -> ord sec / den <= 86399999999998 ->
  exists t, total_ms_of sec = Ok t.
Proof.
  intros Hg Hb. pose proof den_pos as Hd.
  pose proof (good_ord_nonneg sec) as H0.
  assert (Hw : 0 <= ord sec / den) by (apply Z.div_pos; lia).
  destruct (micros_defined sec Hg) as (u & Hu & Bu).
  unfold total_ms_of. rewrite (timedelta_of_micros sec u Hu).
  assert (Hq : 0 <= u / 1000000 / 86400 <= 999999999).
  { split; [repeat apply Z.div_pos; lia|].
    Z.to_euclidean_division_equations. lia. }
  destruct (Z.ltb_spec 999999999 (Z.abs (u / 1000000 / 86400))) as [?|_]; [lia|].
  cbn [mbind result_bind]. unfold total_seconds.
  cbn [days seconds microseconds].
  assert (Eu : (u / 1000000 / 86400 * 86400 + (u / 1000000) mod 86400) * 10 ^ 6
               + u mod 1000000 = u).
  { change (10 ^ 6) with 1000000. Z.to_euclidean_division_equations. lia. }
  rewrite Eu.
  assert (Gx : good (float_const (2 ^ 47))) by (by vm_compute).
  assert (Ex : ord (float_const (2 ^ 47)) = 2 ^ 47 * den) by (by vm_compute).
  destruct (int_truediv_defined u (10 ^ 6) (float_const (2 ^ 47)))
    as (ts & Ets & Rts & Gts); [lia|done|done| |].
  { rewrite Ex. change (10 ^ 6) with 1000000.
    apply Z.le_trans with (86399999999999000000 * den); [nia|].
    change (2 ^ 47) with 140737488355328. nia. }
  rewrite Ets. cbn [mbind result_bind]. rewrite float_of_int_1000.
  cbn [mbind result_bind].
  apply (ms_defined ts (float_const (2 ^ 47))); [done|done| |by vm_compute].
  apply (rounds_mono u (10 ^ 6) ts (2 ^ 47) 1 (float_const (2 ^ 47)));
    first [done | lia | by apply good_finite_true
          | by apply float_const_rounds].
Qed.

Lemma fmt_time_inv sec s : _fmt_time sec = Ok s ->
  exists t, total_ms_of sec = Ok t /\ s = fmt_ms t.
Proof.
  unfold _fmt_time. destruct (total_ms_of sec) as [t|]; [|done].
  cbn [mbind result_bind]. intros [= <-]. by exists t.
Qed.

Lemma total_ms_nonneg sec t : good sec -> total_ms_of sec = Ok t -> 0 <= t.
Proof.
  intros Hg H. by destruct (total_ms_mono sec sec t t Hg Hg ltac:(lia) H H).
Qed.

Lemma fmt_ms_length t : 0 <= t ->
  (12 <= length (fmt_ms t))%nat
  /\ (t < 360000000 -> length (fmt_ms t) = 12%nat).
Proof.
  intros Ht.
  destruct (fmt_ms_fields t Ht) as (_ & (L1 & L2 & L3 & L4) & _).
  assert (H1 : 0 <= t / 3600000) by (apply Z.div_pos; lia).
  destruct (format_0d_spec 2 _ H1) as (_ & _ & _ & A).
  unfold fmt_ms. cbv zeta.
  change (py ":") with [58%N]. change (py ",") with [44%N].
  rewrite !length_app. cbn [length]. rewrite L2, L3, L4.
  split; [lia|]. intros Hlt. rewrite A; [lia| |lia].
  change (10 ^ Z.of_nat 2) with 100. apply Z.div_lt_upper_bound; lia.
Qed.

(* ================================================================== *)
(** * The time formatter on non-negative finite times *)
(* ================================================================== *)

Lemma flt_whole_bound sec k :
  good sec -> good (float_const k) -> ord (float_const k) = k * den ->
  flt sec (float_const k) = true -> ord sec / den <= k - 1.
Proof.
  intros Hg Gk Ek H. apply (flt_ord sec _ Hg Gk) in H. rewrite Ek in H.
  pose proof den_pos as Hd.
  assert (ord sec / den < k); [|lia].
  apply Z.div_lt_upper_bound; lia.
Qed.

(** X1.  [_fmt_time] returns for every finite time from 0 up to, and excluding,
    86399999999999 seconds: the whole range of [timedelta] but its last
    second. *)
Theorem fmt_time_defined (sec : float) :
  good sec -> flt sec (float_const 86399999999999) = true ->
  exists s, _fmt_time sec = Ok s.
Proof.
  intros Hg Hlt.
  destruct (total_ms_defined sec Hg) as [t Ht].
  { apply (flt_whole_bound sec 86399999999999 Hg) in Hlt; [lia| |];
      by vm_compute. }
  exists (fmt_ms t). unfold _fmt_time. by rewrite Ht.
Qed.

Lemma fmt_time_defined_witness :
  exists s, _fmt_time (float_lit 612345 4) = Ok s.
Proof. apply fmt_time_defined; by vm_compute. Defined.

(** X2.  From 86400000000000 seconds on (one billion days) [timedelta] refuses
    the time and [_fmt_time] raises [OverflowError]. *)
Theorem fmt_time_overflow (sec : float) :
  good sec -> fle (float_const 86400000000000) sec = true ->
  _fmt_time sec = Raise OverflowError.
Proof.
  intros Hg Hle. pose proof den_pos as Hd.
  apply (fle_ord _ sec) in Hle; [|by vm_compute|done].
  assert (Ek : ord (float_const 86400000000000) = 86400000000000 * den)
    by (by vm_compute).
  rewrite Ek in Hle.
  assert (Hw : 86400000000000 <= ord sec / den)
    by (apply Z.div_le_lower_bound; lia).
  destruct (micros_defined sec Hg) as (u & Hu & Bu).
  unfold _fmt_time, total_ms_of. rewrite (timedelta_of_micros sec u Hu).
  assert (Hq : 1000000000 <= u / 1000000 / 86400).
  { Z.to_euclidean_division_equations. lia. }
  by destruct (Z.ltb_spec 999999999 (Z.abs (u / 1000000 / 86400))) as [_|?];
    [|lia].
Qed.

Lemma fmt_time_overflow_witness :
  _fmt_time (float_const 86400000000000) = Raise OverflowError.
Proof. apply fmt_time_overflow; by vm_compute. Defined.

(** X3.  The timecode of a non-negative finite time is [H:MM:SS,mmm] made of
    decimal digits: hours on two characters or more, minutes and seconds on
    two with values below 60, milliseconds on three, read off the
    non-negative millisecond count [int(td.total_seconds() * 1000)]. *)
Theorem fmt_time_fields (sec : float) (s : pystr) :
  good sec -> _fmt_time sec = Ok s ->
  exists total_ms H M S MS,
    total_ms_of sec = Ok total_ms /\ 0 <= total_ms
    /\ s = H ++ py ":" ++ M ++ py ":" ++ S ++ py "," ++ MS
    /\ timecode_fields total_ms H M S MS
    /\ (decimal_value M < 60)%N /\ (decimal_value S < 60)%N.
Proof.
  intros Hg H. destruct (fmt_time_inv sec s H) as (t & Ht & ->).
  pose proof (total_ms_nonneg sec t Hg Ht) as H0.
  pose proof (fmt_ms_fields t H0) as HF.
  exists t, (format_0d 2 (t / 3600000)), (format_0d 2 ((t / 60000) mod 60)),
    (format_0d 2 ((t / 1000) mod 60)), (format_0d 3 (t mod 1000)).
  split; [done|]. split; [done|]. split; [done|]. split; [done|].
  destruct HF as (_ & _ & _ & V2 & V3 & _).
  pose proof (Z.mod_pos_bound (t / 60000) 60 ltac:(lia)).
  pose proof (Z.mod_pos_bound (t / 1000) 60 ltac:(lia)).
  lia.
Qed.

Lemma fmt_time_fields_witness :
  exists total_ms H M S MS,
    total_ms_of (float_lit 612345 4) = Ok total_ms /\ 0 <= total_ms
    /\ py "00:01:01,234" = H ++ py ":" ++ M ++ py ":" ++ S ++ py "," ++ MS
    /\ timecode_fields total_ms H M S MS
    /\ (decimal_value M < 60)%N /\ (decimal_value S < 60)%N.
Proof. apply fmt_time_fields; by vm_compute. Defined.

(** X4.  Up to 359999.999 seconds the timecode has exactly twelve characters,
    [HH:MM:SS,mmm]. *)
Theorem fmt_time_twelve (sec : float) :
  good sec -> fle sec (float_lit 359999999 3) = true ->
  exists s, _fmt_time sec = Ok s /\ length s = 12%nat.
Proof.
  intros Hg Hle.
  assert (Gb : good (float_lit 359999999 3)) by (by vm_compute).
  assert (Hb : total_ms_of (float_lit 359999999 3) = Ok 359999999)
    by (by vm_compute).
  pose proof (proj1 (fle_ord _ _ Hg Gb) Hle) as Ho.
  destruct (total_ms_defined sec Hg) as [t Ht].
  { pose proof den_pos as Hd.
    assert (Eb : ord (float_lit 359999999 3) / den = 359999) by (by vm_compute).
    pose proof (Z.div_le_mono _ _ den Hd Ho). lia. }
  destruct (total_ms_mono sec _ t _ Hg Gb Ho Ht Hb) as [H0 H1].
  exists (fmt_ms t). split; [unfold _fmt_time; by rewrite Ht|].
  apply fmt_ms_length; lia.
Qed.

Lemma fmt_time_twelve_witness :
  exists s, _fmt_time (float_lit 15 1) = Ok s /\ length s = 12%nat.
Proof. apply fmt_time_twelve; by vm_compute. Defined.

(** X5.  [_fmt_time] is monotone: of two non-negative finite times, the later
    one never gets the smaller timecode, compared as strings, as long as
    both timecodes have the same length (the same width of the hours). *)
Theorem fmt_time_monotone (a b : float) (sa sb : pystr) :
  good a -> good b -> fle a b = true ->
  _fmt_time a = Ok sa -> _fmt_time b = Ok sb ->
  length sa = length sb -> str_le sa sb = true.
Proof.
  intros Ga Gb Hle Ha Hb Hlen.
  destruct (fmt_time_inv a sa Ha) as (ta & Hta & ->).
  destruct (fmt_time_inv b sb Hb) as (tb & Htb & ->).
  pose proof (proj1 (fle_ord a b Ga Gb) Hle) as Ho.
  pose proof (total_ms_mono a b ta tb Ga Gb Ho Hta Htb).
  by apply fmt_ms_mono.
Qed.

Lemma fmt_time_monotone_witness :
  str_le (py "00:00:01,500") (py "00:01:01,234") = true.
Proof.
  apply (fmt_time_monotone (float_lit 15 1) (float_lit 612345 4));
    by vm_compute.
Defined.

(* ================================================================== *)
(** * The time formatter: the exceptions it can raise *)
(* ================================================================== *)

(** Rounding never produces a NaN. *)
Lemma shr_1_nonneg mrs : 0 <= shr_m mrs -> 0 <= shr_m (shr_1 mrs).
Proof. destruct mrs as [[|[p|p|]|p] r s]; simpl; lia. Qed.

Lemma iter_shr_1_nonneg p : forall mrs,
  0 <= shr_m mrs -> 0 <= shr_m (SpecFloat.iter_pos shr_1 p mrs).
Proof.
  induction p as [p IH|p IH|]; intros mrs H; simpl.
  - by apply IH, IH, shr_1_nonneg.
  - by apply IH, IH.
  - by apply shr_1_nonneg.
Qed.

Lemma shr_fexp_nonneg m e l :
  0 <= m -> 0 <= shr_m (shr_fexp prec emax m e l).1.
Proof.
  intros H. unfold shr_fexp, shr.
  destruct (_ - _) as [|p|p]; simpl; try by destruct l as [|[]].
  apply iter_shr_1_nonneg. by destruct l as [|[]].
Qed.

Lemma round_nearest_even_nonneg m l : 0 <= m -> 0 <= round_nearest_even m l.
Proof. intros H. destruct l as [|[]]; simpl; try lia. destruct (Z.even m); lia. Qed.

Lemma binary_round_aux_not_nan s mx ex lx :
  0 <= mx -> binary_round_aux prec emax s mx ex lx <> S754_nan.
Proof.
  intros H. unfold binary_round_aux.
  pose proof (shr_fexp_nonneg mx ex lx H) as H1.
  destruct (shr_fexp prec emax mx ex lx) as [mrs' e'].
  pose proof (shr_fexp_nonneg _ e' loc_Exact
                (round_nearest_even_nonneg (shr_m mrs') (loc_of_shr_record mrs') H1))
    as H2.
  destruct (shr_fexp prec emax _ e' loc_Exact) as [mrs'' e''].
  cbn [fst] in H2. destruct (shr_m mrs''); [done| |lia].
  by destruct (_ <=? _).
Qed.

Lemma binary_normalize_not_nan m e s : binary_normalize prec emax m e s <> S754_nan.
Proof.
  unfold binary_normalize, binary_round.
  destruct m; [done| |];
    destruct (shl_align _ _ _); by apply binary_round_aux_not_nan.
Qed.

Lemma fsub_not_nan x y :
  is_finite x = true -> is_finite y = true -> fsub x y <> S754_nan.
Proof.
  destruct x as [sx| | |sx mx ex], y as [sy| | |sy my ey]; try done; intros _ _;
    unfold fsub, SFsub; try done; try (by destruct sx, sy).
  apply binary_normalize_not_nan.
Qed.

Lemma float_of_int_finite z x : float_of_int z = Ok x -> is_finite x = true.
Proof.
  unfold float_of_int. pose proof (binary_normalize_not_nan z 0 false) as Hn.
  fold (float_const z) in Hn.
  destruct (float_const z); try done; by intros [= <-].
Qed.

Lemma float_of_int_raises z e : float_of_int z = Raise e -> e = OverflowError.
Proof. unfold float_of_int. destruct (float_const z); try done; by intros [= <-]. Qed.

Lemma int_truediv_finite a r : int_truediv a (10 ^ 6) = Ok r -> is_finite r = true.
Proof.
  unfold int_truediv. change (10 ^ 6 =? 0) with false. cbv iota.
  destruct (a =? 0) eqn:Ea; [by intros [= <-]|].
  apply Z.eqb_neq in Ea.
  destruct (div_core_spec (Z.abs a) (Z.abs (10 ^ 6)) ltac:(lia) ltac:(done))
    as (q & e & l & Hcore & Hq & _).
  rewrite Hcore.
  pose proof (binary_round_aux_not_nan (xorb (a <? 0) (10 ^ 6 <? 0)) q e l Hq)
    as Hn.
  destruct (binary_round_aux _ _ _ _ _ _); try done; by intros [= <-].
Qed.

Lemma int_truediv_raises a e :
  int_truediv a (10 ^ 6) = Raise e -> e = OverflowError.
Proof.
  unfold int_truediv. change (10 ^ 6 =? 0) with false. cbv iota.
  destruct (a =? 0); [done|].
  destruct (SFdiv_core_binary _ _ _ _ _ _) as [[q e'] l].
  destruct (binary_round_aux _ _ _ _ _ _); try done; by intros [= <-].
Qed.

Lemma round_half_even_raises x e :
  round_half_even x = Raise e ->
  (x = S754_nan /\ e = ValueError)
  \/ ((x = S754_infinity false \/ x = S754_infinity true) /\ e = OverflowError).
Proof.
  destruct x as [?|[]| |? ? ex]; simpl; try done; try (intros [= <-]; auto).
  by destruct (0 <=? ex).
Qed.

Lemma int_of_float_raises x e :
  int_of_float x = Raise e ->
  (x = S754_nan /\ e = ValueError)
  \/ ((x = S754_infinity false \/ x = S754_infinity true) /\ e = OverflowError).
Proof. destruct x as [?|[]| |? ? ex]; simpl; try done; intros [= <-]; auto. Qed.

Lemma timedelta_raises sec e : timedelta_of_seconds sec = Raise e ->
  (sec = S754_nan /\ e = ValueError)
  \/ (sec <> S754_nan /\ e = OverflowError).
Proof.
  unfold timedelta_of_seconds. intros H.
  destruct (int_of_float sec) as [whole|e0] eqn:Ei; cbn [mbind result_bind] in H.
  2:{ injection H as <-. apply int_of_float_raises in Ei as [[-> ->]|[[->| ->] ->]];
        auto. }
  assert (Hf : is_finite sec = true) by (by destruct sec).
  assert (Hn : sec <> S754_nan) by (by destruct sec).
  right. split; [done|].
  destruct (float_of_int whole) as [wholef|e0] eqn:Ew; cbn [mbind result_bind] in H.
  2:{ injection H as <-. by apply float_of_int_raises in Ew. }
  pose proof (float_of_int_finite _ _ Ew) as Hwf.
  pose proof (fsub_not_nan sec wholef Hf Hwf) as Hs.
  destruct (round_half_even _) as [us0|e0] eqn:Er; cbn [mbind result_bind] in H.
  2:{ injection H as <-.
      apply round_half_even_raises in Er as [[Er _]|[_ ->]]; [|done].
      exfalso. unfold fmul, float_const in Er.
      change (binary_normalize prec emax 1000000 0 false)
        with (S754_finite false 8589934592000000 (-33)) in Er.
      destruct (fsub sec wholef) as [?|[]| |? mx ex]; try done.
      unfold SFmul in Er.
      by apply binary_round_aux_not_nan in Er. }
  destruct (_ <? _); [by injection H as <-|done].
Qed.

Lemma total_ms_raises sec e : total_ms_of sec = Raise e ->
  (sec = S754_nan /\ e = ValueError)
  \/ (sec <> S754_nan /\ e = OverflowError).
Proof.
  unfold total_ms_of. intros H.
  destruct (timedelta_of_seconds sec) as [td|e0] eqn:Etd;
    cbn [mbind result_bind] in H.
  2:{ injection H as <-. by apply timedelta_raises. }
  assert (Hn : sec <> S754_nan) by (by intros ->).
  right. split; [done|].
  destruct (total_seconds td) as [ts|e0] eqn:Ets; cbn [mbind result_bind] in H.
  2:{ injection H as <-. by apply int_truediv_raises in Ets. }
  apply int_truediv_finite in Ets. rewrite float_of_int_1000 in H.
  cbn [mbind result_bind] in H.
  destruct (int_of_float _) as [m|e0] eqn:Em; [done|].
  injection H as <-.
  apply int_of_float_raises in Em as [[Em _]|[_ ->]]; [|done].
  exfalso. destruct ts as [?|[]| |? mx ex]; try done.
  unfold fmul, SFmul in Em. by apply binary_round_aux_not_nan in Em.
Qed.

Lemma fmt_time_raise_inv sec e :
  _fmt_time sec = Raise e -> total_ms_of sec = Raise e.
Proof.
  unfold _fmt_time. destruct (total_ms_of sec); cbn [mbind result_bind]; [done|].
  by intros [= <-].
Qed.



(* ================================================================== *)
(** * Plain mode: when [write_srt] fails *)
(* ================================================================== *)

Lemma for_each_raises {A} (body : A -> io unit) e : forall (l : list A) w,
  for_each l body w = Raise e ->
  exists x w', x ∈ l /\ body x w' = Raise e.
Proof.
  induction l as [|x l IH]; intros w H; [done|].
  cbn [for_each] in H. unfold mbind at 1, io_bind at 1 in H.
  destruct (body x w) as [[[] w1]|e1] eqn:E.
  - destruct (IH w1 H) as (y & w' & Hy & Hr). exists y, w'.
    split; [by right|done].
  - injection H as <-. exists x, w. split; [by left|done].
Qed.

Lemma write_srt_fails_at blocks clips out_path w e :
  write_srt blocks clips out_path w = Raise e ->
  exists i c,
    (i < Nat.min (length blocks) (length clips))%nat
    /\ clips !! i = Some c
    /\ (_fmt_time (clip_start c) = Raise e \/ _fmt_time (clip_end c) = Raise e).
Proof.
  unfold write_srt. intros H.
  unfold mbind at 1, io_bind at 1 in H.
  destruct (when _ _ w) as [[[] w1]|e1] eqn:E1.
  2:{ unfold when, print in E1. by destruct (negb _). }
  unfold mbind at 1, io_bind at 1 in H. unfold open_w at 1 in H.
  unfold mbind at 1, io_bind at 1 in H.
  destruct (for_each _ _ _) as [[[] w2]|e2] eqn:E2; [done|].
  injection H as ->.
  apply for_each_raises in E2 as (i & w' & Hi & Hr).
  apply elem_of_seq in Hi as [_ Hi]. cbn [Nat.add] in Hi.
  destruct (lookup_lt_is_Some_2 blocks i ltac:(lia)) as [b Hb].
  destruct (lookup_lt_is_Some_2 clips i ltac:(lia)) as [c Hc].
  exists i, c. split; [done|]. split; [done|].
  unfold mbind, io_bind, lift, getitem in Hr. rewrite Hb, Hc in Hr.
  destruct (_fmt_time (clip_start c)) as [s|e1] eqn:Es.
  - destruct (_fmt_time (clip_end c)) as [s'|e2] eqn:Ee; [done|].
    injection Hr as ->. by right.
  - injection Hr as ->. by left.
Qed.



Lemma fmt_time_in_range sec :
  good sec -> flt sec (float_const 86399999999999) = true ->
  is_Ok (_fmt_time sec) = true.
Proof.
  intros Hg Hlt.
  destruct (total_ms_defined sec Hg) as [t Ht].
  { apply (flt_whole_bound sec 86399999999999 Hg) in Hlt; [lia| |];
      by vm_compute. }
  unfold _fmt_time. by rewrite Ht.
Qed.



(* ================================================================== *)
(** * The collectors: what the kept and ignored lists hold *)
(* ================================================================== *)

(** A kept entry of [collect_clips_with_ignored] seen as an entry of
    [collect_clips]: the same item, times and name. *)
Definition clip_of_kept (k : kept_clip) : clip :=
  {| clip_item := kept_item k; clip_start := kept_start k;
     clip_end := kept_end k; clip_name := kept_name k |}.

Definition has_fusion_comp (it : item) : Prop := is_Some (try_fusion_comp it).

Lemma foldM_sim {A S T} (R : S -> T -> Prop)
    (f : S -> A -> result S) (g : T -> A -> result T) :
  (forall s t x t', R s t -> g t x = Ok t' ->
     exists s', f s x = Ok s' /\ R s' t') ->
  forall l s t t', R s t -> foldM g t l = Ok t' ->
    exists s', foldM f s l = Ok s' /\ R s' t'.
Proof.
  intros Hstep. induction l as [|x l IH]; intros s t t' HR H; simpl in *.
  - injection H as <-. by exists s.
  - destruct (g t x) as [t1|] eqn:E; [|done]. simpl in H.
    destruct (Hstep _ _ _ _ HR E) as (s1 & -> & HR1). simpl.
    by apply (IH s1 t1).
Qed.

Lemma foldM_appends_eq {A S B} (proj : S -> list B) (f : A -> list B)
    (body : S -> A -> result S) :
  (forall acc x acc', body acc x = Ok acc' -> proj acc' = proj acc ++ f x) ->
  forall l acc acc', foldM body acc l = Ok acc' ->
    proj acc' = proj acc ++ (l ≫= f).
Proof.
  intros Hbody. induction l as [|x l IH]; intros acc acc' H; simpl in H.
  - injection H as <-. simpl. by rewrite app_nil_r.
  - destruct (body acc x) as [acc1|] eqn:E; [|done]. simpl in H.
    rewrite (IH _ _ H), (Hbody _ _ _ E). simpl. by rewrite app_assoc.
Qed.

Lemma foldM_invariant {A S} (P : S -> Prop) (body : S -> A -> result S) :
  (forall acc x acc', P acc -> body acc x = Ok acc' -> P acc') ->
  forall l acc acc', P acc -> foldM body acc l = Ok acc' -> P acc'.
Proof.
  intros Hbody. induction l as [|x l IH]; intros acc acc' HP H; simpl in H.
  - by injection H as <-.
  - destruct (body acc x) as [acc1|] eqn:E; [|done]. simpl in H.
    eapply IH; [|exact H]. by eapply Hbody.
Qed.

Lemma bind_filter {B} (P : B -> Prop) `{!forall x, Decision (P x)} (l : list B) :
  l ≫= (fun x => if decide (P x) then [x] else []) = filter P l.
Proof.
  induction l as [|x l IH]; [done|]. cbn [mbind list_bind]. rewrite IH.
  rewrite filter_cons. by destruct (decide (P x)).
Qed.

Lemma bind_bind {A B C} (f : A -> list B) (g : B -> list C) (l : list A) :
  l ≫= (fun x => f x ≫= g) = (l ≫= f) ≫= g.
Proof.
  induction l as [|x l IH]; [done|]. cbn [mbind list_bind].
  by rewrite bind_app, IH.
Qed.

Section Collectors.
Variable lower : pystr -> pystr.

Lemma collect_item_agrees fps ex ig extra kept ign it kept' ign' :
  collect_item_with_ignored lower fps ex ig extra (kept, ign) it
    = Ok (kept', ign') ->
  collect_item lower fps ex ig extra (clip_of_kept <$> kept) it
    = Ok (clip_of_kept <$> kept').
Proof.
  unfold collect_item_with_ignored, collect_item. intros H.
  destruct (ex && _).
  { destruct (frames_div (GetStart it) fps) as [s|]; [|done].
    destruct (frames_div (GetEnd it) fps) as [e|]; [|done].
    cbn [mbind result_bind] in H. by injection H as <- <-. }
  destruct (frames_div (GetStart it) fps) as [s|]; [|done].
  destruct (frames_div (GetEnd it) fps) as [e|]; [|done].
  cbn [mbind result_bind] in *.
  destruct (_should_ignore _ _ _ _ _); injection H as <- <-; [done|].
  by rewrite fmap_app.
Qed.

(** The verdict of the filter on one item, as the records carry it. *)
Definition kept_sound (fps : float) (ex ig : bool) (extra : list pystr)
    (k : kept_clip) : Prop :=
  frames_div (GetStart (kept_item k)) fps = Ok (kept_start k)
  /\ frames_div (GetEnd (kept_item k)) fps = Ok (kept_end k)
  /\ kept_dur k = fsub (kept_end k) (kept_start k)
  /\ kept_name k = try_name (kept_item k)
  /\ (ex = true -> ~ has_fusion_comp (kept_item k))
  /\ _should_ignore lower (kept_name k) (kept_dur k) ig extra = false.

Definition ignored_sound (fps : float) (ex ig : bool) (extra : list pystr)
    (g : ignored_clip) : Prop :=
  frames_div (GetStart (ign_item g)) fps = Ok (ign_start g)
  /\ frames_div (GetEnd (ign_item g)) fps = Ok (ign_end g)
  /\ ign_dur g = fsub (ign_end g) (ign_start g)
  /\ ign_name g = try_name (ign_item g)
  /\ match ign_reason g with
     | text_plus_reason => ex = true /\ has_fusion_comp (ign_item g)
     | effect_reason =>
         (ex = true -> ~ has_fusion_comp (ign_item g))
         /\ _should_ignore lower (ign_name g) (ign_dur g) ig extra = true
     end.

Lemma collect_item_with_ignored_sound fps ex ig extra st it st' :
  Forall (kept_sound fps ex ig extra) st.1
  /\ Forall (ignored_sound fps ex ig extra) st.2 ->
  collect_item_with_ignored lower fps ex ig extra st it = Ok st' ->
  Forall (kept_sound fps ex ig extra) st'.1
  /\ Forall (ignored_sound fps ex ig extra) st'.2.
Proof.
  destruct st as [kept ign]. intros [Hk Hi] H. simpl in Hk, Hi.
  unfold collect_item_with_ignored in H.
  destruct (frames_div (GetStart it) fps) as [s|] eqn:Es;
    [|by destruct (ex && _)].
  destruct (frames_div (GetEnd it) fps) as [e|] eqn:Ee;
    [|by destruct (ex && _)].
  cbn [mbind result_bind] in H.
  destruct (ex && _) eqn:Ex.
  { injection H as <-. simpl. split; [done|].
    apply Forall_app. split; [done|]. apply Forall_singleton.
    apply andb_true_iff in Ex as [-> Hc%bool_decide_eq_true]. by repeat split. }
  assert (Hnc : ex = true -> ~ has_fusion_comp it).
  { intros ->. simpl in Ex. by apply bool_decide_eq_false in Ex. }
  destruct (_should_ignore _ _ _ _ _) eqn:Eig; injection H as <-; simpl.
  - split; [done|]. apply Forall_app. split; [done|]. apply Forall_singleton.
    by repeat split.
  - split; [|done]. apply Forall_app. split; [done|]. apply Forall_singleton.
    by repeat split.
Qed.

Lemma collect_item_with_ignored_perm fps ex ig extra st it st' :
  collect_item_with_ignored lower fps ex ig extra st it = Ok st' ->
  (kept_item <$> st'.1) ++ (ign_item <$> st'.2)
    ≡ₚ ((kept_item <$> st.1) ++ (ign_item <$> st.2)) ++ [it].
Proof.
  destruct st as [kept ign]. intros H. unfold collect_item_with_ignored in H.
  destruct (frames_div (GetStart it) fps) as [s|] eqn:Es;
    [|by destruct (ex && _)].
  destruct (frames_div (GetEnd it) fps) as [e|] eqn:Ee;
    [|by destruct (ex && _)].
  cbn [mbind result_bind] in H.
  destruct (ex && _).
  { injection H as <-. simpl. by rewrite fmap_app, app_assoc. }
  destruct (_should_ignore _ _ _ _ _); injection H as <-; simpl.
  - by rewrite fmap_app, app_assoc.
  - rewrite fmap_app. simpl. rewrite <- !app_assoc.
    apply Permutation_app_head, Permutation_app_comm.
Qed.

Lemma foldM_perm {A S} (proj : S -> list item) (f : A -> list item)
    (body : S -> A -> result S) :
  (forall acc x acc', body acc x = Ok acc' -> proj acc' ≡ₚ proj acc ++ f x) ->
  forall l acc acc', foldM body acc l = Ok acc' ->
    proj acc' ≡ₚ proj acc ++ (l ≫= f).
Proof.
  intros Hbody. induction l as [|x l IH]; intros acc acc' H; simpl in H.
  - injection H as <-. simpl. by rewrite app_nil_r.
  - destruct (body acc x) as [acc1|] eqn:E; [|done]. simpl in H.
    rewrite (IH _ _ H), (Hbody _ _ _ E). simpl. by rewrite app_assoc.
Qed.
End Collectors.

(** The items with a Fusion composition, as [collect_textplus_clips]
    lists them. *)
Record textplus_clip : Type := {
  tp_item : item;
  tp_comp : fusion_comp;
  tp_start : float;
  tp_end : float
}.

Definition collect_textplus_item (fps : float) (out : list textplus_clip)
    (it : item) : result (list textplus_clip) :=
  match try_fusion_comp it with
  | Some comp =>
      start ← frames_div (GetStart it) fps;
      end_ ← frames_div (GetEnd it) fps;
      Ok (out ++ [{| tp_item := it; tp_comp := comp; tp_start := start;
                     tp_end := end_ |}])
  | None => Ok out
  end.

Definition collect_textplus_track (tl : timeline_t) (out : list textplus_clip)
    (tr : track) : result (list textplus_clip) :=
  let items := items_or_empty tr in
  fps ← get_fps tl;
  foldM (collect_textplus_item fps) out items.

Definition collect_textplus_clips (timeline : option timeline_t)
    (track_name : pystr) : result (list textplus_clip) :=
  match timeline with
  | None => Ok []
  | Some tl =>
      foldM (collect_textplus_track tl) [] (matching_tracks tl track_name)
  end.

#[global] Instance has_fusion_comp_dec it : Decision (has_fusion_comp it).
Proof. unfold has_fusion_comp. apply _. Defined.

#[global] Instance reason_eq_dec : EqDecision reason.
Proof. solve_decision. Defined.

(** What [collect_clips_with_ignored] returns for the demo timeline. *)
Definition demo_collected : list kept_clip * list ignored_clip :=
  Eval vm_compute in
    match collect_clips_with_ignored lower_ascii (Some demo_timeline)
            (py "Subs") true true None with
    | Ok r => r
    | Raise _ => ([], [])
    end.

Definition demo_textplus : list textplus_clip :=
  Eval vm_compute in
    match collect_textplus_clips (Some demo_timeline) (py "Subs") with
    | Ok r => r
    | Raise _ => []
    end.

Section CollectorProperties.
Variable lower : pystr -> pystr.

(** X9.  Whenever the diagnostic collector returns, [collect_clips] returns
    too, and its clips are the kept entries of the diagnostic: the same
    items with the same times and names, in the same order. *)
Theorem collect_clips_agree
    (timeline : option timeline_t) (track_name : pystr) (ex ig : bool)
    (extra : option (list pystr)) (kept : list kept_clip)
    (ign : list ignored_clip) :
  collect_clips_with_ignored lower timeline track_name ex ig extra
    = Ok (kept, ign) ->
  collect_clips lower timeline track_name ex ig extra
    = Ok (clip_of_kept <$> kept).
Proof.
  destruct timeline as [tl|]; simpl; [|by intros [= <- <-]].
  intros H.
  destruct (foldM_sim (fun res st => res = clip_of_kept <$> st.1)
              (collect_track lower tl ex ig (default [] extra))
              (collect_track_with_ignored lower tl ex ig (default [] extra)))
    with (l := matching_tracks tl track_name) (s := @nil clip)
         (t := (@nil kept_clip, @nil ignored_clip)) (t' := (kept, ign))
    as (res & Hres & ->); [|done|done|done].
  clear. intros res st tr st' -> H.
  unfold collect_track_with_ignored in H. unfold collect_track.
  destruct (get_fps tl) as [fps|]; [|done]. cbn [mbind result_bind] in *.
  eapply (foldM_sim (fun res st => res = clip_of_kept <$> st.1));
    [|done|exact H].
  clear. intros res [kept ign] it [kept' ign'] -> H. simpl.
  eexists. split; [|done]. by eapply collect_item_agrees.
Qed.

(** X10.  The diagnostic collector loses nothing and invents nothing: the kept
    and the ignored entries together are the raw items of the tracks with
    the given name, each item once. *)
Theorem collect_with_ignored_partition
    (timeline : option timeline_t) (track_name : pystr) (ex ig : bool)
    (extra : option (list pystr)) (kept : list kept_clip)
    (ign : list ignored_clip) :
  collect_clips_with_ignored lower timeline track_name ex ig extra
    = Ok (kept, ign) ->
  (kept_item <$> kept) ++ (ign_item <$> ign) ≡ₚ raw_of timeline track_name
  /\ (length kept + length ign
      = length (raw_of timeline track_name))%nat.
Proof.
  intros H.
  assert (HP : (kept_item <$> kept) ++ (ign_item <$> ign)
               ≡ₚ raw_of timeline track_name).
  { destruct timeline as [tl|]; simpl in *; [|by injection H as <- <-].
    apply (foldM_perm (fun st => (kept_item <$> st.1) ++ (ign_item <$> st.2))
             items_or_empty) in H; [done|].
    clear. intros acc tr acc' H. unfold collect_track_with_ignored in H.
    destruct (get_fps tl) as [fps|]; [|done]. cbn [mbind result_bind] in H.
    apply (foldM_perm (fun st => (kept_item <$> st.1) ++ (ign_item <$> st.2))
             (fun x => [x])) in H.
    - by rewrite bind_singleton in H.
    - intros. by eapply collect_item_with_ignored_perm. }
  split; [done|].
  apply Permutation_length in HP. by rewrite length_app, !length_fmap in HP.
Qed.

(** X11.  Every entry of the diagnostic collector carries what the filter found:
    times that are the frame numbers over the frame rate, the item's name,
    and the reason that applies: [text_plus] entries are the items with a
    Fusion composition (only when Text+ is excluded), [effect] entries the
    other items that [_should_ignore] rejects, kept entries the other items
    that it accepts. *)
Theorem collect_with_ignored_sound
    (tl : timeline_t) (fps : float) (track_name : pystr) (ex ig : bool)
    (extra : option (list pystr)) (kept : list kept_clip)
    (ign : list ignored_clip) :
  timelineFrameRate tl = Some fps ->
  collect_clips_with_ignored lower (Some tl) track_name ex ig extra
    = Ok (kept, ign) ->
  Forall (kept_sound lower fps ex ig (default [] extra)) kept
  /\ Forall (ignored_sound lower fps ex ig (default [] extra)) ign.
Proof.
  intros Hfps H. simpl in H.
  apply (foldM_invariant
           (fun st => Forall (kept_sound lower fps ex ig (default [] extra)) st.1
                      /\ Forall (ignored_sound lower fps ex ig (default [] extra))
                           st.2)) in H; [done| |by split].
  clear -Hfps. intros acc tr acc' HP H. unfold collect_track_with_ignored in H.
  unfold get_fps in H. rewrite Hfps in H. cbn [mbind result_bind] in H.
  revert HP H.
  apply (foldM_invariant
           (fun st => Forall (kept_sound lower fps ex ig (default [] extra)) st.1
                      /\ Forall (ignored_sound lower fps ex ig (default [] extra))
                           st.2)).
  intros. by eapply collect_item_with_ignored_sound.
Qed.

(** X12.  With both filters off, [collect_clips] keeps every raw item of the
    tracks with the given name, in order. *)
Theorem collect_clips_unfiltered
    (timeline : option timeline_t) (track_name : pystr)
    (extra : option (list pystr)) (res : list clip) :
  collect_clips lower timeline track_name false false extra = Ok res ->
  clip_item <$> res = raw_of timeline track_name.
Proof.
  destruct timeline as [tl|]; simpl; [|by intros [= <-]].
  intros H.
  apply (foldM_appends_eq (fmap clip_item) items_or_empty) in H; [done|].
  clear. intros acc tr acc' H. unfold collect_track in H.
  destruct (get_fps tl) as [fps|]; [|done]. cbn [mbind result_bind] in H.
  apply (foldM_appends_eq (fmap clip_item) (fun x => [x])) in H.
  - by rewrite bind_singleton in H.
  - clear. intros acc it acc' H. unfold collect_item in H. simpl in H.
    destruct (frames_div (GetStart it) fps) as [s|]; [|done].
    destruct (frames_div (GetEnd it) fps) as [e|]; [|done].
    cbn [mbind result_bind] in H. injection H as <-. by rewrite fmap_app.
Qed.

Lemma collect_textplus_items_eq timeline track_name out :
  collect_textplus_clips timeline track_name = Ok out ->
  tp_item <$> out = filter has_fusion_comp (raw_of timeline track_name).
Proof.
  intros H.
  destruct timeline as [tl|]; simpl in *; [|by injection H as <-].
  apply (foldM_appends_eq (fmap tp_item)
           (fun tr => items_or_empty tr ≫=
              fun x => if decide (has_fusion_comp x) then [x] else [])) in H.
  - simpl in H. rewrite H. unfold raw_items.
    by rewrite bind_bind, bind_filter.
  - clear. intros acc tr acc' H. unfold collect_textplus_track in H.
    destruct (get_fps tl) as [fps|]; [|done]. cbn [mbind result_bind] in H.
    apply (foldM_appends_eq (fmap tp_item)
             (fun x => if decide (has_fusion_comp x) then [x] else [])) in H;
      [exact H|].
    clear. intros acc it acc' H. unfold collect_textplus_item in H.
    destruct (try_fusion_comp it) as [comp|] eqn:Ec.
    + destruct (frames_div (GetStart it) fps) as [s|]; [|done].
      destruct (frames_div (GetEnd it) fps) as [e|]; [|done].
      cbn [mbind result_bind] in H. injection H as <-.
      rewrite fmap_app. rewrite decide_True; [done|].
      unfold has_fusion_comp. by rewrite Ec.
    + injection H as <-. rewrite decide_False; [by rewrite app_nil_r|].
      unfold has_fusion_comp. rewrite Ec. by intros [? ?].
Qed.

(** X13.  [collect_textplus_clips] lists exactly the raw items that have a
    Fusion composition, in order, each with that composition. *)
Theorem collect_textplus_clips_items
    (timeline : option timeline_t) (track_name : pystr)
    (out : list textplus_clip) :
  collect_textplus_clips timeline track_name = Ok out ->
  tp_item <$> out = filter has_fusion_comp (raw_of timeline track_name)
  /\ Forall (fun c => try_fusion_comp (tp_item c) = Some (tp_comp c)) out.
Proof.
  intros H. split; [by apply collect_textplus_items_eq|].
  destruct timeline as [tl|]; simpl in *; [|by injection H as <-].
  eapply (foldM_invariant
            (Forall (fun c => try_fusion_comp (tp_item c) = Some (tp_comp c))));
    [|constructor|exact H].
  clear. intros acc tr acc' HP H. unfold collect_textplus_track in H.
  destruct (get_fps tl) as [fps|]; [|done]. cbn [mbind result_bind] in H.
  revert HP H.
  apply (foldM_invariant
           (Forall (fun c => try_fusion_comp (tp_item c) = Some (tp_comp c)))).
  clear. intros acc it acc' HP H. unfold collect_textplus_item in H.
  destruct (try_fusion_comp it) as [comp|] eqn:Ec; [|by injection H as <-].
  destruct (frames_div (GetStart it) fps) as [s|]; [|done].
  destruct (frames_div (GetEnd it) fps) as [e|]; [|done].
  cbn [mbind result_bind] in H. injection H as <-.
  apply Forall_app. split; [done|]. by apply Forall_singleton.
Qed.

(** X14.  With Text+ excluded, the [text_plus] entries of the diagnostic
    collector are the items [collect_textplus_clips] returns, in the same
    order. *)
Theorem textplus_ignored_agree
    (timeline : option timeline_t) (track_name : pystr) (ig : bool)
    (extra : option (list pystr)) (kept : list kept_clip)
    (ign : list ignored_clip) (out : list textplus_clip) :
  collect_clips_with_ignored lower timeline track_name true ig extra
    = Ok (kept, ign) ->
  collect_textplus_clips timeline track_name = Ok out ->
  ign_item <$> filter (fun g => ign_reason g = text_plus_reason) ign
    = tp_item <$> out.
Proof.
  intros H Hout. rewrite (collect_textplus_items_eq _ _ _ Hout). clear Hout.
  destruct timeline as [tl|]; simpl in *; [|by injection H as <- <-].
  apply (foldM_appends_eq
           (fun st => ign_item <$>
                        filter (fun g => ign_reason g = text_plus_reason) st.2)
           (fun tr => items_or_empty tr ≫=
              fun x => if decide (has_fusion_comp x) then [x] else [])) in H.
  - simpl in H. rewrite H. unfold raw_items.
    by rewrite bind_bind, bind_filter.
  - clear. intros acc tr acc' H. unfold collect_track_with_ignored in H.
    destruct (get_fps tl) as [fps|]; [|done]. cbn [mbind result_bind] in H.
    apply (foldM_appends_eq
             (fun st => ign_item <$>
                          filter (fun g => ign_reason g = text_plus_reason) st.2)
             (fun x => if decide (has_fusion_comp x) then [x] else [])) in H;
      [exact H|].
    clear. intros [kept ign] it acc' H. unfold collect_item_with_ignored in H.
    destruct (frames_div (GetStart it) fps) as [s|];
      [|by destruct (true && _)].
    destruct (frames_div (GetEnd it) fps) as [e|];
      [|by destruct (true && _)].
    cbn [mbind result_bind andb] in H.
    destruct (bool_decide (is_Some (try_fusion_comp it))) eqn:Ec.
    + apply bool_decide_eq_true in Ec. injection H as <-. simpl.
      rewrite filter_app, fmap_app, decide_True by done.
      by rewrite filter_cons_True.
    + apply bool_decide_eq_false in Ec. rewrite decide_False by done.
      rewrite app_nil_r.
      destruct (_should_ignore _ _ _ _ _); injection H as <-; simpl; [|done].
      rewrite filter_app, filter_cons_False by done.
      by rewrite filter_nil, app_nil_r.
Qed.
End CollectorProperties.

Lemma collect_clips_agree_witness :
  collect_clips lower_ascii (Some demo_timeline) (py "Subs") true true None
    = Ok (clip_of_kept <$> demo_collected.1).
Proof.
  by apply (collect_clips_agree lower_ascii (Some demo_timeline) (py "Subs")
              true true None demo_collected.1 demo_collected.2).
Defined.

Lemma collect_with_ignored_partition_witness :
  (kept_item <$> demo_collected.1) ++ (ign_item <$> demo_collected.2)
    ≡ₚ raw_of (Some demo_timeline) (py "Subs")
  /\ (length demo_collected.1 + length demo_collected.2
      = length (raw_of (Some demo_timeline) (py "Subs")))%nat.
Proof.
  by apply (collect_with_ignored_partition lower_ascii (Some demo_timeline)
              (py "Subs") true true None).
Defined.

Lemma collect_with_ignored_sound_witness :
  Forall (kept_sound lower_ascii (float_const 24) true true []) demo_collected.1
  /\ Forall (ignored_sound lower_ascii (float_const 24) true true [])
       demo_collected.2.
Proof.
  by apply (collect_with_ignored_sound lower_ascii demo_timeline
              (float_const 24) (py "Subs") true true None).
Defined.

Lemma collect_clips_unfiltered_witness :
  clip_item <$>
    [ {| clip_item := demo_title; clip_start := S754_zero false;
         clip_end := float_const 2; clip_name := py "Title one" |} ]
  = raw_of (Some demo_timeline) (py "Video 1").
Proof.
  by apply (collect_clips_unfiltered lower_ascii (Some demo_timeline)
              (py "Video 1") None).
Defined.

Lemma collect_textplus_clips_items_witness :
  tp_item <$> demo_textplus
    = filter has_fusion_comp (raw_of (Some demo_timeline) (py "Subs"))
  /\ Forall (fun c => try_fusion_comp (tp_item c) = Some (tp_comp c))
       demo_textplus.
Proof.
  by apply (collect_textplus_clips_items (Some demo_timeline) (py "Subs")).
Defined.

Lemma textplus_ignored_agree_witness :
  ign_item <$> filter (fun g => ign_reason g = text_plus_reason)
                 demo_collected.2
    = tp_item <$> demo_textplus.
Proof.
  by apply (textplus_ignored_agree lower_ascii (Some demo_timeline) (py "Subs")
              true None demo_collected.1).
Defined.

(* ================================================================== *)
(** * The manual block parser: what every block looks like *)
(* ================================================================== *)

Section Strip.
Variable p : N -> bool.

(** A string that does not start with a character to strip. *)
Definition head_kept (s : pystr) : Prop :=
  match s with
  | c :: _ => p c = false
  | [] => True
  end.

Lemma lstrip_with_fix s : head_kept s -> lstrip_with p s = s.
Proof. destruct s as [|c s]; simpl; [done|]. by intros ->. Qed.

Lemma lstrip_with_head s : head_kept (lstrip_with p s).
Proof.
  induction s as [|c s IH]; simpl; [done|].
  destruct (p c) eqn:E; [done|]. by simpl.
Qed.

Lemma lstrip_with_snoc s c :
  lstrip_with p (s ++ [c]) =
    if is_empty (lstrip_with p s) then (if p c then [] else [c])
    else lstrip_with p s ++ [c].
Proof.
  induction s as [|a s IH]; simpl; [by destruct (p c)|].
  by destruct (p a).
Qed.

Lemma rstrip_with_cons c s :
  rstrip_with p (c :: s) =
    if is_empty (rstrip_with p s) then (if p c then [] else [c])
    else c :: rstrip_with p s.
Proof.
  unfold rstrip_with. rewrite reverse_cons, lstrip_with_snoc.
  destruct (lstrip_with p (reverse s)) as [|a l] eqn:E; simpl.
  - by destruct (p c).
  - change (a :: l ++ [c]) with ((a :: l) ++ [c]).
    rewrite reverse_app, reverse_singleton.
    destruct (reverse (a :: l)) eqn:E'; [|done].
    apply (f_equal length) in E'. by rewrite length_reverse in E'.
Qed.

Lemma rstrip_with_head s : head_kept s -> head_kept (rstrip_with p s).
Proof.
  destruct s as [|c s]; [done|]. simpl. intros Hc.
  rewrite rstrip_with_cons, Hc. by destruct (is_empty _).
Qed.

Lemma rstrip_with_idem s :
  rstrip_with p (rstrip_with p s) = rstrip_with p s.
Proof.
  unfold rstrip_with. rewrite reverse_involutive.
  by rewrite (lstrip_with_fix _ (lstrip_with_head _)).
Qed.

Lemma lstrip_with_Forall (Q : N -> Prop) s :
  Forall Q s -> Forall Q (lstrip_with p s).
Proof.
  induction 1 as [|c s Hc Hs IH]; simpl; [done|].
  destruct (p c); [done|]. by constructor.
Qed.

Lemma rstrip_with_Forall (Q : N -> Prop) s :
  Forall Q s -> Forall Q (rstrip_with p s).
Proof.
  intros H. unfold rstrip_with.
  by apply Forall_reverse, lstrip_with_Forall, Forall_reverse.
Qed.
End Strip.

(** [strip] is idempotent: a stripped string has nothing left to strip. *)
Lemma strip_idem s : strip (strip s) = strip s.
Proof.
  unfold strip, rstrip, lstrip.
  rewrite (lstrip_with_fix isspace (rstrip_with isspace (lstrip_with isspace s))).
  - apply rstrip_with_idem.
  - apply rstrip_with_head, lstrip_with_head.
Qed.

Lemma strip_Forall (Q : N -> Prop) s : Forall Q s -> Forall Q (strip s).
Proof. intros H. by apply rstrip_with_Forall, lstrip_with_Forall. Qed.

Lemma join_Forall (Q : N -> Prop) sep parts :
  Forall Q sep -> Forall (Forall Q) parts -> Forall Q (join sep parts).
Proof.
  intros Hsep. induction 1 as [|x l Hx Hl IH]; [done|].
  cbn [join]. destruct l as [|y l]; [done|].
  apply Forall_app. split; [done|]. apply Forall_app. by split.
Qed.

Lemma universal_newlines_no_CR s : Forall (fun c => c <> CR) (universal_newlines s).
Proof.
  assert (H : forall n s, (length s <= n)%nat ->
                Forall (fun c => c <> CR) (universal_newlines s)).
  { clear s. induction n as [|n IH]; intros [|c s] Hlen; simpl in *;
      try done; [lia|].
    destruct (N.eqb_spec c CR) as [->|Hc].
    - constructor; [done|]. destruct s as [|d s]; [done|].
      destruct (d =? NL)%N; apply IH; simpl in *; lia.
    - constructor; [done|]. apply IH. lia. }
  by apply (H (length s)).
Qed.

Lemma readlines_Forall (Q : N -> Prop) s :
  Forall Q s -> Forall (Forall Q) (readlines s).
Proof.
  induction 1 as [|c s Hc Hs IH]; simpl; [done|].
  destruct (c =? NL)%N.
  - constructor; [by constructor|done].
  - destruct (readlines s) as [|l ls].
    + constructor; [by constructor|done].
    + apply Forall_cons in IH as [Hl Hls]. constructor; [by constructor|done].
Qed.

(** A block as [parse_manual] returns them: not empty, stripped, and free
    of carriage returns. *)
Definition clean_block (b : pystr) : Prop :=
  b <> [] /\ strip b = b /\ Forall (fun c => c <> CR) b.

Lemma flush_clean blocks cur :
  Forall (fun b => strip b = b /\ Forall (fun c => c <> CR) b) blocks ->
  Forall (Forall (fun c => c <> CR)) cur ->
  Forall (fun b => strip b = b /\ Forall (fun c => c <> CR) b) (flush blocks cur).
Proof.
  intros Hb Hc. unfold flush. destruct (is_empty cur); [done|].
  apply Forall_app. split; [done|]. apply Forall_singleton.
  split; [apply strip_idem|]. apply strip_Forall, join_Forall; [|done].
  by apply Forall_singleton.
Qed.

Lemma parse_step_clean st raw :
  Forall (fun c => c <> CR) raw ->
  Forall (fun b => strip b = b /\ Forall (fun c => c <> CR) b) st.1
  /\ Forall (Forall (fun c => c <> CR)) st.2 ->
  Forall (fun b => strip b = b /\ Forall (fun c => c <> CR) b)
    (parse_step st raw).1
  /\ Forall (Forall (fun c => c <> CR)) (parse_step st raw).2.
Proof.
  destruct st as [blocks cur]. intros Hraw [Hb Hc]. simpl in Hb, Hc.
  pose proof (rstrip_with_Forall (N.eqb NL) _ _ Hraw) as Hline.
  fold (rstrip_nl raw) in Hline.
  unfold parse_step. destruct (startswith _ _); simpl.
  - split; [by apply flush_clean|]. apply Forall_singleton.
    apply lstrip_with_Forall. by apply Forall_drop.
  - destruct (is_empty cur); simpl; [done|]. split; [done|].
    apply Forall_app. split; [done|]. by apply Forall_singleton.
Qed.

Lemma parse_lines_clean lines :
  Forall (Forall (fun c => c <> CR)) lines ->
  Forall clean_block (parse_lines lines).
Proof.
  intros Hl.
  assert (H : forall st,
    Forall (fun b => strip b = b /\ Forall (fun c => c <> CR) b) st.1
    /\ Forall (Forall (fun c => c <> CR)) st.2 ->
    Forall (fun b => strip b = b /\ Forall (fun c => c <> CR) b)
      (foldl parse_step st lines).1
    /\ Forall (Forall (fun c => c <> CR)) (foldl parse_step st lines).2).
  { induction Hl as [|raw lines Hraw _ IH]; intros st Hst; [done|].
    cbn [foldl]. apply IH. by apply parse_step_clean. }
  specialize (H ([], []) (conj (Forall_nil_2 _) (Forall_nil_2 _))).
  unfold parse_lines. destruct (foldl parse_step _ lines) as [blocks cur].
  simpl in H. destruct H as [Hb Hc].
  pose proof (flush_clean blocks cur Hb Hc) as Hf.
  apply list.Forall_forall. intros b [Hne Hin]%list_elem_of_filter.
  rewrite list.Forall_forall in Hf. destruct (Hf b Hin). by repeat split.
Qed.

(** X15.  Every block [parse_manual] returns is non-empty, has no leading or
    trailing whitespace and contains no carriage return, whatever the file
    holds. *)
Theorem parse_manual_blocks_clean
    (fs : filesystem) (path : option pystr) (blocks : list pystr) :
  parse_manual fs path = Ok blocks -> Forall clean_block blocks.
Proof.
  unfold parse_manual. intros H.
  destruct path as [[|c p]|]; try (injection H as <-; constructor).
  destruct (fs (c :: p)) as [bytes|]; [|done].
  destruct (decode_bytes bytes) as [txt|]; [|done].
  injection H as <-. unfold parse_text.
  apply parse_lines_clean, readlines_Forall, universal_newlines_no_CR.
Qed.

Lemma parse_manual_blocks_clean_witness :
  Forall clean_block [py "First" ++ [NL] ++ py "line2"; py "Second"].
Proof.
  by apply (parse_manual_blocks_clean
              (one_file "manual.txt"
                 (file_bytes ["stray"; ">First"; "line2"; ">Second"]%string))
              (Some (py "manual.txt"))).
Defined.

(* ================================================================== *)
(** * The clipboard watcher *)
(* ================================================================== *)

(** A command ends normally or by [raise typer.Exit(code)]. *)
Inductive status : Set :=
  | Done
  | Exit (code : Z).

(** [typer.echo(line)] writes the line to standard output. *)
Definition echo (line : pystr) : io unit := print line.

Definition _ensure_timeline (timeline : option timeline_t) : io status :=
  match timeline with
  | None => _ ← echo (py "[error] No active timeline"); mret (Exit 1)
  | Some _ => mret Done
  end.

(** [s.split('\n')] *)
Fixpoint split_nl (s : pystr) : list pystr :=
  match s with
  | [] => [[]]
  | c :: s' =>
      if (c =? NL)%N then [] :: split_nl s'
      else match split_nl s' with
           | l :: ls => (c :: l) :: ls
           | [] => [[c]]
           end
  end.

(** [s.split('\n')[0][:60]] *)
Definition head_line (s : pystr) : pystr :=
  take 60 (default [] (head (split_nl s))).

(** One reading of the clipboard, decoded: the text, and the fallback
    encoding when the preferred one failed and a fallback decoded the
    bytes. *)
Record snapshot : Type := {
  fallback_used : option pystr;
  snap_text : pystr
}.

(** The variables [last] and [primed] of the loop. *)
Record watch_state : Type := {
  last_text : pystr;
  primed : bool
}.

(** [with open(path, 'a', encoding='utf-8') as w: w.write(text)] *)
Definition append_to (path text : pystr) : io unit := write path text.

(** One turn of the loop of [watch], from the decoded clipboard on. *)
Definition watch_step (path : pystr) (st : watch_state) (snap : snapshot)
    : io watch_state :=
  _ ← match fallback_used snap with
      | Some fallback =>
          print (py "[watch] fallback decoding used: " ++ fallback)
      | None => mret tt
      end;
  let cur := snap_text snap in
  if negb (is_empty cur) && negb (is_empty (strip cur)) then
    if negb (primed st) then
      _ ← print (py "[prime] initial clipboard (not added): "
                 ++ head_line (strip cur));
      mret {| last_text := cur; primed := true |}
    else if negb (pystr_eqb cur (last_text st)) then
      let block := strip cur in
      _ ← (if startswith block [GT]
           then append_to path (block ++ [NL])
           else append_to path ([GT] ++ block ++ [NL]));
      _ ← print (py "[add] " ++ head_line block);
      mret {| last_text := cur; primed := primed st |}
    else mret st
  else mret st.

(** The loop over the clipboard readings made before Ctrl+C. *)
Fixpoint watch_loop (path : pystr) (st : watch_state) (snaps : list snapshot)
    : io watch_state :=
  match snaps with
  | [] => mret st
  | snap :: snaps' => st' ← watch_step path st snap; watch_loop path st' snaps'
  end.

Definition watch (timeline : option timeline_t) (output encoding : pystr)
    (snaps : list snapshot) : io status :=
  s ← _ensure_timeline timeline;
  match s with
  | Exit code => mret (Exit code)
  | Done =>
      let path := output in
      let enc := if is_empty encoding then py "utf-8" else encoding in
      _ ← print (py "[watch] clipboard -> " ++ path
                 ++ py " (Ctrl+C to stop, encoding=" ++ enc
                 ++ py ", skip first snapshot)");
      _ ← watch_loop path {| last_text := []; primed := false |} snaps;
      _ ← print ([NL] ++ py "[watch] stopped");
      mret Done
  end.

(** What [watch] appends for a block: the block behind one [>]. *)
Definition block_body (block : pystr) : pystr :=
  if startswith block [GT] then drop 1 block else block.

(** ** Lines *)

Lemma split_nl_nonempty s : split_nl s <> [].
Proof.
  destruct s as [|c s]; simpl; [done|].
  destruct (c =? NL)%N; [done|]. by destruct (split_nl s).
Qed.

Lemma join_cons sep x parts :
  join sep (x :: parts) = x ++ (if is_empty parts then [] else sep ++ join sep parts).
Proof. destruct parts; simpl; [by rewrite app_nil_r|done]. Qed.

Lemma join_split_nl s : join [NL] (split_nl s) = s.
Proof.
  induction s as [|c s IH]; [done|]. cbn [split_nl].
  destruct (N.eqb_spec c NL) as [->|Hc].
  - rewrite join_cons. pose proof (split_nl_nonempty s).
    destruct (split_nl s); [done|]. simpl in *. by rewrite IH.
  - pose proof (split_nl_nonempty s).
    destruct (split_nl s) as [|l ls]; [done|].
    rewrite join_cons in IH |- *. rewrite <- app_comm_cons. by f_equal.
Qed.

Lemma split_nl_no_NL s : Forall (Forall (fun c => c <> NL)) (split_nl s).
Proof.
  induction s as [|c s IH]; simpl; [by repeat constructor|].
  destruct (N.eqb_spec c NL) as [->|Hc]; [by constructor|].
  destruct (split_nl s) as [|l ls]; [by repeat constructor|].
  apply Forall_cons in IH as [Hl Hls]. constructor; [by constructor|done].
Qed.

Lemma readlines_split_nl s :
  readlines (s ++ [NL]) = (fun l => l ++ [NL]) <$> split_nl s.
Proof.
  induction s as [|c s IH]; [done|]. cbn [app readlines split_nl].
  destruct (N.eqb_spec c NL) as [->|_]; [by rewrite IH|].
  rewrite IH. pose proof (split_nl_nonempty s).
  by destruct (split_nl s).
Qed.

Lemma rstrip_nl_line l : Forall (fun c => c <> NL) l -> rstrip_nl (l ++ [NL]) = l.
Proof.
  intros H. unfold rstrip_nl, rstrip_with. rewrite reverse_app. simpl.
  rewrite (lstrip_with_fix (N.eqb NL) (reverse l)); [apply reverse_involutive|].
  apply Forall_reverse in H. destruct (reverse l) as [|c r]; [done|].
  apply Forall_cons in H as [Hc _]. unfold head_kept.
  by destruct (N.eqb_spec NL c).
Qed.

Lemma readlines_app a b :
  readlines ((a ++ [NL]) ++ b) = readlines (a ++ [NL]) ++ readlines b.
Proof.
  induction a as [|c a IH]; [done|]. cbn [app readlines].
  destruct (c =? NL)%N; [by rewrite IH|]. rewrite IH.
  destruct (readlines (a ++ [NL])) eqn:E; [|done].
  rewrite readlines_split_nl in E. pose proof (split_nl_nonempty a).
  by destruct (split_nl a).
Qed.

Lemma universal_newlines_id s :
  Forall (fun c => c <> CR) s -> universal_newlines s = s.
Proof.
  induction 1 as [|c s Hc _ IH]; [done|]. simpl.
  destruct (N.eqb_spec c CR); [done|]. by rewrite IH.
Qed.

Lemma universal_newlines_app a b :
  universal_newlines ((a ++ [NL]) ++ b)
    = universal_newlines (a ++ [NL]) ++ universal_newlines b
  /\ exists a', universal_newlines (a ++ [NL]) = a' ++ [NL].
Proof.
  assert (H : forall n a, (length a <= n)%nat ->
    universal_newlines ((a ++ [NL]) ++ b)
      = universal_newlines (a ++ [NL]) ++ universal_newlines b
    /\ exists a', universal_newlines (a ++ [NL]) = a' ++ [NL]).
  { clear a. induction n as [|n IH]; intros [|c a] Hlen; simpl in Hlen;
      try lia; try (split; [done|by exists []]).
    cbn [app universal_newlines].
    destruct (c =? CR)%N.
    - destruct a as [|d a].
      + simpl. split; [done|by exists []].
      + cbn [app]. destruct (d =? NL)%N.
        * destruct (IH a ltac:(simpl in *; lia)) as [-> [a' ->]].
          split; [done|]. by exists (NL :: a').
        * destruct (IH (d :: a) ltac:(simpl in *; lia)) as [E [a' E']].
          cbn [app] in E, E'. rewrite E, E'.
          split; [done|]. by exists (NL :: a').
    - destruct (IH a ltac:(lia)) as [-> [a' ->]].
      split; [done|]. by exists (c :: a'). }
  by apply (H (length a)).
Qed.

(** ** What the parser reads back *)

Lemma lstrip_app_lstrip l r : lstrip (lstrip l ++ r) = lstrip (l ++ r).
Proof.
  unfold lstrip. induction l as [|c l IH]; simpl; [done|].
  destruct (isspace c) eqn:E; [done|]. simpl. by rewrite E.
Qed.

Lemma parse_lines_append L1 h cs : delimiter h -> Forall plain_line cs ->
  parse_lines (L1 ++ h :: cs) =
    parse_lines L1
    ++ non_empty [strip (join [NL] (lstrip (drop 1 (rstrip_nl h))
                                      :: (rstrip_nl <$> cs)))].
Proof.
  intros Hh Hcs. rewrite !parse_lines_finish, foldl_app.
  destruct (foldl parse_step ([], []) L1) as [b1 c1]. cbn [foldl].
  unfold parse_step at 2. unfold delimiter in Hh. rewrite Hh.
  rewrite run_app, run_continuation by done.
  unfold finish, non_empty. cbn [fst snd]. rewrite app_nil_r.
  unfold flush at 1. cbn [app is_empty]. by rewrite filter_app.
Qed.

Lemma parse_lines_written L1 body :
  Forall (fun l => startswith l [GT] = false) (drop 1 (split_nl body)) ->
  parse_lines (L1 ++ readlines ((GT :: body) ++ [NL])) =
    parse_lines L1 ++ non_empty [strip body].
Proof.
  intros Hint. rewrite readlines_split_nl. cbn [split_nl].
  change (GT =? NL)%N with false. cbv iota.
  pose proof (split_nl_nonempty body) as Hne.
  pose proof (split_nl_no_NL body) as Hnl.
  pose proof (join_split_nl body) as Hj.
  destruct (split_nl body) as [|l0 ls]; [done|]. clear Hne.
  apply Forall_cons in Hnl as [Hl0 Hls]. cbn [drop] in Hint.
  cbn [fmap list_fmap].
  rewrite parse_lines_append.
  - f_equal. f_equal. f_equal.
    rewrite (rstrip_nl_line (GT :: l0)) by (by constructor). cbn [drop].
    assert (E : rstrip_nl <$> ((fun l => l ++ [NL]) <$> ls) = ls).
    { clear -Hls. induction Hls as [|l ls Hl _ IH]; [done|].
      cbn [fmap list_fmap]. by rewrite (rstrip_nl_line l Hl), IH. }
    change (list_fmap pystr pystr (fun l => l ++ [NL]) ls)
      with ((fun l => l ++ [NL]) <$> ls).
    rewrite E, <- Hj, !join_cons. unfold strip. by rewrite lstrip_app_lstrip.
  - unfold delimiter. rewrite (rstrip_nl_line (GT :: l0)) by (by constructor).
    by destruct l0.
  - clear -Hls Hint.
    induction Hls as [|l ls Hl _ IH]; [done|].
    apply Forall_cons in Hint as [H1 H2].
    constructor; [|by apply IH].
    unfold plain_line. by rewrite (rstrip_nl_line l Hl).
Qed.

(** Appending [>body\n] to a text that is empty or ends with a newline
    adds the stripped body as the last block, or no block when the body is
    blank. *)
Lemma parse_text_append old body :
  (old = [] \/ exists o, old = o ++ [NL]) ->
  Forall (fun c => c <> CR) body ->
  Forall (fun l => startswith l [GT] = false) (drop 1 (split_nl body)) ->
  parse_text (old ++ GT :: body ++ [NL]) =
    parse_text old ++ non_empty [strip body].
Proof.
  intros Hold Hcr Hint. unfold parse_text.
  assert (Hw : universal_newlines (GT :: body ++ [NL]) = (GT :: body) ++ [NL]).
  { apply universal_newlines_id. constructor; [done|].
    apply Forall_app. split; [done|]. by apply Forall_singleton. }
  destruct Hold as [->|[o ->]].
  - rewrite app_nil_l, Hw. by apply (parse_lines_written []).
  - destruct (universal_newlines_app o (GT :: body ++ [NL])) as [-> [a' Ea]].
    rewrite Hw, Ea, readlines_app. by apply parse_lines_written.
Qed.

Lemma startswith_GT block :
  startswith block [GT] = true -> block = GT :: drop 1 block.
Proof.
  destruct block as [|c block]; [done|]. cbn [startswith drop].
  by destruct (N.eqb_spec GT c) as [<-|].
Qed.

Lemma strip_nil : strip [] = [].
Proof. done. Qed.

(** A text that is empty or ends with a newline: the next block starts
    on a line of its own. *)
Definition line_ended (s : pystr) : Prop := s = [] \/ exists o, s = o ++ [NL].

(** The block of a snapshot can be read back: it has no carriage return
    and none of its lines after the first starts with [>]. *)
Definition readable (snap : snapshot) : Prop :=
  let block := strip (snap_text snap) in
  Forall (fun c => c <> CR) block
  /\ Forall (fun l => startswith l [GT] = false)
       (drop 1 (split_nl (block_body block))).

(** The block the parser finds for a snapshot that [watch] appended. *)
Definition read_back (snap : snapshot) : pystr :=
  strip (block_body (strip (snap_text snap))).

(** One turn of the loop either appends [>], the block and a newline to
    the output file, or leaves every file as it was. *)
Lemma watch_step_cases path st snap w :
  let block := strip (snap_text snap) in
  exists st' w',
    watch_step path st snap w = Ok (st', w')
    /\ (forall p, p <> path -> written w' p = written w p)
    /\ ((primed st = true /\ snap_text snap <> last_text st /\ block <> []
         /\ st' = {| last_text := snap_text snap; primed := true |}
         /\ written w' path =
              Some (default [] (written w path)
                    ++ GT :: block_body block ++ [NL]))
        \/ (written w' path = written w path
            /\ (block = [] \/ primed st = false
                \/ snap_text snap = last_text st))).
Proof.
  intros block. unfold watch_step. fold block.
  unfold mbind at 1, io_bind at 1.
  assert (Hblank : is_empty (snap_text snap) = true -> block = []).
  { unfold block. by destruct (snap_text snap). }
  destruct (fallback_used snap) as [fb|];
    [unfold print at 1|unfold mret at 1, io_ret at 1];
    (destruct (is_empty (snap_text snap)) eqn:E0; cbn [negb andb];
     [eexists _, _; split; [reflexivity|]; split; [done|];
      right; split; [done|]; left; by apply Hblank|]);
    (destruct (is_empty block) eqn:E1; cbn [negb];
     [eexists _, _; split; [reflexivity|]; split; [done|];
      right; split; [done|]; left; by destruct block|]);
    (destruct (primed st) eqn:Ep; cbn [negb];
     [|eexists _, _; split; [reflexivity|]; split; [done|];
       right; split; [done|]; right; by left]);
    unfold pystr_eqb;
    (destruct (decide (snap_text snap = last_text st)) as [Eq|Eq];
     [rewrite bool_decide_eq_true_2 by done; cbn [negb];
      eexists _, _; split; [reflexivity|]; split; [done|];
      right; split; [done|]; right; by right
     |rewrite bool_decide_eq_false_2 by done; cbn [negb]]);
    unfold mbind, io_bind, mret, io_ret, print, append_to, write, block_body;
    destruct (startswith block [GT]) eqn:Es;
    (eexists _, _; split; [reflexivity|]; cbn [written]; split;
     [by intros p Hp; rewrite bool_decide_eq_false_2|]);
    left; (split; [done|]; split; [done|]; split; [by destruct block|];
           split; [done|]);
    rewrite bool_decide_eq_true_2 by done;
    first [ done
          | change (GT :: drop 1 block ++ [NL])
              with ((GT :: drop 1 block) ++ [NL]);
            by rewrite <- (startswith_GT block Es) ].
Qed.


Lemma watch_loop_spec (path : pystr) (snaps : list snapshot) :
  forall (st : watch_state) (w : world),
  Forall readable snaps -> line_ended (default [] (written w path)) ->
  exists st' w' blocks,
    watch_loop path st snaps w = Ok (st', w')
    /\ (forall p, p <> path -> written w' p = written w p)
    /\ default [] (written w path) `prefix_of` default [] (written w' path)
    /\ line_ended (default [] (written w' path))
    /\ parse_text (default [] (written w' path))
         = parse_text (default [] (written w path)) ++ blocks
    /\ sublist blocks (read_back <$> snaps).
Proof.
  induction snaps as [|snap snaps IH]; intros st w Hall Hend.
  - exists st, w, []. cbn [watch_loop]. rewrite app_nil_r.
    by repeat (split; [done|]).
  - apply Forall_cons in Hall as [Hsnap Hall].
    cbn [watch_loop]. unfold mbind at 1, io_bind at 1.
    destruct (watch_step_cases path st snap w)
      as (st1 & w1 & -> & Hoth & Hcase).
    destruct Hcase as [(_ & _ & _ & _ & Hfile)|(Hfile & _)].
    + set (old := default [] (written w path)) in *.
      set (block := strip (snap_text snap)) in *.
      destruct Hsnap as [Hcr Hint]. fold block in Hcr, Hint.
      assert (Hbody : Forall (fun c => c <> CR) (block_body block)).
      { unfold block_body. destruct (startswith block [GT]); [|done].
        by apply Forall_drop. }
      pose proof (parse_text_append old (block_body block) Hend Hbody Hint) as HP.
      destruct (IH st1 w1 Hall) as (st' & w' & bs & Hrun & Hoth' & Hpre & He & Hparse & Hsub).
      { rewrite Hfile. right. exists (old ++ GT :: block_body block).
        simpl. by rewrite <- app_assoc. }
      exists st', w', (non_empty [read_back snap] ++ bs).
      split; [done|]. split; [intros p Hp; by rewrite Hoth', Hoth|].
      rewrite Hfile in Hpre, Hparse. cbn [from_option id] in Hpre, Hparse.
      split; [by etrans; [apply prefix_app_r|exact Hpre]|].
      split; [done|]. split; [by rewrite Hparse, HP, app_assoc|].
      cbn [fmap list_fmap]. unfold non_empty. rewrite filter_cons.
      destruct (decide (read_back snap <> [])).
      * by apply sublist_skip.
      * simpl. by apply sublist_cons.
    + destruct (IH st1 w1 Hall) as (st' & w' & bs & Hrun & Hoth' & Hpre & He & Hparse & Hsub).
      { by rewrite Hfile. }
      exists st', w', bs.
      split; [done|]. split; [intros p Hp; by rewrite Hoth', Hoth|].
      rewrite Hfile in Hpre, Hparse. repeat (split; [done|]).
      cbn [fmap list_fmap]. by apply sublist_cons.
Qed.


Definition demo_snapshot : snapshot :=
  {| fallback_used := None;
     snap_text := py "  Hello" ++ [NL] ++ py "world " |}.

Definition demo_watch_state : watch_state :=
  {| last_text := py "first"; primed := true |}.



(* ================================================================== *)
(** * Mixed mode: the order of the entries *)
(* ================================================================== *)

(** Comparison of floats is antisymmetric. *)
Lemma SFcompare_antisym x y : SFcompare y x = CompOpp <$> SFcompare x y.
Proof.
  destruct x as [[]|[]| |[] mx ex], y as [[]|[]| |[] my ey]; simpl; try done.
  - rewrite (Z.compare_antisym ex ey). destruct (ex ?= ey); simpl; try done.
    change (PosDef.Pos.compare_cont Eq my mx) with (my ?= mx)%positive.
    change (PosDef.Pos.compare_cont Eq mx my) with (mx ?= my)%positive.
    by rewrite (Pos.compare_antisym mx my).
  - rewrite (Z.compare_antisym ex ey). destruct (ex ?= ey); simpl; try done.
    change (PosDef.Pos.compare_cont Eq my mx) with (my ?= mx)%positive.
    change (PosDef.Pos.compare_cont Eq mx my) with (mx ?= my)%positive.
    by rewrite (Pos.compare_antisym mx my).
Qed.

Lemma SFcompare_defined x y :
  x <> S754_nan -> y <> S754_nan -> is_Some (SFcompare x y).
Proof. destruct x, y; simpl; try done; by eexists. Qed.

Lemma flt_fle x y : flt x y = true -> fle x y = true.
Proof. unfold flt, fle, SFltb, SFleb. by destruct (SFcompare x y) as [[]|]. Qed.

Lemma not_flt_fle x y :
  x <> S754_nan -> y <> S754_nan -> flt y x = false -> fle x y = true.
Proof.
  intros Hx Hy. unfold flt, fle, SFltb, SFleb. rewrite (SFcompare_antisym x y).
  destruct (SFcompare_defined x y Hx Hy) as [c ->]. by destruct c.
Qed.

Lemma feq_not_flt a b k :
  feq a k = true -> feq b k = true -> flt a b = false.
Proof.
  unfold feq, flt, SFeqb, SFltb.
  destruct a as [[]|[]| |[] ma ea], b as [[]|[]| |[] mb eb],
           k as [[]|[]| |[] mk ek]; simpl; try done.
  - destruct (Z.compare_spec ea ek) as [->| |]; try done.
    destruct (Z.compare_spec eb ek) as [->| |]; try done.
    change (PosDef.Pos.compare_cont Eq ?p ?q) with (p ?= q)%positive.
    destruct (Pos.compare_spec ma mk) as [->| |]; try done.
    destruct (Pos.compare_spec mb mk) as [->| |]; try done.
    intros _ _. by rewrite Z.compare_refl, Pos.compare_refl.
  - destruct (Z.compare_spec ea ek) as [->| |]; try done.
    destruct (Z.compare_spec eb ek) as [->| |]; try done.
    change (PosDef.Pos.compare_cont Eq ?p ?q) with (p ?= q)%positive.
    destruct (Pos.compare_spec ma mk) as [->| |]; try done.
    destruct (Pos.compare_spec mb mk) as [->| |]; try done.
    intros _ _. by rewrite Z.compare_refl, Pos.compare_refl.
Qed.

(** [a] does not start after [b]. *)
Definition starts_le (a b : mixed_item) : Prop :=
  fle (mi_start a) (mi_start b) = true.

Definition timed (it : mixed_item) : Prop := mi_start it <> S754_nan.

Lemma insert_by_start_hd x y l :
  timed x -> timed y -> starts_le y x -> HdRel starts_le y l ->
  HdRel starts_le y (insert_by_start x l).
Proof.
  intros Hx Hy Hyx Hl. destruct l as [|z l]; simpl; [by constructor|].
  destruct (flt (mi_start z) (mi_start x)); constructor; [|done].
  by inversion Hl.
Qed.

Lemma insert_by_start_sorted x l :
  timed x -> Forall timed l -> Sorted starts_le l ->
  Sorted starts_le (insert_by_start x l).
Proof.
  intros Hx Hl Hs. induction Hs as [|y l Hs IH Hhd]; simpl.
  - by repeat constructor.
  - apply Forall_cons in Hl as [Hy Hl].
    destruct (flt (mi_start y) (mi_start x)) eqn:E.
    + constructor; [by apply IH|].
      apply insert_by_start_hd; try done. by apply flt_fle.
    + constructor; [by constructor|]. constructor.
      by apply not_flt_fle.
Qed.

Lemma sort_by_start_sorted items :
  Forall timed items -> Sorted starts_le (sort_by_start items).
Proof.
  induction 1 as [|x l Hx Hl IH]; simpl; [constructor|].
  apply insert_by_start_sorted; [done| |done].
  unfold sort_by_start. fold (sort_by_start l).
  by rewrite sort_by_start_perm.
Qed.

Lemma pass_from_starts blocks items : forall cur,
  (fun e : float * float * pystr => e.1.1) <$> (pass_from blocks cur items).2
    = mi_start <$> items.
Proof.
  induction items as [|x l IH]; intros cur; simpl; [done|]. by rewrite IH.
Qed.

Lemma pass_from_times blocks items : forall cur,
  (fun e : float * float * pystr => e.1) <$> (pass_from blocks cur items).2
    = (fun it => (mi_start it, mi_end it)) <$> items.
Proof.
  induction items as [|x l IH]; intros cur; simpl; [done|]. by rewrite IH.
Qed.

(** X18.  Mixed mode emits its entries in the order of their start times,
    whatever the order of the elements on the tracks: as long as no start
    time is a NaN, the start times of the entries never decrease, and the
    entries carry the times of the elements, each element once. *)
Theorem mixed_entries_chronological
    (manual_blocks : list pystr) (items : list mixed_item) :
  Forall timed items ->
  let es := entries (pairing_pass manual_blocks (sort_by_start items)) in
  Sorted (fun a b => fle a b = true) ((fun e => e.1.1) <$> es)
  /\ (fun e => e.1) <$> es ≡ₚ (fun it => (mi_start it, mi_end it)) <$> items.
Proof.
  intros Hall es. unfold es. rewrite pairing_pass_spec. cbn [entries].
  rewrite pass_from_starts, pass_from_times. split.
  - apply Sorted_fmap with (R1 := starts_le); [done|].
    by apply sort_by_start_sorted.
  - by rewrite sort_by_start_perm.
Qed.

Lemma mixed_entries_chronological_witness :
  let es := entries (pairing_pass [py "m1"]
                       (sort_by_start [demo_mixed 5 text None;
                                       demo_mixed 2 text None])) in
  Sorted (fun a b => fle a b = true) ((fun e => e.1.1) <$> es)
  /\ (fun e => e.1) <$> es
     ≡ₚ (fun it => (mi_start it, mi_end it))
          <$> [demo_mixed 5 text None; demo_mixed 2 text None].
Proof.
  apply (mixed_entries_chronological [py "m1"]
           [demo_mixed 5 text None; demo_mixed 2 text None]).
  repeat (constructor; [by vm_compute|]). constructor.
Defined.

Lemma insert_by_start_filter (P : mixed_item -> Prop)
    `{!forall i, Decision (P i)} x l :
  (forall y, P x -> P y -> flt (mi_start y) (mi_start x) = false) ->
  filter P (insert_by_start x l) = filter P (x :: l).
Proof.
  intros HP. induction l as [|y l IH]; simpl; [done|].
  destruct (flt (mi_start y) (mi_start x)) eqn:E; [|done].
  rewrite filter_cons, IH, !filter_cons.
  destruct (decide (P y)) as [Hy|Hy], (decide (P x)) as [Hx|Hx]; try done.
  by rewrite (HP y Hx Hy) in E.
Qed.

(** X19.  The sort of mixed mode is stable: elements with equal start times
    keep the order in which the timeline lists them. *)
Theorem sort_by_start_stable (k : float) (items : list mixed_item) :
  filter (fun it => feq (mi_start it) k = true) (sort_by_start items)
    = filter (fun it => feq (mi_start it) k = true) items.
Proof.
  induction items as [|x l IH]; [done|]. cbn [sort_by_start foldr].
  fold (sort_by_start l). rewrite insert_by_start_filter.
  - by rewrite !filter_cons, IH.
  - intros y Hx Hy. by apply (feq_not_flt _ _ k).
Qed.

(* ================================================================== *)
(** * More on the ignore heuristic and on mixed mode *)
(* ================================================================== *)

Lemma any_pattern_subset lname ps qs :
  (forall p, p ∈ ps -> p ∈ qs) ->
  any_pattern lname ps = true -> any_pattern lname qs = true.
Proof.
  intros Hsub [p (Hp & Hne & Hc)]%any_pattern_true.
  apply any_pattern_true. exists p. auto.
Qed.

(** X20.  More ignore patterns never bring an element back: an element ignored
    with some extra patterns is ignored with any list that contains them,
    in any order. *)
Theorem should_ignore_monotone
    (lower : pystr -> pystr) (name : pystr) (duration : float)
    (ignore_effects : bool) (extra extra' : list pystr) :
  (forall p, p ∈ extra -> p ∈ extra') ->
  _should_ignore lower name duration ignore_effects extra = true ->
  _should_ignore lower name duration ignore_effects extra' = true.
Proof.
  intros Hsub. destruct ignore_effects; [|done].
  rewrite !should_ignore_enabled.
  intros [H|H]%orb_true_iff; apply orb_true_iff; [left|by right].
  eapply any_pattern_subset; [|exact H].
  intros p [Hp|Hp]%elem_of_app; apply elem_of_app; [by left|right].
  apply list_elem_of_fmap in Hp as (q & -> & Hq).
  by apply list_elem_of_fmap_2, Hsub.
Qed.

Lemma should_ignore_monotone_witness :
  _should_ignore lower_ascii (py "my FADE out") (float_const 100) true
    [py "wipe"; py "Fade"] = true.
Proof.
  apply (should_ignore_monotone lower_ascii _ _ true [py "Fade"]).
  - intros p Hp. by right.
  - by vm_compute.
Defined.

(** The text a tool yields, for the tool with a given id, if there is
    one. *)
Definition tool_text (comp : fusion_comp) (tid : pystr) : option pystr :=
  match FindToolByID comp tid with
  | Returns (Some tl) => pull_tool_text tl
  | _ => None
  end.

Lemma pull_styled_text_falsy comp tids : forall v0,
  truthy v0 = false ->
  Forall (fun tid => truthy (tool_text comp tid) = false) tids ->
  truthy (pull_styled_text comp tids v0) = false.
Proof.
  induction tids as [|tid tids IH]; intros v0 Hv0 Hall; [done|].
  apply Forall_cons in Hall as [Ht Hall]. cbn [pull_styled_text].
  unfold tool_text in Ht.
  destruct (FindToolByID comp tid) as [[tl|]|]; [|by apply IH..].
  rewrite Ht. by apply IH.
Qed.

Lemma pull_styled_text_first comp pre : forall v0 tid post,
  Forall (fun t => truthy (tool_text comp t) = false) pre ->
  truthy (tool_text comp tid) = true ->
  pull_styled_text comp (pre ++ tid :: post) v0 = tool_text comp tid.
Proof.
  induction pre as [|t pre IH]; intros v0 tid post Hpre Ht.
  - cbn [app pull_styled_text]. unfold tool_text in *.
    destruct (FindToolByID comp tid) as [[tl|]|]; try done. by rewrite Ht.
  - apply Forall_cons in Hpre as [Ht0 Hpre]. cbn [app pull_styled_text].
    unfold tool_text in Ht0.
    destruct (FindToolByID comp t) as [[tl|]|]; [|by apply IH..].
    rewrite Ht0. by apply IH.
Qed.

(** X21.  The styled text of a Text+ element is the text of the first tool,
    [TextPlus] before [Text], that yields a non-empty one; when neither
    does, the element has no text of its own and takes a manual block. *)
Theorem styled_text_first_tool (comp : fusion_comp) :
  let v := pull_styled_text comp [py "TextPlus"; py "Text"] None in
  (truthy (tool_text comp (py "TextPlus")) = true ->
   v = tool_text comp (py "TextPlus"))
  /\ (truthy (tool_text comp (py "TextPlus")) = false ->
      truthy (tool_text comp (py "Text")) = true ->
      v = tool_text comp (py "Text"))
  /\ (truthy (tool_text comp (py "TextPlus")) = false ->
      truthy (tool_text comp (py "Text")) = false ->
      truthy v = false).
Proof.
  intros v. split; [|split].
  - intros H. by apply (pull_styled_text_first comp []).
  - intros H1 H2.
    apply (pull_styled_text_first comp [py "TextPlus"] None (py "Text") []);
      [|done].
    by apply Forall_singleton.
  - intros H1 H2. apply pull_styled_text_falsy; [done|].
    by repeat constructor.
Qed.

Section MixedAgrees.
Variable lower : pystr -> pystr.

(** What a plain Text item contributes to either mode. *)
Definition plain_of (fps : float) (ignore_effects : bool)
    (extra_ignore : list pystr) (it : item) : list (float * float * pystr) :=
  match frames_div (GetStart it) fps, frames_div (GetEnd it) fps with
  | Ok s, Ok e =>
      if decide (has_fusion_comp it) then []
      else if _should_ignore lower (try_name it) (fsub e s) ignore_effects
                extra_ignore then []
      else [(s, e, try_name it)]
  | _, _ => []
  end.

Definition clip_times (c : clip) : float * float * pystr :=
  (clip_start c, clip_end c, clip_name c).

Definition mixed_times (i : mixed_item) : float * float * pystr :=
  (mi_start i, mi_end i, mi_name i).

Lemma gather_item_plain fps ig extra items it items' :
  gather_item lower fps true ig extra items it = Ok items' ->
  mixed_times <$> filter (fun i => mi_kind i = text) items'
    = (mixed_times <$> filter (fun i => mi_kind i = text) items)
      ++ plain_of fps ig extra it.
Proof.
  unfold gather_item, plain_of. intros H.
  destruct (frames_div (GetStart it) fps) as [s|]; [|done].
  destruct (frames_div (GetEnd it) fps) as [e|]; [|done].
  cbn [mbind result_bind] in H.
  destruct (_should_ignore _ _ _ _ _).
  { injection H as <-. destruct (decide _); by rewrite app_nil_r. }
  destruct (try_fusion_comp it) as [comp|] eqn:Ec; cbn [negb] in H;
    injection H as <-.
  - rewrite decide_True by (unfold has_fusion_comp; by rewrite Ec).
    rewrite filter_app, filter_cons_False by done.
    by rewrite filter_nil, !app_nil_r.
  - rewrite decide_False
      by (unfold has_fusion_comp; rewrite Ec; by intros [? ?]).
    rewrite filter_app, filter_cons_True by done.
    by rewrite filter_nil, fmap_app.
Qed.

Lemma collect_item_plain fps ig extra res it res' :
  collect_item lower fps true ig extra res it = Ok res' ->
  clip_times <$> res' = (clip_times <$> res) ++ plain_of fps ig extra it.
Proof.
  unfold collect_item, plain_of. intros H. cbn [andb] in H.
  fold (has_fusion_comp it) in H.
  destruct (decide (has_fusion_comp it)) as [Hc|Hc].
  { rewrite bool_decide_eq_true_2 in H by done. injection H as <-.
    destruct (frames_div (GetStart it) fps); [|by rewrite app_nil_r].
    destruct (frames_div (GetEnd it) fps); by rewrite app_nil_r. }
  rewrite bool_decide_eq_false_2 in H by done.
  destruct (frames_div (GetStart it) fps) as [s|]; [|done].
  destruct (frames_div (GetEnd it) fps) as [e|]; [|done].
  cbn [mbind result_bind] in H.
  destruct (_should_ignore _ _ _ _ _); injection H as <-.
  - by rewrite app_nil_r.
  - by rewrite fmap_app.
Qed.

Lemma plain_items_agree tl track_name ig extra items clips :
  gather_items lower tl track_name true ig extra = Ok items ->
  collect_clips lower (Some tl) track_name true ig (Some extra) = Ok clips ->
  mixed_times <$> filter (fun i => mi_kind i = text) items
    = clip_times <$> clips.
Proof.
  unfold gather_items, collect_clips. cbn [default from_option id].
  destruct (get_fps tl) as [fps|] eqn:Efps; [|done].
  cbn [mbind result_bind]. intros Hg Hc.
  apply (foldM_appends_eq
           (fun its => mixed_times <$> filter (fun i => mi_kind i = text) its)
           (fun tr => items_or_empty tr ≫= plain_of fps ig extra))
    in Hg.
  2:{ intros acc tr acc' H.
      apply (foldM_appends_eq
               (fun its => mixed_times <$> filter (fun i => mi_kind i = text) its)
               (plain_of fps ig extra)) in H; [done|].
      intros. by eapply gather_item_plain. }
  apply (foldM_appends_eq (fmap clip_times)
           (fun tr => items_or_empty tr ≫= plain_of fps ig extra))
    in Hc.
  2:{ intros acc tr acc' H. unfold collect_track in H. rewrite Efps in H.
      cbn [mbind result_bind] in H.
      apply (foldM_appends_eq (fmap clip_times)
               (plain_of fps ig extra)) in H; [done|].
      intros. by eapply collect_item_plain. }
  by rewrite Hg, Hc.
Qed.

(** X22.  Plain mode and mixed mode agree on the plain Text elements: when both
    collectors return for a track, the elements of kind [text] that mixed
    mode gathers are the clips of [collect_clips] with Text+ excluded, with
    the same times and names, in the same order. *)
Theorem mixed_plain_items_agree
    (tl : timeline_t) (track_name : pystr) (ignore_effects : bool)
    (extra : list pystr) (items : list mixed_item) (clips : list clip) :
  gather_items lower tl track_name true ignore_effects extra = Ok items ->
  collect_clips lower (Some tl) track_name true ignore_effects (Some extra)
    = Ok clips ->
  mixed_times <$> filter (fun i => mi_kind i = text) items
    = clip_times <$> clips.
Proof. apply plain_items_agree. Qed.

End MixedAgrees.

Lemma mixed_plain_items_agree_witness :
  mixed_times <$>
    filter (fun i => mi_kind i = text)
      [ {| mi_start := S754_zero false; mi_end := float_const 2;
           mi_kind := text; mi_api_text := None;
           mi_name := py "Title one" |};
        {| mi_start := float_lit 25 1; mi_end := float_const 5;
           mi_kind := text_plus; mi_api_text := None; mi_name := py "Text+" |};
        {| mi_start := float_const 5; mi_end := float_const 10;
           mi_kind := text; mi_api_text := None; mi_name := [] |} ]
  = clip_times <$> (clip_of_kept <$> demo_collected.1).
Proof.
  by apply (mixed_plain_items_agree lower_ascii demo_timeline (py "Subs") true []).
Defined.

Definition demo_comp : fusion_comp :=
  {| FindToolByID := fun tid =>
       if pystr_eqb tid (py "TextPlus")
       then Returns (Some {| GetInput_StyledText := Throws;
                             GetData_StyledText := Returns (Some (py "Hi")) |})
       else Throws |}.

Lemma styled_text_first_tool_witness :
  pull_styled_text demo_comp [py "TextPlus"; py "Text"] None = Some (py "Hi").
Proof. exact (proj1 (styled_text_first_tool demo_comp) eq_refl). Defined.

(* ================================================================== *)
(** * Applying manual blocks to Text+ clips *)
(* ================================================================== *)

(** The loop [for tid in ('TextPlus','Text')] of [apply_to_textplus]: the
    first tool found; a lookup that raises leaves [tool] as it was. *)
Fixpoint find_tool (comp : fusion_comp) (tids : list pystr)
    (tool_ : option tool) : option tool :=
  match tids with
  | [] => tool_
  | tid :: tids' =>
      match FindToolByID comp tid with
      | Returns (Some t) => Some t
      | Returns None => find_tool comp tids' None
      | Throws => find_tool comp tids' tool_
      end
  end.

Section Apply.
(** The outcome of [tool.SetInput('StyledText', text)] in the host. *)
Variable SetInput_StyledText : tool -> pystr -> api unit.

(** The state of the loop: [updated], and the calls of [SetInput] that
    succeeded so far, as the index of the clip and the text set. *)
Definition apply_step (blocks : list pystr) (clips : list textplus_clip)
    (st : nat * list (nat * pystr)) (i : nat)
    : result (nat * list (nat * pystr)) :=
  c ← getitem clips i;
  let comp := tp_comp c in
  match find_tool comp [py "TextPlus"; py "Text"] None with
  | None => Ok st
  | Some t =>
      match getitem blocks i with
      | Ok b =>
          match SetInput_StyledText t b with
          | Returns _ => Ok (S st.1, st.2 ++ [(i, b)])
          | Throws => Ok st
          end
      | Raise _ => Ok st
      end
  end.

Definition ok_applied (updated count : Z) : pystr :=
  py "[ok] applied " ++ str_of_int updated ++ py "/" ++ str_of_int count
    ++ py " blocks to Text+ clips".

(** [apply_to_textplus]; the value is the list of the calls of [SetInput]
    that succeeded. *)
Definition apply_to_textplus (timeline : option timeline_t)
    (blocks : list pystr) (track_name : pystr) : io (list (nat * pystr)) :=
  clips ← lift (collect_textplus_clips timeline track_name);
  if is_empty clips then
    _ ← print (py "[warn] no Text+ clips found"); mret []
  else
    let count := Nat.min (length blocks) (length clips) in
    st ← lift (foldM (apply_step blocks clips) (0%nat, []) (seq 0 count));
    _ ← print (ok_applied (Z.of_nat st.1) (Z.of_nat count));
    mret st.2.

Lemma apply_loop blocks clips n : forall k st st',
  (k + n <= length clips)%nat ->
  foldM (apply_step blocks clips) st (seq k n) = Ok st' ->
  exists new,
    st'.2 = st.2 ++ new /\ st'.1 = (st.1 + length new)%nat
    /\ Forall (fun ib => (k <= ib.1 < k + n)%nat /\ blocks !! ib.1 = Some ib.2) new
    /\ StronglySorted lt (fst <$> new).
Proof.
  induction n as [|n IH]; intros k st st' Hk H; cbn [seq foldM] in H.
  - injection H as <-. exists []. rewrite app_nil_r.
    split; [done|]. split; [simpl; lia|]. split; constructor.
  - destruct (apply_step blocks clips st k) as [st1|] eqn:E; [|done].
    cbn [mbind result_bind] in H.
    destruct (IH (S k) st1 st' ltac:(lia) H) as (new & E2 & E1 & Hall & Hs).
    assert (Hstep : (st1 = st)
                    \/ exists b, blocks !! k = Some b
                         /\ st1 = (S st.1, st.2 ++ [(k, b)])).
    { unfold apply_step, getitem in E.
      destruct (clips !! k) as [c|]; [|done]. cbn [mbind result_bind] in E.
      destruct (find_tool _ _ _) as [t|]; [|injection E as <-; by left].
      destruct (blocks !! k) as [b|] eqn:Eb; [|injection E as <-; by left].
      destruct (SetInput_StyledText t b); injection E as <-; [|by left].
      right. by exists b. }
    destruct Hstep as [->|(b & Hb & ->)].
    + exists new. split; [done|]. split; [done|]. split; [|done].
      eapply Forall_impl; [exact Hall|]. intros [i x] [? ?]. simpl in *.
      split; [lia|done].
    + exists ((k, b) :: new). cbn [fst snd] in *. split; [|split; [|split]].
      * by rewrite E2, <- app_assoc.
      * rewrite E1. simpl. lia.
      * constructor; [simpl; split; [lia|done]|].
        eapply Forall_impl; [exact Hall|]. intros [i x] [? ?]. simpl in *.
        split; [lia|done].
      * cbn [fmap list_fmap fst]. constructor; [done|].
        apply Forall_fmap. eapply Forall_impl; [exact Hall|].
        intros [i x] [? ?]. simpl in *. lia.
Qed.

End Apply.

Definition demo_tool : tool :=
  {| GetInput_StyledText := Returns None; GetData_StyledText := Throws |}.

Definition demo_textplus_item : item :=
  {| GetStart := 0; GetEnd := 24; GetName := Returns (Some (py "Text+"));
     GetFusionCompByIndex :=
       Returns (Some {| FindToolByID := fun tid =>
                          if pystr_eqb tid (py "Text")
                          then Returns (Some demo_tool) else Throws |}) |}.

Definition demo_textplus_timeline : timeline_t :=
  {| video_tracks :=
       [ {| GetTrackName := py "Subs";
            GetItemListInTrack := Some [demo_textplus_item; demo_title;
                                        demo_textplus_item] |} ];
     timelineFrameRate := Some (float_const 24) |}.


(* ================================================================== *)
(** * The commands *)
(* ================================================================== *)

Section Commands.
Variable lower : pystr -> pystr.
Variable SetInput_StyledText : tool -> pystr -> api unit.

(** A command body that runs once [_ensure_timeline] has let it through. *)
Definition with_timeline (timeline : option timeline_t) (body : io unit)
    : io status :=
  s ← _ensure_timeline timeline;
  match s with
  | Exit code => mret (Exit code)
  | Done => _ ← body; mret Done
  end.

(** [count] *)
Definition count (timeline : option timeline_t) (track : pystr)
    (include_text_plus no_ignore_effects : bool)
    (extra_ignore : option (list pystr)) : io status :=
  with_timeline timeline (
    clips ← lift (collect_clips lower timeline track (negb include_text_plus)
                    (negb no_ignore_effects) (Some (default [] extra_ignore)));
    echo (str_of_int (len clips))).

(** [tracks] *)
Definition tracks (timeline : option timeline_t) : io status :=
  with_timeline timeline (
    for_each (default [] (video_tracks <$> timeline))
      (fun tr => echo (GetTrackName tr))).

(** [srt] *)
Definition srt (fs : filesystem) (timeline : option timeline_t)
    (input output track : pystr) (include_text_plus no_ignore_effects : bool)
    (extra_ignore : option (list pystr)) : io status :=
  with_timeline timeline (
    blocks ← lift (parse_manual fs (Some input));
    if include_text_plus then
      write_srt_mixed lower timeline blocks track output true
        (negb no_ignore_effects) (Some (default [] extra_ignore))
    else
      clips ← lift (collect_clips lower timeline track true
                      (negb no_ignore_effects)
                      (Some (default [] extra_ignore)));
      write_srt blocks clips output).

(** [apply] *)
Definition apply (fs : filesystem) (timeline : option timeline_t)
    (input track : pystr) : io status :=
  with_timeline timeline (
    blocks ← lift (parse_manual fs (Some input));
    _ ← apply_to_textplus SetInput_StyledText timeline blocks track;
    mret tt).
End Commands.

(** The clip times [write_srt] can format. *)
Definition formattable_clip (c : clip) : Prop :=
  (good (clip_start c)
   /\ flt (clip_start c) (float_const 86399999999999) = true)
  /\ good (clip_end c)
     /\ flt (clip_end c) (float_const 86399999999999) = true.

Lemma write_srt_file blocks clips out_path w :
  Forall formattable_clip clips ->
  exists w',
    write_srt blocks clips out_path w = Ok (tt, w')
    /\ written w' out_path = Some (mjoin (imap plain_record (zip blocks clips)))
    /\ (forall p, p <> out_path -> written w' p = written w p).
Proof.
  intros Hall.
  set (n := Nat.min (length blocks) (length clips)).
  set (w1 := {| stdout := stdout w ++
                  (if bool_decide (length blocks = length clips) then []
                   else [warn_truncating (len blocks) (len clips) (Z.of_nat n)]);
                written := fun p => if bool_decide (p = out_path)
                                    then Some [] else written w p |}).
  assert (Hlen : length (zip blocks clips) = n).
  { unfold n. by rewrite length_zip. }
  destruct (plain_loop_ok blocks clips out_path (zip blocks clips) 0 w1 [])
    as (w2 & Hrun & Hout & Hoth & Hfile).
  { intros j [b c] Hj. simpl.
    apply lookup_zip_with_Some in Hj as (b' & c' & [= <- <-] & Hb & Hc).
    split; [done|]. split; [done|].
    eapply Forall_lookup_1 in Hall as [[G1 B1] [G2 B2]]; [|exact Hc].
    split; by apply fmt_time_in_range. }
  { simpl. by rewrite bool_decide_eq_true_2. }
  rewrite Hlen in Hrun.
  exists {| stdout := stdout w2 ++ [ok_wrote (Z.of_nat n) out_path];
            written := written w2 |}.
  split; [|split].
  - unfold write_srt. fold n.
    change (for_each (seq 0 n) _) with
      (for_each (seq 0 n) (plain_body blocks clips out_path)).
    unfold mbind, io_bind, when, print, open_w.
    destruct (Nat.eqb_spec (length blocks) (length clips)) as [E|E]; simpl.
    + replace w1 with
        {| stdout := stdout w;
           written := fun p => if bool_decide (p = out_path)
                               then Some [] else written w p |} in Hrun.
      * by rewrite Hrun.
      * unfold w1. rewrite bool_decide_eq_true_2 by done.
        by rewrite app_nil_r.
    + unfold w1 in Hrun. rewrite bool_decide_eq_false_2 in Hrun by done.
      by rewrite Hrun.
  - simpl. by rewrite Hfile.
  - intros p Hne. simpl. rewrite (Hoth p Hne). simpl.
    by rewrite bool_decide_eq_false_2.
Qed.



(* ================================================================== *)
(** * Clip times: frame numbers over the frame rate *)
(* ================================================================== *)

Lemma sticky_ratio A B C D :
  0 <= A -> 0 <= C -> 0 < B -> 0 < D -> A * D = C * B ->
  sticky A B = sticky C D.
Proof. intros. apply Z.le_antisymm; apply sticky_mono; lia. Qed.

Lemma tcode_ratio u v u' v' e :
  0 <= u -> 0 <= u' -> 0 < v -> 0 < v' -> u * v' = u' * v ->
  tcode u v e = tcode u' v' e.
Proof.
  intros Hu Hu' Hv Hv' E. unfold tcode.
  pose proof (pow2_pos (Z.max 0 (1 - e)) ltac:(lia)).
  pose proof (pow2_pos (Z.max 0 (e - 1)) ltac:(lia)).
  apply sticky_ratio; try nia.
  transitivity (u * v' * (2 ^ Z.max 0 (1 - e) * 2 ^ Z.max 0 (e - 1))); [ring|].
  rewrite E. ring.
Qed.

Lemma rounds_ratio u v u' v' r :
  0 <= u -> 0 <= u' -> 0 < v -> 0 < v' -> u * v' = u' * v ->
  rounds u v r -> rounds u' v' r.
Proof.
  intros Hu Hu' Hv Hv' E [[-> Hr]|(t & Ex & (-> & St) & ->)].
  - left. split; [nia|done].
  - right. exists (tcode u' v' Ex), Ex.
    pose proof (tcode_ratio u v u' v' Ex Hu Hu' Hv Hv' E) as Et.
    unfold stage1. rewrite <- Et. destruct St as (? & ? & ?). by repeat split.
Qed.

Lemma div_core_general m1 e1 m2 e2 : 0 < m1 -> 0 < m2 ->
  exists q e l,
    SFdiv_core_binary prec emax m1 e1 m2 e2 = (q, e, l)
    /\ 0 <= q
    /\ 4 * q + loc_code l =
         tcode (m1 * 2 ^ Z.max 0 (e1 - e2)) (m2 * 2 ^ Z.max 0 (e2 - e1)) e
    /\ e <= fexp (Zdigits2 q + e).
Proof.
  intros Hu Hv. unfold SFdiv_core_binary. rewrite fexp_eq.
  destruct (Zdigits2_bounds m1 Hu) as (Hd1 & B1 & B1').
  destruct (Zdigits2_bounds m2 Hv) as (Hd2 & B2 & B2').
  revert Hd1 B1 B1' Hd2 B2 B2'. generalize (Zdigits2 m1) (Zdigits2 m2).
  intros d1 d2 Hd1 B1 B1' Hd2 B2 B2'.
  set (e := Z.min (fexp (d1 + e1 - (d2 + e2))) (e1 - e2)).
  set (s := e1 - e2 - e).
  assert (Hs : 0 <= s) by (unfold s, e; lia).
  assert (Hm : match s with
               | 0 => m1
               | Z.pos _ => Z.shiftl m1 s
               | Z.neg _ => 0
               end = m1 * 2 ^ s).
  { destruct s as [|p|p] eqn:E; [simpl; lia| |lia].
    by rewrite Z.shiftl_mul_pow2. }
  rewrite Hm. pose proof (pow2_pos s Hs) as HP.
  set (m := m1 * 2 ^ s) in *.
  assert (Hm0 : 0 <= m) by (unfold m; nia).
  pose proof (Z.div_mod m m2 ltac:(lia)) as Edm.
  pose proof (Z.mod_pos_bound m m2 Hv) as Bm.
  assert (Hde : Z.div_eucl m m2 = (m / m2, m mod m2)).
  { unfold Z.div, Z.modulo. by destruct (Z.div_eucl m m2). }
  rewrite Hde. exists (m / m2), e, (new_location m2 (m mod m2)).
  split; [done|]. split; [by apply Z.div_pos|]. split.
  - rewrite new_location_code by done. rewrite <- sticky_half by done.
    unfold tcode.
    pose proof (pow2_pos (Z.max 0 (e1 - e2)) ltac:(lia)).
    pose proof (pow2_pos (Z.max 0 (e2 - e1)) ltac:(lia)).
    pose proof (pow2_pos (Z.max 0 (1 - e)) ltac:(lia)).
    pose proof (pow2_pos (Z.max 0 (e - 1)) ltac:(lia)).
    apply sticky_ratio; try nia.
    assert (E2 : 2 * 2 ^ s * (2 ^ Z.max 0 (e2 - e1) * 2 ^ Z.max 0 (e - 1))
                 = 2 ^ Z.max 0 (e1 - e2) * 2 ^ Z.max 0 (1 - e)).
    { change 2 with (2 ^ 1) at 1. rewrite <- !pow2_split by lia.
      f_equal. unfold s. lia. }
    unfold m.
    transitivity (m1 * m2 * (2 * 2 ^ s * (2 ^ Z.max 0 (e2 - e1)
                                           * 2 ^ Z.max 0 (e - 1)))); [ring|].
    rewrite E2. ring.
  - etrans; [apply Z.le_min_l|]. fold e. apply fexp_mono.
    replace (d1 + e1 - (d2 + e2)) with (d1 - d2 + s + e) by (unfold s; lia).
    destruct (Z_le_gt_dec (d1 - d2 + s) 0) as [Hk|Hk].
    + assert (0 <= Zdigits2 (m / m2)); [|lia].
      destruct (m / m2) as [|p|p] eqn:E; simpl; try lia.
    + assert (d1 - d2 + s <= Zdigits2 (m / m2)); [|lia].
      replace (d1 - d2 + s) with ((d1 - d2 + s - 1) + 1) by lia.
      apply Zdigits2_ge; [lia|].
      apply Z.div_le_lower_bound; [lia|].
      assert (2 ^ (d1 - 1) * 2 ^ s = 2 ^ (d1 - d2 + s - 1) * 2 ^ d2).
      { rewrite <- !pow2_split by lia. f_equal; lia. }
      pose proof (pow2_pos (d1 - d2 + s - 1) ltac:(lia)).
      unfold m. nia.
Qed.

(** The quotient of two non-negative finite floats is the rounding of the
    quotient of their values. *)
Lemma fdiv_rounds x y : good x -> good y -> 0 < ord y ->
  rounds (ord x) (ord y) (SFdiv prec emax x y).
Proof.
  intros Hx Hy Hy0.
  destruct y as [sy| | |[] my ey]; try done.
  destruct x as [sx| | |[] mx ex]; try done.
  { left. split; [done|]. by eexists. }
  destruct (good_facts _ _ Hx) as ((Hex & _) & _).
  destruct (good_facts _ _ Hy) as ((Hey & _) & _).
  cbn [SFdiv xorb].
  destruct (div_core_general (Z.pos mx) ex (Z.pos my) ey ltac:(lia) ltac:(lia))
    as (q & e & l & -> & Hq & Hc & He).
  pose proof (pow2_pos (Z.max 0 (ex - ey)) ltac:(lia)).
  pose proof (pow2_pos (Z.max 0 (ey - ex)) ltac:(lia)).
  pose proof (pow2_pos (ex - emin) ltac:(lia)).
  pose proof (pow2_pos (ey - emin) ltac:(lia)).
  destruct (binary_round_aux_spec q e l
              (Z.pos mx * 2 ^ Z.max 0 (ex - ey))
              (Z.pos my * 2 ^ Z.max 0 (ey - ex))
              Hq ltac:(nia) ltac:(nia) Hc He)
    as (t & Ex & St & ->).
  apply (rounds_ratio (Z.pos mx * 2 ^ Z.max 0 (ex - ey))
           (Z.pos my * 2 ^ Z.max 0 (ey - ex))); cbn [ord]; try nia.
  - assert (E2 : 2 ^ Z.max 0 (ex - ey) * 2 ^ (ey - emin)
                 = 2 ^ (ex - emin) * 2 ^ Z.max 0 (ey - ex)).
    { rewrite <- !pow2_split by lia. f_equal. lia. }
    transitivity (Z.pos mx * Z.pos my
                  * (2 ^ Z.max 0 (ex - ey) * 2 ^ (ey - emin))); [ring|].
    rewrite E2. ring.
  - right. by exists t, Ex.
Qed.

(** An integer below [2^53] converts to a float exactly. *)
Lemma float_const_exact z : 0 <= z < 2 ^ 53 ->
  float_of_int z = Ok (float_const z)
  /\ good (float_const z) /\ ord (float_const z) = z * den.
Proof.
  intros Hz. pose proof den_pos as Hd.
  assert (G : good (float_const (2 ^ 53))) by (by vm_compute).
  assert (E : ord (float_const (2 ^ 53)) = 2 ^ 53 * den) by (by vm_compute).
  destruct (float_of_int_le z (float_const (2 ^ 53)) ltac:(lia) G) as [Ei F].
  { rewrite E. nia. }
  pose proof (float_const_rounds z ltac:(lia)) as R.
  split; [done|]. split; [apply (rounds_good z 1); [lia|lia|done|done]|].
  apply (rounds_exact z 1 (float_const z) z 0); try done; try lia.
  unfold is_dyadic. change (Z.max 0 (- 0)) with 0. change (Z.max 0 0) with 0.
  rewrite Z.pow_0_r. lia.
Qed.

(** Frame numbers over a frame rate of at least one frame per second. *)
Lemma frames_div_good frames fps :
  0 <= frames < 2 ^ 53 -> good fps -> fle (float_const 1) fps = true ->
  exists t, frames_div frames fps = Ok t /\ good t /\ ord t <= frames * den.
Proof.
  intros Hf Hg Hle. pose proof den_pos as Hd.
  destruct (float_const_exact frames Hf) as (Ei & Gc & Ec).
  apply (fle_ord (float_const 1) fps) in Hle; [|by vm_compute|done].
  rewrite ord_one in Hle.
  unfold frames_div. rewrite Ei. cbn [mbind result_bind].
  assert (Hnz : float_div (float_const frames) fps
                = Ok (SFdiv prec emax (float_const frames) fps)).
  { by destruct fps as [s| | |[] m e]. }
  rewrite Hnz.
  pose proof (fdiv_rounds (float_const frames) fps Gc Hg ltac:(lia)) as R.
  pose proof (good_ord_nonneg (float_const frames)) as H0.
  assert (F : is_finite (SFdiv prec emax (float_const frames) fps) = true).
  { apply (rounds_finite_le (ord (float_const frames)) (ord fps) _
             (ord (float_const frames)) den (float_const frames));
      first [done | lia | nia | by apply good_rounds
            | by apply good_finite_true]. }
  assert (G : good (SFdiv prec emax (float_const frames) fps)).
  { apply (rounds_good (ord (float_const frames)) (ord fps)); [done|lia|done|done]. }
  eexists. split; [done|]. split; [done|]. rewrite <- Ec.
  apply (rounds_mono (ord (float_const frames)) (ord fps) _
           (ord (float_const frames)) den (float_const frames));
    first [done | lia | nia | by apply good_rounds
          | by apply good_finite_true].
Qed.

(** A time [_fmt_time] accepts. *)
Definition formattable_time (t : float) : Prop :=
  good t /\ flt t (float_const 86399999999999) = true.

(** A frame number that gives such a time at one frame per second or
    more. *)
Definition frame_in_range (n : Z) : Prop := 0 <= n < 86399999999999.

Lemma frames_div_formattable frames fps :
  frame_in_range frames -> good fps -> fle (float_const 1) fps = true ->
  exists t, frames_div frames fps = Ok t /\ formattable_time t.
Proof.
  intros Hf Hg Hle. pose proof den_pos as Hd. unfold frame_in_range in Hf.
  destruct (frames_div_good frames fps) as (t & Et & Gt & Ht); try done.
  { change (2 ^ 53) with 9007199254740992. lia. }
  exists t. split; [done|]. split; [done|].
  apply flt_ord; [done|by vm_compute|].
  assert (E : ord (float_const 86399999999999) = 86399999999999 * den)
    by (by vm_compute).
  rewrite E. nia.
Qed.

Lemma foldM_total {A S} (P : S -> Prop) (Q : A -> Prop)
    (body : S -> A -> result S) :
  (forall acc x, P acc -> Q x -> exists acc', body acc x = Ok acc' /\ P acc') ->
  forall l acc, P acc -> Forall Q l ->
    exists acc', foldM body acc l = Ok acc' /\ P acc'.
Proof.
  intros Hbody. induction l as [|x l IH]; intros acc HP Hl; simpl.
  - by exists acc.
  - apply Forall_cons in Hl as [Hx Hl].
    destruct (Hbody acc x HP Hx) as (acc1 & -> & HP1). simpl. by apply IH.
Qed.

Lemma Forall_bind_tracks (Q : item -> Prop) (trs : list track) :
  Forall Q (trs ≫= items_or_empty) ->
  Forall (fun tr => Forall Q (items_or_empty tr)) trs.
Proof.
  induction trs as [|tr trs IH]; [done|]. cbn [mbind list_bind].
  intros [H1 H2]%Forall_app. constructor; [done|by apply IH].
Qed.

(** An item whose frame numbers are in range. *)
Definition item_in_range (it : item) : Prop :=
  frame_in_range (GetStart it) /\ frame_in_range (GetEnd it).

(** A frame rate of one frame per second or more. *)
Definition rate_ok (fps : float) : Prop :=
  good fps /\ fle (float_const 1) fps = true.

Section Totality.
Variable lower : pystr -> pystr.

Lemma collect_item_total fps ex ig extra res it :
  rate_ok fps -> Forall formattable_clip res -> item_in_range it ->
  exists res', collect_item lower fps ex ig extra res it = Ok res'
               /\ Forall formattable_clip res'.
Proof.
  intros [Hg Hle] Hres [Hs He]. unfold collect_item.
  destruct (ex && _); [by exists res|].
  destruct (frames_div_formattable _ fps Hs Hg Hle) as (s & -> & Fs).
  destruct (frames_div_formattable _ fps He Hg Hle) as (e & -> & Fe).
  cbn [mbind result_bind].
  destruct (_should_ignore _ _ _ _ _); [by exists res|].
  eexists. split; [done|]. apply Forall_app. split; [done|].
  apply Forall_singleton. by split.
Qed.

Lemma collect_clips_total tl fps track ex ig extra :
  timelineFrameRate tl = Some fps -> rate_ok fps ->
  Forall item_in_range (raw_items tl track) ->
  exists clips, collect_clips lower (Some tl) track ex ig extra = Ok clips
                /\ Forall formattable_clip clips.
Proof.
  intros Hfps Hrate Hall. cbn [collect_clips].
  apply (foldM_total (Forall formattable_clip)
           (fun tr => Forall item_in_range (items_or_empty tr)));
    [|done|by apply Forall_bind_tracks].
  intros res tr Hres Htr. unfold collect_track, get_fps. rewrite Hfps.
  cbn [mbind result_bind].
  apply (foldM_total (Forall formattable_clip) item_in_range); [|done|done].
  intros. by apply collect_item_total.
Qed.

Lemma gather_item_total fps inc ig extra items it :
  rate_ok fps ->
  Forall (fun i => formattable_time (mi_start i) /\ formattable_time (mi_end i))
    items ->
  item_in_range it ->
  exists items', gather_item lower fps inc ig extra items it = Ok items'
    /\ Forall (fun i => formattable_time (mi_start i)
                        /\ formattable_time (mi_end i)) items'.
Proof.
  intros [Hg Hle] Hitems [Hs He]. unfold gather_item.
  destruct (frames_div_formattable _ fps Hs Hg Hle) as (s & -> & Fs).
  destruct (frames_div_formattable _ fps He Hg Hle) as (e & -> & Fe).
  cbn [mbind result_bind].
  destruct (_should_ignore _ _ _ _ _); [by exists items|].
  destruct (try_fusion_comp it) as [comp|].
  - destruct (negb inc); [by exists items|].
    eexists. split; [done|]. apply Forall_app. split; [done|].
    by apply Forall_singleton.
  - eexists. split; [done|]. apply Forall_app. split; [done|].
    by apply Forall_singleton.
Qed.

Lemma gather_items_total tl fps track inc ig extra :
  timelineFrameRate tl = Some fps -> rate_ok fps ->
  Forall item_in_range (raw_items tl track) ->
  exists items, gather_items lower tl track inc ig extra = Ok items
    /\ Forall (fun i => formattable_time (mi_start i)
                        /\ formattable_time (mi_end i)) items.
Proof.
  intros Hfps Hrate Hall. unfold gather_items, get_fps. rewrite Hfps.
  cbn [mbind result_bind].
  apply (foldM_total
           (Forall (fun i => formattable_time (mi_start i)
                             /\ formattable_time (mi_end i)))
           (fun tr => Forall item_in_range (items_or_empty tr)));
    [|done|by apply Forall_bind_tracks].
  intros items tr Hitems Htr.
  apply (foldM_total
           (Forall (fun i => formattable_time (mi_start i)
                             /\ formattable_time (mi_end i)))
           item_in_range); [|done|done].
  intros. by apply gather_item_total.
Qed.
End Totality.

Lemma formattable_time_ok t : formattable_time t -> is_Ok (_fmt_time t) = true.
Proof. intros [G B]. by apply fmt_time_in_range. Qed.

Lemma emit_mixed_total manual_blocks items out_path w :
  Forall (fun i => formattable_time (mi_start i) /\ formattable_time (mi_end i))
    items ->
  exists w', emit_mixed manual_blocks items out_path w = Ok (tt, w').
Proof.
  intros Hall.
  destruct (emit_mixed manual_blocks items out_path w) as [[[] w']|e] eqn:E;
    [by exists w'|].
  exfalso. unfold emit_mixed in E.
  unfold mbind at 1, io_bind at 1 in E.
  destruct (when _ _ w) as [[[] w1]|e1] eqn:E1.
  2:{ unfold when, print in E1. by destruct (_ <? _)%nat. }
  unfold mbind at 1, io_bind at 1 in E.
  destruct (when _ _ w1) as [[[] w2]|e2] eqn:E2.
  2:{ unfold when, print in E2. by destruct (negb _). }
  unfold mbind at 1, io_bind at 1 in E. unfold open_w at 1 in E.
  unfold mbind at 1, io_bind at 1 in E.
  destruct (for_each _ _ _) as [[[] w3]|e3] eqn:E3; [done|].
  apply for_each_raises in E3 as ([idx [[s e'] txt]] & w4 & Hin & Hr).
  apply list_elem_of_lookup in Hin as [i Hi].
  rewrite list_lookup_imap in Hi.
  destruct (entries _ !! i) as [[[s0 e0] txt0]|] eqn:Ei; [|done].
  injection Hi as <- <- <- <-.
  assert (Ht : (s0, e0) ∈ (fun it => (mi_start it, mi_end it)) <$> items).
  { rewrite <- (sort_by_start_perm items).
    rewrite <- (pass_from_times manual_blocks (sort_by_start items) 0).
    rewrite pairing_pass_spec in Ei. cbn [entries] in Ei.
    apply list_elem_of_fmap. exists (s0, e0, txt0). split; [done|].
    by eapply list_elem_of_lookup_2. }
  apply list_elem_of_fmap in Ht as (it & [= -> ->] & Hit).
  rewrite list.Forall_forall in Hall. destruct (Hall it Hit) as [Hs He].
  apply formattable_time_ok in Hs, He.
  unfold mbind, io_bind, lift in Hr.
  destruct (_fmt_time (mi_start it)); [|done].
  by destruct (_fmt_time (mi_end it)).
Qed.



(* ================================================================== *)
(** * Mixed mode on a track without Text+ is plain mode *)
(* ================================================================== *)

(** The body of the writing loop of mixed mode. *)
Definition mixed_body (out_path : pystr)
    (x : Z * (float * float * pystr)) : io unit :=
  let '(idx, (s, e, txt)) := x in
  fs ← lift (_fmt_time s);
  fe ← lift (_fmt_time e);
  write out_path (srt_record idx fs fe txt).

Definition mixed_record (x : Z * (float * float * pystr)) : pystr :=
  let '(idx, (s, e, txt)) := x in
  srt_record idx (timecode s) (timecode e) txt.

Lemma mixed_loop_file out_path l : forall w w' acc,
  for_each l (mixed_body out_path) w = Ok (tt, w') ->
  written w out_path = Some acc ->
  written w' out_path = Some (acc ++ mjoin (mixed_record <$> l)).
Proof.
  induction l as [|[idx [[s e] txt]] l IH]; intros w w' acc H Hw.
  - injection H as <-. simpl. by rewrite app_nil_r.
  - cbn [for_each] in H. unfold mbind at 1, io_bind at 1 in H.
    destruct (mixed_body out_path (idx, (s, e, txt)) w) as [[[] w1]|] eqn:E;
      [|done].
    unfold mixed_body, mbind, io_bind, lift in E.
    destruct (_fmt_time s) as [fs|] eqn:Es; [|done].
    destruct (_fmt_time e) as [fe|] eqn:Ee; [|done].
    injection E as <-.
    rewrite (IH _ w' (acc ++ srt_record idx fs fe txt) H).
    + cbn [fmap list_fmap mjoin list_join mixed_record]. unfold timecode.
      by rewrite Es, Ee, <- app_assoc.
    + simpl. rewrite bool_decide_eq_true_2 by done. by rewrite Hw.
Qed.

Lemma emit_mixed_file manual_blocks items out_path w w' :
  emit_mixed manual_blocks items out_path w = Ok (tt, w') ->
  written w' out_path =
    Some (mjoin (mixed_record <$>
                   imap (fun i e => (Z.of_nat i + 1, e))
                     (entries (pairing_pass manual_blocks
                                 (sort_by_start items))))).
Proof.
  intros E. unfold emit_mixed in E.
  unfold mbind at 1, io_bind at 1 in E.
  destruct (when _ _ w) as [[[] w1]|e1] eqn:E1; [|done].
  unfold mbind at 1, io_bind at 1 in E.
  destruct (when _ _ w1) as [[[] w2]|e2] eqn:E2; [|done].
  unfold mbind at 1, io_bind at 1 in E. unfold open_w at 1 in E.
  unfold mbind at 1, io_bind at 1 in E.
  match type of E with
  | match for_each ?l ?body ?w0 with _ => _ end = _ =>
      change (for_each l body w0) with (for_each l (mixed_body out_path) w0) in E;
      destruct (for_each l (mixed_body out_path) w0) as [[[] w3]|] eqn:E3;
        [|done]
  end.
  injection E as <-. cbn [written].
  apply (mixed_loop_file _ _ _ _ []) in E3; [done|].
  simpl. by rewrite bool_decide_eq_true_2.
Qed.

(** Elements already in the order of their start times. *)
Definition in_start_order (items : list mixed_item) : Prop :=
  Sorted (fun a b => flt (mi_start b) (mi_start a) = false) items.

Lemma sort_by_start_id items : in_start_order items -> sort_by_start items = items.
Proof.
  induction 1 as [|x l Hs IH Hhd]; [done|]. cbn [sort_by_start foldr].
  fold (sort_by_start l). rewrite IH.
  destruct Hhd as [|y l' Hy]; [done|]. simpl. by rewrite Hy.
Qed.

Lemma pass_from_plain blocks items : forall cur,
  Forall (fun i => mi_kind i = text) items ->
  (cur + length items <= length blocks)%nat ->
  (pass_from blocks cur items).2 =
    (fun ib => (mi_start ib.1, mi_end ib.1, strip ib.2))
      <$> zip items (drop cur blocks).
Proof.
  induction items as [|it items IH]; intros cur Hall Hlen; [done|].
  apply Forall_cons in Hall as [Hk Hall]. cbn [length] in Hlen.
  destruct (lookup_lt_is_Some_2 blocks cur ltac:(lia)) as [b Hb].
  rewrite (drop_S _ _ _ Hb). cbn [pass_from snd zip_with fmap list_fmap fst].
  unfold step_text, step_cursor, consumes. rewrite Hk, Hb.
  f_equal. by apply IH; [|lia].
Qed.

Lemma filter_all {A} (P : A -> Prop) `{!forall x, Decision (P x)} (l : list A) :
  Forall P l -> filter P l = l.
Proof.
  induction 1 as [|x l Hx _ IH]; [done|].
  by rewrite filter_cons_True, IH.
Qed.

Section MixedIsPlain.
Variable lower : pystr -> pystr.

End MixedIsPlain.


(* ================================================================== *)
(** * The manual block parser: how many blocks *)
(* ================================================================== *)

#[global] Instance delimiter_dec raw : Decision (delimiter raw).
Proof. unfold delimiter. apply _. Defined.

(** The blocks open or closed so far: those flushed, and the current one. *)
Definition blocks_started (st : list pystr * list pystr) : nat :=
  (length st.1 + if is_empty st.2 then 0 else 1)%nat.

Lemma flush_length blocks cur :
  length (flush blocks cur) = blocks_started (blocks, cur).
Proof.
  unfold flush, blocks_started. simpl. destruct (is_empty cur); [lia|].
  rewrite length_app. simpl. lia.
Qed.

Lemma parse_step_started st raw :
  blocks_started (parse_step st raw)
    = (blocks_started st + if decide (delimiter raw) then 1 else 0)%nat.
Proof.
  destruct st as [blocks cur]. unfold parse_step.
  destruct (decide (delimiter raw)) as [Hd|Hd]; unfold delimiter in Hd.
  - rewrite Hd. unfold blocks_started at 1. cbn [fst snd is_empty].
    by rewrite flush_length.
  - apply not_true_is_false in Hd. rewrite Hd, Nat.add_0_r.
    destruct cur as [|c cur]; [done|]. cbn [is_empty].
    unfold blocks_started. simpl. lia.
Qed.

Lemma run_started lines : forall st,
  blocks_started (foldl parse_step st lines)
    = (blocks_started st + length (filter delimiter lines))%nat.
Proof.
  induction lines as [|raw lines IH]; intros st; cbn [foldl].
  - simpl. lia.
  - rewrite IH, parse_step_started, filter_cons.
    destruct (decide (delimiter raw)); simpl; lia.
Qed.

(** X27.  [parse_manual] never returns more blocks than the text has lines that
    start with [>]; a text without such a line yields no block. *)
Theorem parse_text_block_count (text : pystr) :
  (length (parse_text text)
   <= length (filter delimiter (readlines (universal_newlines text))))%nat.
Proof.
  unfold parse_text, parse_lines.
  pose proof (run_started (readlines (universal_newlines text)) ([], [])) as H.
  destruct (foldl parse_step _ _) as [blocks cur].
  rewrite <- flush_length in H. simpl in H. rewrite <- H.
  apply length_filter.
Qed.


(* ================================================================== *)
(** * Every record starts before it ends *)
(* ================================================================== *)

Lemma frames_div_rounds frames fps :
  0 <= frames < 2 ^ 53 -> rate_ok fps ->
  exists t, frames_div frames fps = Ok t /\ good t
            /\ rounds (frames * den) (ord fps) t /\ 0 < ord fps.
Proof.
  intros Hf [Hg Hle]. pose proof den_pos as Hd.
  destruct (frames_div_good frames fps Hf Hg Hle) as (t & Et & Gt & _).
  exists t. split; [done|]. split; [done|].
  destruct (float_const_exact frames Hf) as (Ei & Gc & Ec).
  apply (fle_ord (float_const 1) fps) in Hle; [|by vm_compute|done].
  rewrite ord_one in Hle. split; [|lia].
  unfold frames_div in Et. rewrite Ei in Et. cbn [mbind result_bind] in Et.
  assert (Hnz : float_div (float_const frames) fps
                = Ok (SFdiv prec emax (float_const frames) fps)).
  { by destruct fps as [s| | |[] m e]. }
  rewrite Hnz in Et. injection Et as <-. rewrite <- Ec.
  apply fdiv_rounds; [done|done|lia].
Qed.

Lemma frames_div_mono f1 f2 fps t1 t2 :
  0 <= f1 <= f2 -> f2 < 2 ^ 53 -> rate_ok fps ->
  frames_div f1 fps = Ok t1 -> frames_div f2 fps = Ok t2 ->
  good t1 /\ good t2 /\ ord t1 <= ord t2.
Proof.
  intros H12 H2 Hrate E1 E2. pose proof den_pos as Hd.
  destruct (frames_div_rounds f1 fps ltac:(lia) Hrate) as (t1' & E1' & G1 & R1 & Hp).
  destruct (frames_div_rounds f2 fps ltac:(lia) Hrate) as (t2' & E2' & G2 & R2 & _).
  rewrite E1 in E1'. injection E1' as <-.
  rewrite E2 in E2'. injection E2' as <-.
  split; [done|]. split; [done|].
  apply (rounds_mono (f1 * den) (ord fps) t1 (f2 * den) (ord fps) t2);
    first [done | nia | by apply good_finite_true | idtac].
  apply Z.mul_le_mono_nonneg_r; [lia|].
  apply Z.mul_le_mono_nonneg_r; lia.
Qed.

(** An item that does not end before it starts, with frame numbers in
    range. *)
Definition item_ordered (it : item) : Prop :=
  0 <= GetStart it <= GetEnd it /\ GetEnd it < 86399999999999.

(** Two times that format, the first to a timecode that is not after the
    second's: by their millisecond counts, and as strings when the two
    timecodes have the same length. *)
Definition timecodes_ordered (s e : float) : Prop :=
  exists ms me,
    total_ms_of s = Ok ms /\ total_ms_of e = Ok me /\ 0 <= ms <= me
    /\ _fmt_time s = Ok (fmt_ms ms) /\ _fmt_time e = Ok (fmt_ms me)
    /\ (length (fmt_ms ms) = length (fmt_ms me) ->
        str_le (fmt_ms ms) (fmt_ms me) = true).

Definition clip_ordered (c : clip) : Prop :=
  timecodes_ordered (clip_start c) (clip_end c).

Lemma times_ordered fs fe fps s e :
  0 <= fs <= fe -> fe < 86399999999999 -> rate_ok fps ->
  frames_div fs fps = Ok s -> frames_div fe fps = Ok e ->
  timecodes_ordered s e.
Proof.
  intros Hf Hb Hrate Es Ee.
  destruct (frames_div_mono fs fe fps s e Hf
              ltac:(change (2 ^ 53) with 9007199254740992; lia) Hrate Es Ee)
    as (Gs & Ge & Hle).
  destruct Hrate as [Hg Hr].
  destruct (frames_div_formattable fs fps ltac:(unfold frame_in_range; lia) Hg Hr)
    as (s' & Es' & [_ Bs]).
  destruct (frames_div_formattable fe fps ltac:(unfold frame_in_range; lia) Hg Hr)
    as (e' & Ee' & [_ Be]).
  rewrite Es in Es'. injection Es' as <-. rewrite Ee in Ee'. injection Ee' as <-.
  pose proof (fmt_time_in_range s Gs Bs) as Os.
  pose proof (fmt_time_in_range e Ge Be) as Oe.
  destruct (_fmt_time s) as [ts|] eqn:Fs; [|done].
  destruct (_fmt_time e) as [te|] eqn:Fe; [|done].
  destruct (fmt_time_inv s ts Fs) as (ms & Hms & ->).
  destruct (fmt_time_inv e te Fe) as (me & Hme & ->).
  pose proof (total_ms_mono s e ms me Gs Ge Hle Hms Hme).
  exists ms, me. repeat (split; [done|]). intros Hlen. by apply fmt_ms_mono.
Qed.

Section Ordered.
Variable lower : pystr -> pystr.

Lemma collect_item_ordered fps ex ig extra res it res' :
  rate_ok fps -> item_ordered it -> Forall clip_ordered res ->
  collect_item lower fps ex ig extra res it = Ok res' ->
  Forall clip_ordered res'.
Proof.
  intros Hrate [Hf Hb] Hres H. unfold collect_item in H.
  destruct (ex && _); [by injection H as <-|].
  destruct (frames_div (GetStart it) fps) as [s|] eqn:Es; [|done].
  destruct (frames_div (GetEnd it) fps) as [e|] eqn:Ee; [|done].
  cbn [mbind result_bind] in H.
  destruct (_should_ignore _ _ _ _ _); injection H as <-; [done|].
  apply Forall_app. split; [done|]. apply Forall_singleton.
  unfold clip_ordered. cbn [clip_start clip_end].
  by apply (times_ordered (GetStart it) (GetEnd it) fps).
Qed.

Lemma foldM_invariant_on {A S} (P : S -> Prop) (Q : A -> Prop)
    (body : S -> A -> result S) :
  (forall acc x acc', P acc -> Q x -> body acc x = Ok acc' -> P acc') ->
  forall l acc acc', P acc -> Forall Q l -> foldM body acc l = Ok acc' -> P acc'.
Proof.
  intros Hbody. induction l as [|x l IH]; intros acc acc' HP Hl H; simpl in H.
  - by injection H as <-.
  - apply Forall_cons in Hl as [Hx Hl].
    destruct (body acc x) as [acc1|] eqn:E; [|done]. simpl in H.
    eapply IH; [|done|exact H]. by eapply Hbody.
Qed.

(** X28.  No record ends before it starts.  On a timeline with a finite frame
    rate of at least one frame per second, if every item of the named
    tracks has frame numbers with [0 <= start <= end < 86399999999999],
    then for every clip [collect_clips] returns both times format and the
    start is not after the end: by the millisecond counts of the two
    timecodes, and as strings when both have the same length. *)
Theorem clip_timecodes_ordered
    (tl : timeline_t) (fps : float) (track_name : pystr) (ex ig : bool)
    (extra : option (list pystr)) (clips : list clip) :
  timelineFrameRate tl = Some fps -> rate_ok fps ->
  Forall item_ordered (raw_items tl track_name) ->
  collect_clips lower (Some tl) track_name ex ig extra = Ok clips ->
  Forall clip_ordered clips.
Proof.
  intros Hfps Hrate Hall H. cbn [collect_clips] in H.
  apply Forall_bind_tracks in Hall.
  revert H. apply (foldM_invariant_on (Forall clip_ordered)
                     (fun tr => Forall item_ordered (items_or_empty tr)));
    [|done|done].
  intros res tr res' Hres Htr H. unfold collect_track, get_fps in H.
  rewrite Hfps in H. cbn [mbind result_bind] in H.
  revert H. apply (foldM_invariant_on (Forall clip_ordered) item_ordered);
    [|done|done].
  intros. by eapply collect_item_ordered.
Qed.
End Ordered.

Lemma clip_timecodes_ordered_witness :
  Forall clip_ordered (clip_of_kept <$> demo_collected.1).
Proof.
  apply (clip_timecodes_ordered lower_ascii demo_timeline (float_const 24)
           (py "Subs") true true None).
  - reflexivity.
  - by vm_compute.
  - repeat (apply Forall_cons; split; [by vm_compute|]). constructor.
  - by vm_compute.
Defined.
